(** * Collective rotation-key generation (package [dbfv], file rotkey_gen.go)

    A shallow embedding of the [RKG] protocol object: the Galois-element
    tables built by [NewRKG], the three share generators, the shared
    [genswitchkey] routine, the aggregators and [Finalize].

    Polynomials are Go pointers ([*ring.Poly]); the embedding keeps them as
    locations into an explicit heap so that aliasing and in-place updates
    of the scratch buffer are visible.  Run-time panics of Go (index out of
    range, nil dereference) are results of the monad. *)

From Stdlib Require Import ZArith Lia Znumtheory Zpow_facts Zcong.
From stdpp Require Import base list gmap.
Local Open Scope Z_scope.

(** ** Unsigned 64-bit arithmetic ([uint64]) *)

Definition wrap64 (x : Z) : Z := x mod 2 ^ 64.
Definition add64 (x y : Z) : Z := wrap64 (x + y).
Definition sub64 (x y : Z) : Z := wrap64 (x - y).
Definition mul64 (x y : Z) : Z := wrap64 (x * y).
Definition shl64 (x n : Z) : Z := wrap64 (Z.shiftl x n).
Definition shr64 (x n : Z) : Z := Z.shiftr x n.

(** ** Panics and indexing *)

Inductive panic : Type :=
| IndexOutOfRange (index : nat) (len : nat)
| NilDereference.

Inductive result (A : Type) : Type :=
| Ok (a : A)
| Panic (e : panic).
Arguments Ok {A} a.
Arguments Panic {A} e.

(** [l[i]] as an r-value. *)
Definition idx {A : Type} (l : list A) (i : nat) : result A :=
  match l !! i with
  | Some x => Ok x
  | None => Panic (IndexOutOfRange i (length l))
  end.

(** [l[i] = x]. *)
Definition set_idx {A : Type} (l : list A) (i : nat) (x : A) : result (list A) :=
  if decide (i < length l)%nat then Ok (<[i := x]> l)
  else Panic (IndexOutOfRange i (length l)).

(** ** The ring backend (package [ring]) *)

Module Ring.

(** [ring.Poly]: [Coeffs [][]uint64], one row per prime of the basis. *)
Abbreviation Poly := (list (list Z)).

(** [ring.Context]: the fields read by the protocol. *)
Record Context : Type := mkContext { N : Z; Modulus : list Z }.

(** Modelled from the spec: package [ring] is not among the sources.
    [CRed] is the backend's conditional reduction, one subtraction of the
    modulus when the argument has reached it. *)
Definition CRed (a q : Z) : Z := if q <=? a then sub64 a q else a.

(** Modelled from the spec: [ModExp x e p] is the modular exponentiation
    [x^e mod p] used to derive the inverse generator. *)
Definition ModExp (x e p : Z) : Z := x ^ e mod p.

(** Modelled from the spec: the inverse of the Montgomery radix [2^64]
    modulo [q]. *)
Definition Rinv (q : Z) : Z := Z.invmod (2 ^ 64) q.

(** Modelled from the spec: conversion of a residue into the
    fast-multiplication (Montgomery) representation, [x * 2^64 mod q]. *)
Definition MForm (q x : Z) : Z := (x * 2 ^ 64) mod q.

(** Modelled from the spec: conversion out of the fast-multiplication
    representation, [x * 2^-64 mod q]. *)
Definition InvMForm (q x : Z) : Z := (x * Rinv q) mod q.

(** Modelled from the spec: Montgomery product [x * y * 2^-64 mod q]. *)
Definition MRed (q x y : Z) : Z := (x * y * Rinv q) mod q.

(** Modelled from the spec: full reduction of a 64-bit word modulo [q]. *)
Definition BRedAdd (q x : Z) : Z := x mod q.

(** Row-wise lifting of coefficient operations over the RNS basis. *)
Definition map_rows (f : Z → Z → Z) (qs : list Z) (p : Poly) : Poly :=
  zip_with (λ q row, f q <$> row) qs p.

Definition map_rows2 (f : Z → Z → Z → Z) (qs : list Z) (p1 p2 : Poly) : Poly :=
  zip_with (λ q rr, zip_with (f q) rr.1 rr.2) qs (zip p1 p2).

Definition map_rows3 (f : Z → Z → Z → Z → Z) (qs : list Z)
    (p1 p2 p3 : Poly) : Poly :=
  zip_with (λ q rrr, zip_with (λ x yz, f q x yz.1 yz.2) rrr.1 (zip rrr.2.1 rrr.2.2))
    qs (zip p1 (zip p2 p3)).

(** Modelled from the spec: the values computed by the [ring.Context]
    methods called by the protocol, on polynomials of the context's
    shape. *)
Definition MForm_poly (c : Context) (p : Poly) : Poly :=
  map_rows MForm (Modulus c) p.

Definition InvMForm_poly (c : Context) (p : Poly) : Poly :=
  map_rows InvMForm (Modulus c) p.

Definition Reduce_poly (c : Context) (p : Poly) : Poly :=
  map_rows BRedAdd (Modulus c) p.

Definition AddNoMod_poly (c : Context) (p1 p2 : Poly) : Poly :=
  map_rows2 (λ _ x y, add64 x y) (Modulus c) p1 p2.

Definition Sub_poly (c : Context) (p1 p2 : Poly) : Poly :=
  map_rows2 (λ q x y, (x - y) mod q) (Modulus c) p1 p2.

Definition MulScalar_poly (c : Context) (p : Poly) (s : Z) : Poly :=
  map_rows (λ q x, (x * s) mod q) (Modulus c) p.

(** [p3 - p1 * p2], the product being the Montgomery product. *)
Definition MulCoeffsMontgomeryAndSub_poly (c : Context) (p1 p2 p3 : Poly) : Poly :=
  map_rows3 (λ q x y z, (z - MRed q x y) mod q) (Modulus c) p1 p2 p3.

(** The all-zero polynomial of the context's shape ([NewPoly]). *)
Definition zero_poly (c : Context) : Poly :=
  replicate (length (Modulus c)) (replicate (Z.to_nat (N c)) 0).

End Ring.

(** ** Heap, noise source and the state-and-panic monad *)

(** A [*ring.Poly] is a location of the heap. *)
Abbreviation loc := nat (only parsing).

(** The machine state: the polynomials allocated so far, and the Gaussian
    sampler seen as the sequence of its future draws with the number of
    draws already consumed. *)
Record World : Type := mkWorld {
  heap : list Ring.Poly;
  noise : nat → Ring.Poly;
  drawn : nat
}.

Definition M (A : Type) : Type := World → result (A * World).

Definition ret {A : Type} (a : A) : M A := λ w, Ok (a, w).

Definition bind {A B : Type} (m : M A) (k : A → M B) : M B :=
  λ w, match m w with
       | Ok (a, w') => k a w'
       | Panic e => Panic e
       end.

Notation "'do' x <- c1 ;; c2" := (bind c1 (fun x => c2))
  (at level 10, x name, c1 at level 99, c2 at level 200).

Definition lift {A : Type} (r : result A) : M A :=
  λ w, match r with
       | Ok a => Ok (a, w)
       | Panic e => Panic e
       end.

Definition load (l : loc) : M Ring.Poly :=
  λ w, match heap w !! l with
       | Some p => Ok (p, w)
       | None => Panic NilDereference
       end.

Definition store (l : loc) (p : Ring.Poly) : M unit :=
  λ w, if decide (l < length (heap w))%nat
       then Ok (tt, mkWorld (<[l := p]> (heap w)) (noise w) (drawn w))
       else Panic NilDereference.

Definition alloc (p : Ring.Poly) : M loc :=
  λ w, Ok (length (heap w), mkWorld (heap w ++ [p]) (noise w) (drawn w)).

(** *** Backend calls on heap polynomials

    Modelled from the spec: the methods of [ring.Poly], [ring.Context] and
    of the Gaussian sampler that the protocol calls, as heap operations.
    Each reads the polynomials it is given and writes the value computed
    above to its last argument; the ones named [New] allocate. *)

(** [p.CopyNew()]: a deep copy in fresh storage. *)
Definition CopyNew (p : loc) : M loc :=
  do v <- load p ;; alloc v.

(** [context.NewPoly()]. *)
Definition NewPoly (c : Ring.Context) : M loc := alloc (Ring.zero_poly c).

(** [GaussianSampler().SampleNTTNew()]: the next draw, in fresh storage. *)
Definition SampleNTTNew : M loc :=
  λ w, Ok (length (heap w),
           mkWorld (heap w ++ [noise w (drawn w)]) (noise w) (S (drawn w))).

Definition Context_MForm (c : Ring.Context) (p1 p2 : loc) : M unit :=
  do v <- load p1 ;; store p2 (Ring.MForm_poly c v).

Definition Context_InvMForm (c : Ring.Context) (p1 p2 : loc) : M unit :=
  do v <- load p1 ;; store p2 (Ring.InvMForm_poly c v).

Definition Context_Reduce (c : Ring.Context) (p1 p2 : loc) : M unit :=
  do v <- load p1 ;; store p2 (Ring.Reduce_poly c v).

Definition Context_AddNoMod (c : Ring.Context) (p1 p2 p3 : loc) : M unit :=
  do v1 <- load p1 ;; do v2 <- load p2 ;; store p3 (Ring.AddNoMod_poly c v1 v2).

Definition Context_Sub (c : Ring.Context) (p1 p2 p3 : loc) : M unit :=
  do v1 <- load p1 ;; do v2 <- load p2 ;; store p3 (Ring.Sub_poly c v1 v2).

Definition Context_MulScalar (c : Ring.Context) (p1 : loc) (s : Z) (p2 : loc) : M unit :=
  do v <- load p1 ;; store p2 (Ring.MulScalar_poly c v s).

Definition Context_MulCoeffsMontgomeryAndSub (c : Ring.Context) (p1 p2 p3 : loc) : M unit :=
  do v1 <- load p1 ;; do v2 <- load p2 ;; do v3 <- load p3 ;;
  store p3 (Ring.MulCoeffsMontgomeryAndSub_poly c v1 v2 v3).

(** ** The scheme context and the key set (package [bfv]) *)

(** Modelled from the spec: package [bfv] is not among the sources.  The
    context gives the ring over the modulus chain ([ContextQ]), the ring
    over the extended basis used for key switching ([ContextKeys]), the
    auxiliary primes, and the decomposition parameters. *)
Record BfvContext : Type := mkBfvContext {
  ContextQ : Ring.Context;
  ContextKeys : Ring.Context;
  KeySwitchPrimes : list Z;
  Alpha : Z;
  Beta : Z
}.

(** Modelled from the spec: [bfvContext.N()], the ring degree of the scheme. *)
Definition bfv_N (c : BfvContext) : Z := Ring.N (ContextQ c).

(** A key-switching key: [[][2]*ring.Poly]. *)
Abbreviation SwitchingKey := (list (nat * nat)).

(** Modelled from the spec: the rotation-key set handed to the evaluator,
    indexed by rotation kind and amount. *)
Record RotationKeys : Type := mkRotationKeys {
  evakey_rot_col_L : gmap Z SwitchingKey;
  evakey_rot_col_R : gmap Z SwitchingKey;
  evakey_rot_row : option SwitchingKey
}.

Definition NewRotationKeysEmpty : RotationKeys := mkRotationKeys ∅ ∅ None.

Definition SetRotColLeft (evakey : SwitchingKey) (k : Z) (rotkey : RotationKeys)
    : RotationKeys :=
  mkRotationKeys (<[k := evakey]> (evakey_rot_col_L rotkey))
                 (evakey_rot_col_R rotkey) (evakey_rot_row rotkey).

Definition SetRotColRight (evakey : SwitchingKey) (k : Z) (rotkey : RotationKeys)
    : RotationKeys :=
  mkRotationKeys (evakey_rot_col_L rotkey)
                 (<[k := evakey]> (evakey_rot_col_R rotkey)) (evakey_rot_row rotkey).

Definition SetRotRow (evakey : SwitchingKey) (rotkey : RotationKeys) : RotationKeys :=
  mkRotationKeys (evakey_rot_col_L rotkey) (evakey_rot_col_R rotkey) (Some evakey).

(** ** The protocol object *)

Record RKG : Type := mkRKG {
  bfvContext : BfvContext;
  gen : Z;
  genInv : Z;
  galElRotRow : Z;
  galElRotColLeft : list Z;
  galElRotColRight : list Z;
  rot_col_L : gmap Z SwitchingKey;
  rot_col_R : gmap Z SwitchingKey;
  rot_row : option SwitchingKey;
  polypool : loc
}.

Definition set_rot_col_L (m : gmap Z SwitchingKey) (rkg : RKG) : RKG :=
  mkRKG (bfvContext rkg) (gen rkg) (genInv rkg) (galElRotRow rkg)
        (galElRotColLeft rkg) (galElRotColRight rkg)
        m (rot_col_R rkg) (rot_row rkg) (polypool rkg).

Definition set_rot_col_R (m : gmap Z SwitchingKey) (rkg : RKG) : RKG :=
  mkRKG (bfvContext rkg) (gen rkg) (genInv rkg) (galElRotRow rkg)
        (galElRotColLeft rkg) (galElRotColRight rkg)
        (rot_col_L rkg) m (rot_row rkg) (polypool rkg).

Definition set_rot_row (r : option SwitchingKey) (rkg : RKG) : RKG :=
  mkRKG (bfvContext rkg) (gen rkg) (genInv rkg) (galElRotRow rkg)
        (galElRotColLeft rkg) (galElRotColRight rkg)
        (rot_col_L rkg) (rot_col_R rkg) r (polypool rkg).

(** *** [NewRKG] *)

(** The table loop [for i := 1; i < N>>1; i++], entered at index [i] with
    [fuel] iterations left. *)
Fixpoint fill_tables (fuel i : nat) (g gInv mask : Z) (left right : list Z)
    : result (list Z * list Z) :=
  match fuel with
  | O => Ok (left, right)
  | S fuel' =>
      match idx left (i - 1) with
      | Panic e => Panic e
      | Ok l =>
          match set_idx left i (Z.land (mul64 l g) mask) with
          | Panic e => Panic e
          | Ok left' =>
              match idx right (i - 1) with
              | Panic e => Panic e
              | Ok r =>
                  match set_idx right i (Z.land (mul64 r gInv) mask) with
                  | Panic e => Panic e
                  | Ok right' => fill_tables fuel' (S i) g gInv mask left' right'
                  end
              end
          end
      end
  end.

Definition NewRKG (ctx : BfvContext) : M RKG :=
  do pool <- NewPoly (ContextKeys ctx) ;;
  let n := bfv_N ctx in
  let g := 5 in
  let gInv := Ring.ModExp g (sub64 (shl64 n 1) 1) (shl64 n 1) in
  let mask := sub64 (shl64 n 1) 1 in
  let half := Z.to_nat (shr64 n 1) in
  do right0 <- lift (set_idx (replicate half 0) 0%nat 1) ;;
  do left0 <- lift (set_idx (replicate half 0) 0%nat 1) ;;
  do tables <- lift (fill_tables (half - 1) 1 g gInv mask left0 right0) ;;
  ret (mkRKG ctx g gInv (sub64 (shl64 n 1) 1) tables.1 tables.2 ∅ ∅ None pool).

(** *** Share generation *)

(** [for _, pj := range KeySwitchPrimes() { context.MulScalar(pool, pj, pool) }] *)
Fixpoint scale_by_primes (context : Ring.Context) (pool : loc) (primes : list Z)
    : M unit :=
  match primes with
  | [] => ret tt
  | pj :: rest =>
      do _ <- Context_MulScalar context pool pj pool ;;
      scale_by_primes context pool rest
  end.

(** The loop over the [N] coefficients of row [index], entered at
    coefficient [w] with [fuel] iterations left:
    [evakey[i].Coeffs[index][w] =
       CRed(evakey[i].Coeffs[index][w] + polypool.Coeffs[index][w], Modulus[index])]. *)
Fixpoint inject_coeffs (fuel w : nat) (context : Ring.Context) (ev pool : loc)
    (index : nat) : M unit :=
  match fuel with
  | O => ret tt
  | S fuel' =>
      do e <- load ev ;;
      do erow <- lift (idx e index) ;;
      do x <- lift (idx erow w) ;;
      do p <- load pool ;;
      do prow <- lift (idx p index) ;;
      do y <- lift (idx prow w) ;;
      do q <- lift (idx (Ring.Modulus context) index) ;;
      do _ <- store ev (<[index := <[w := Ring.CRed (add64 x y) q]> erow]> e) ;;
      inject_coeffs fuel' (S w) context ev pool index
  end.

(** The loop [for j := 0; j < Alpha; j++] of digit [i], entered at [j] with
    [fuel] iterations left; the test on [index] leaves the loop. *)
Fixpoint inject_digit (fuel j : nat) (rkg : RKG) (i : nat) (ev : loc) : M unit :=
  match fuel with
  | O => ret tt
  | S fuel' =>
      let context := ContextKeys (bfvContext rkg) in
      let index := add64 (mul64 (Z.of_nat i) (Alpha (bfvContext rkg))) (Z.of_nat j) in
      do _ <- inject_coeffs (Z.to_nat (Ring.N context)) 0 context ev (polypool rkg)
                (Z.to_nat index) ;;
      if index =? Z.of_nat (length (Ring.Modulus (ContextQ (bfvContext rkg))))
      then ret tt
      else inject_digit fuel' (S j) rkg i ev
  end.

(** The loop [for i := 0; i < Beta; i++] of [genswitchkey], entered at digit
    [i] with [fuel] iterations left; [evakey] holds the digits already
    produced ([evakey[0..i)]). *)
Fixpoint genswitchkey_loop (fuel i : nat) (rkg : RKG) (sk_out : loc) (crp : list loc)
    (evakey : list loc) : M (list loc) :=
  match fuel with
  | O => ret evakey
  | S fuel' =>
      let context := ContextKeys (bfvContext rkg) in
      do e <- SampleNTTNew ;;
      do _ <- inject_digit (Z.to_nat (Alpha (bfvContext rkg))) 0 rkg i e ;;
      do c <- lift (idx crp i) ;;
      do _ <- Context_MulCoeffsMontgomeryAndSub context c sk_out e ;;
      do _ <- Context_MForm context e e ;;
      genswitchkey_loop fuel' (S i) rkg sk_out crp (evakey ++ [e])
  end.

Definition genswitchkey (rkg : RKG) (sk_in sk_out : loc) (crp : list loc)
    : M (list loc) :=
  genswitchkey_loop (Z.to_nat (Beta (bfvContext rkg))) 0 rkg sk_out crp [].

Section ShareGeneration.

(** Modelled from the spec: [ring.PermuteNTT], the NTT-domain automorphism
    permutation, is a parameter: the coefficients written to the output
    polynomial, from the input polynomial and the Galois element. *)
Variable PermuteNTT : Ring.Poly → Z → Ring.Poly.

Definition Ring_PermuteNTT (polIn : loc) (g : Z) (polOut : loc) : M unit :=
  do v <- load polIn ;; store polOut (PermuteNTT v g).

(** The common body of the three generators below, once the Galois element
    is chosen; the proofs go through it. *)
Definition gen_share (rkg : RKG) (sk : loc) (galEl : Z) (crp : list loc)
    : M (list loc) :=
  let context := ContextKeys (bfvContext rkg) in
  do _ <- Ring_PermuteNTT sk galEl (polypool rkg) ;;
  do _ <- Context_Sub context (polypool rkg) sk (polypool rkg) ;;
  do _ <- scale_by_primes context (polypool rkg) (KeySwitchPrimes (bfvContext rkg)) ;;
  do _ <- Context_InvMForm context (polypool rkg) (polypool rkg) ;;
  genswitchkey rkg (polypool rkg) sk crp.

Definition GenShareRotLeft (rkg : RKG) (sk : loc) (k : Z) (crp : list loc)
    : M (list loc) :=
  let context := ContextKeys (bfvContext rkg) in
  let k := Z.land k (sub64 (shr64 (Ring.N context) 1) 1) in
  do g <- lift (idx (galElRotColLeft rkg) (Z.to_nat k)) ;;
  do _ <- Ring_PermuteNTT sk g (polypool rkg) ;;
  do _ <- Context_Sub context (polypool rkg) sk (polypool rkg) ;;
  do _ <- scale_by_primes context (polypool rkg) (KeySwitchPrimes (bfvContext rkg)) ;;
  do _ <- Context_InvMForm context (polypool rkg) (polypool rkg) ;;
  genswitchkey rkg (polypool rkg) sk crp.

Definition GenShareRotRight (rkg : RKG) (sk : loc) (k : Z) (crp : list loc)
    : M (list loc) :=
  let context := ContextKeys (bfvContext rkg) in
  let k := Z.land k (sub64 (shr64 (Ring.N context) 1) 1) in
  do g <- lift (idx (galElRotColRight rkg) (Z.to_nat k)) ;;
  do _ <- Ring_PermuteNTT sk g (polypool rkg) ;;
  do _ <- Context_Sub context (polypool rkg) sk (polypool rkg) ;;
  do _ <- scale_by_primes context (polypool rkg) (KeySwitchPrimes (bfvContext rkg)) ;;
  do _ <- Context_InvMForm context (polypool rkg) (polypool rkg) ;;
  genswitchkey rkg (polypool rkg) sk crp.

Definition GenShareRotRow (rkg : RKG) (sk : loc) (crp : list loc) : M (list loc) :=
  let context := ContextKeys (bfvContext rkg) in
  do _ <- Ring_PermuteNTT sk (galElRotRow rkg) (polypool rkg) ;;
  do _ <- Context_Sub context (polypool rkg) sk (polypool rkg) ;;
  do _ <- scale_by_primes context (polypool rkg) (KeySwitchPrimes (bfvContext rkg)) ;;
  do _ <- Context_InvMForm context (polypool rkg) (polypool rkg) ;;
  genswitchkey rkg (polypool rkg) sk crp.

End ShareGeneration.

(** *** Aggregation *)

(** The loop [for j := 1; j < len(samples); j++] on digit [i], entered at
    party [j] with [fuel] iterations left. *)
Fixpoint aggregate_sum (fuel j : nat) (context : Ring.Context)
    (samples : list (list loc)) (i : nat) (r0 : loc) : M unit :=
  match fuel with
  | O => ret tt
  | S fuel' =>
      do sj <- lift (idx samples j) ;;
      do s <- lift (idx sj i) ;;
      do _ <- Context_AddNoMod context r0 s r0 ;;
      do _ <- (if Z.land (Z.of_nat j) 7 =? 7 then Context_Reduce context r0 r0
               else ret tt) ;;
      aggregate_sum fuel' (S j) context samples i r0
  end.

(** The loop [for i := 0; i < Beta; i++] of [aggregate], entered at digit [i]
    with [fuel] iterations left; [receiver] holds [receiver[0..i)]. *)
Fixpoint aggregate_loop (fuel i : nat) (rkg : RKG) (samples : list (list loc))
    (crp : list loc) (receiver : SwitchingKey) : M SwitchingKey :=
  match fuel with
  | O => ret receiver
  | S fuel' =>
      let context := ContextKeys (bfvContext rkg) in
      do s0 <- lift (idx samples 0%nat) ;;
      do s <- lift (idx s0 i) ;;
      do r0 <- CopyNew s ;;
      do c <- lift (idx crp i) ;;
      do r1 <- CopyNew c ;;
      do _ <- Context_MForm context r1 r1 ;;
      do _ <- aggregate_sum (length samples - 1) 1 context samples i r0 ;;
      do _ <- (if negb (Z.land (Z.of_nat (length samples) - 1) 7 =? 7)
               then Context_Reduce context r0 r0 else ret tt) ;;
      aggregate_loop fuel' (S i) rkg samples crp (receiver ++ [(r0, r1)])
  end.

Definition aggregate (rkg : RKG) (samples : list (list loc)) (crp : list loc)
    : M SwitchingKey :=
  aggregate_loop (Z.to_nat (Beta (bfvContext rkg))) 0 rkg samples crp [].

Definition AggregateRotColL (rkg : RKG) (samples : list (list loc)) (k : Z)
    (crp : list loc) : M RKG :=
  let k := Z.land k (sub64 (shr64 (bfv_N (bfvContext rkg)) 1) 1) in
  do r <- aggregate rkg samples crp ;;
  ret (set_rot_col_L (<[k := r]> (rot_col_L rkg)) rkg).

Definition AggregateRotColR (rkg : RKG) (samples : list (list loc)) (k : Z)
    (crp : list loc) : M RKG :=
  let k := Z.land k (sub64 (shr64 (bfv_N (bfvContext rkg)) 1) 1) in
  do r <- aggregate rkg samples crp ;;
  ret (set_rot_col_R (<[k := r]> (rot_col_R rkg)) rkg).

Definition AggregateRotRow (rkg : RKG) (samples : list (list loc)) (crp : list loc)
    : M RKG :=
  do r <- aggregate rkg samples crp ;;
  ret (set_rot_row (Some r) rkg).

(** *** Finalization *)

(** [for k := range m { rotkey.Set(m[k], k); delete(m, k) }]: every key
    present when the loop starts is visited once; the entry is read from
    the map as it stands, then removed. *)
Definition drain (set : SwitchingKey → Z → RotationKeys → RotationKeys)
    (m : gmap Z SwitchingKey) (rotkey : RotationKeys)
    : RotationKeys * gmap Z SwitchingKey :=
  map_fold (λ k _ acc, (set (default [] (acc.2 !! k)) k acc.1, delete k acc.2))
           (rotkey, m) m.

Definition Finalize (rkg : RKG) : RotationKeys * RKG :=
  let rotkey := NewRotationKeysEmpty in
  let lft := drain SetRotColLeft (rot_col_L rkg) rotkey in
  let rkg := set_rot_col_L lft.2 rkg in
  let rgt := drain SetRotColRight (rot_col_R rkg) lft.1 in
  let rkg := set_rot_col_R rgt.2 rkg in
  match rot_row rkg with
  | Some r => (SetRotRow r rgt.1, set_rot_row None rkg)
  | None => (rgt.1, rkg)
  end.

(** *** Protocol runs between two finalizations *)

(** The masked rotation amount under which the column aggregators file a
    key: [k & ((N >> 1) - 1)]. *)
Definition col_mask (rkg : RKG) (k : Z) : Z :=
  Z.land k (sub64 (shr64 (bfv_N (bfvContext rkg)) 1) 1).

(** One aggregation call on the instance. *)
Inductive agg_call : Type :=
| CallColL (samples : list (list loc)) (k : Z) (crp : list loc)
| CallColR (samples : list (list loc)) (k : Z) (crp : list loc)
| CallRow (samples : list (list loc)) (crp : list loc).

Definition run_call (rkg : RKG) (c : agg_call) : M RKG :=
  match c with
  | CallColL samples k crp => AggregateRotColL rkg samples k crp
  | CallColR samples k crp => AggregateRotColR rkg samples k crp
  | CallRow samples crp => AggregateRotRow rkg samples crp
  end.

Fixpoint run_calls (cs : list agg_call) (rkg : RKG) : M RKG :=
  match cs with
  | [] => ret rkg
  | c :: cs' => do rkg' <- run_call rkg c ;; run_calls cs' rkg'
  end.

(** The accumulator holds nothing. *)
Definition drained (rkg : RKG) : Prop :=
  rot_col_L rkg = ∅ ∧ rot_col_R rkg = ∅ ∧ rot_row rkg = None.

(** ** Vocabulary of the statements *)

(** Coefficient [col] of row [r], zero outside the polynomial. *)
Definition coeff (p : Ring.Poly) (r col : nat) : Z :=
  match p !! r with
  | Some row => default 0 (row !! col)
  | None => 0
  end.

(** A polynomial with [rows] rows of [cols] coefficients each. *)
Definition shape (rows cols : nat) (p : Ring.Poly) : Prop :=
  length p = rows ∧ Forall (λ row, length row = cols) p.

(** A polynomial of the context: one row of [N] coefficients per prime. *)
Definition shaped (c : Ring.Context) (p : Ring.Poly) : Prop :=
  shape (length (Ring.Modulus c)) (Z.to_nat (Ring.N c)) p.

(** Every coefficient is a residue of its row's prime. *)
Definition reduced (c : Ring.Context) (p : Ring.Poly) : Prop :=
  ∀ r q col, Ring.Modulus c !! r = Some q → (col < Z.to_nat (Ring.N c))%nat →
             0 ≤ coeff p r col < q.

(** The content of a location, the empty polynomial when it is not
    allocated. *)
Definition val (h : list Ring.Poly) (l : loc) : Ring.Poly := default [] (h !! l).

(** *** The value accumulated by [aggregate] *)

(** The content of [receiver[i][0]] after the loop over the parties [j],
    entered at party [j] with accumulator [acc], the remaining parties'
    polynomials being [vs]: additions without reduction, a reduction when
    [j & 7 == 7]. *)
Fixpoint sum_val (c : Ring.Context) (acc : Ring.Poly) (j : nat) (vs : list Ring.Poly)
    : Ring.Poly :=
  match vs with
  | [] => acc
  | v :: vs' =>
      let acc1 := Ring.AddNoMod_poly c acc v in
      let acc2 := if Z.land (Z.of_nat j) 7 =? 7 then Ring.Reduce_poly c acc1 else acc1 in
      sum_val c acc2 (S j) vs'
  end.

(** The content of [receiver[i][0]] when [aggregate] is done with digit [i],
    from the parties' polynomials of that digit: the loop above on a copy
    of the first, and the closing reduction unless the last addition was
    followed by one. *)
Definition deferred_sum (c : Ring.Context) (vs : list Ring.Poly) : Ring.Poly :=
  match vs with
  | [] => []
  | v0 :: rest =>
      let acc := sum_val c v0 1 rest in
      if negb (Z.land (Z.of_nat (length vs) - 1) 7 =? 7) then Ring.Reduce_poly c acc
      else acc
  end.

(** The sum as the specification words it: a full reduction after every
    addition. *)
Definition naive_sum (c : Ring.Context) (vs : list Ring.Poly) : Ring.Poly :=
  match vs with
  | [] => []
  | v0 :: rest =>
      fold_left (λ acc v, Ring.Reduce_poly c (Ring.AddNoMod_poly c acc v)) rest
                (Ring.Reduce_poly c v0)
  end.

(** The polynomials of digit [i] of the parties' shares, read in heap [h]. *)
Definition column (h : list Ring.Poly) (samples : list (list loc)) (i : nat)
    : list Ring.Poly :=
  (λ st, val h (default 0%nat (st !! i))) <$> samples.

(** The inputs of an aggregation are usable up to digit [n]: there is a
    first party, and every share vector and the CRP have an allocated
    polynomial at each digit below [n]. *)
Definition usable (h : list Ring.Poly) (samples : list (list loc)) (crp : list loc)
    (n : nat) : Prop :=
  samples ≠ [] ∧
  (∀ st t, st ∈ samples → (t < n)%nat → ∃ l, st !! t = Some l ∧ (l < length h)%nat) ∧
  (∀ t, (t < n)%nat → ∃ l, crp !! t = Some l ∧ (l < length h)%nat).

(** The pair written for digit [t] by [aggregate]. *)
Definition aggregate_digit (c : Ring.Context) (h : list Ring.Poly)
    (samples : list (list loc)) (crp : list loc) (t : nat) : list Ring.Poly :=
  [deferred_sum c (column h samples t);
   Ring.MForm_poly c (val h (default 0%nat (crp !! t)))].

(** The same loop on one coefficient. *)
Fixpoint sum_coeff (q acc : Z) (j : nat) (xs : list Z) : Z :=
  match xs with
  | [] => acc
  | x :: xs' =>
      let a1 := add64 acc x in
      let a2 := if Z.land (Z.of_nat j) 7 =? 7 then Ring.BRedAdd q a1 else a1 in
      sum_coeff q a2 (S j) xs'
  end.

Definition sumZ (xs : list Z) : Z := foldr Z.add 0 xs.

(** The moduli are positive and below [2^60], so that nine residues add up
    without leaving 64 bits. *)
Definition bounded_moduli (c : Ring.Context) : Prop :=
  Forall (λ q, 0 < q < 2 ^ 60) (Ring.Modulus c).

(** *** The digits of [genswitchkey] *)

(** Modelled from the spec: the shape of a scheme context.  The basis of
    [ContextKeys] extends the modulus chain of [ContextQ] by the (at least
    one) auxiliary key-switching primes, both rings have the same degree,
    indices fit in 64 bits, and the chain is cut into [Beta] digits of
    [Alpha] primes, the last one possibly shorter. *)
Definition wf_ctx (bc : BfvContext) : Prop :=
  Ring.Modulus (ContextKeys bc) = Ring.Modulus (ContextQ bc) ++ KeySwitchPrimes bc ∧
  KeySwitchPrimes bc ≠ [] ∧
  Z.of_nat (length (Ring.Modulus (ContextKeys bc))) < 2 ^ 64 ∧
  Ring.N (ContextKeys bc) = Ring.N (ContextQ bc) ∧
  0 < Alpha bc ∧ 0 ≤ Beta bc ∧
  (Beta bc - 1) * Alpha bc < Z.of_nat (length (Ring.Modulus (ContextQ bc)))
    ≤ Beta bc * Alpha bc.

(** The rows to which the loop of digit [i] adds the scratch polynomial,
    entered at [j]: the indices [i * Alpha + j'] for [j ≤ j' < Alpha], up
    to and including the length of the modulus chain. *)
Definition injected_from (bc : BfvContext) (i j r : nat) : bool :=
  (Z.of_nat i * Alpha bc + Z.of_nat j <=? Z.of_nat r) &&
  (Z.of_nat r <? Z.of_nat i * Alpha bc + Alpha bc) &&
  (Z.of_nat r <=? Z.of_nat (length (Ring.Modulus (ContextQ bc)))).

Definition injected (bc : BfvContext) (i r : nat) : bool := injected_from bc i 0 r.

(** The digit factor of the specification: the identity on the [Alpha]
    consecutive primes of the modulus chain covered by digit [i] (fewer for
    a shorter last digit), zero on every other prime. *)
Definition covers (bc : BfvContext) (i r : nat) : bool :=
  (Z.of_nat i * Alpha bc <=? Z.of_nat r) &&
  (Z.of_nat r <? Z.of_nat i * Alpha bc + Alpha bc) &&
  (Z.of_nat r <? Z.of_nat (length (Ring.Modulus (ContextQ bc)))).

(** A coefficient of an output digit, from the noise [e], the scratch
    coefficient [p], the CRP coefficient [a] and the secret coefficient
    [s]; [inj] tells whether the row receives the injection. *)
Definition digit_coeff (inj : bool) (q e p a s : Z) : Z :=
  Ring.MForm q (((if inj then Ring.CRed (add64 e p) q else e) - Ring.MRed q a s) mod q).

(** The inputs of [genswitchkey] are well formed up to digit [n]: the
    scratch buffer, the secret and the first [n] CRP polynomials are
    allocated with the context's shape, and so are the next [n] draws of
    the sampler. *)
Definition share_inputs (rkg : RKG) (sk : loc) (crp : list loc)
    (h : list Ring.Poly) (nz : nat → Ring.Poly) (d n : nat) : Prop :=
  let c := ContextKeys (bfvContext rkg) in
  (∃ p, h !! polypool rkg = Some p ∧ shaped c p) ∧
  (∃ sv, h !! sk = Some sv ∧ shaped c sv) ∧
  (∀ t, (t < n)%nat → ∃ lc cv, crp !! t = Some lc ∧ h !! lc = Some cv ∧ shaped c cv) ∧
  (∀ t, (t < n)%nat → shaped c (nz (d + t)%nat)).

(** *** The scratch polynomial and the generators as one operation *)

(** The content of the scratch buffer when [genswitchkey] is entered: the
    permuted secret minus the secret, scaled by every key-switching prime,
    taken out of Montgomery form. *)
Definition prepare (PermuteNTT : Ring.Poly → Z → Ring.Poly) (bc : BfvContext)
    (skv : Ring.Poly) (g : Z) : Ring.Poly :=
  let c := ContextKeys bc in
  Ring.InvMForm_poly c
    (fold_left (Ring.MulScalar_poly c) (KeySwitchPrimes bc)
       (Ring.Sub_poly c (PermuteNTT skv g) skv)).

(** The rotation selector of the operation surface. *)
Inductive selector : Type :=
| ColumnLeft (k : Z)
| ColumnRight (k : Z)
| Row.

(** [generateShare(selector, secretShare, crp)] of the operation surface:
    the three generators of the source under one name. *)
Definition generateShare (PermuteNTT : Ring.Poly → Z → Ring.Poly) (rkg : RKG)
    (sel : selector) (sk : loc) (crp : list loc) : M (list loc) :=
  match sel with
  | ColumnLeft k => GenShareRotLeft PermuteNTT rkg sk k crp
  | ColumnRight k => GenShareRotRight PermuteNTT rkg sk k crp
  | Row => GenShareRotRow PermuteNTT rkg sk crp
  end.

(** The Galois element a selector stands for. *)
Definition selector_element (rkg : RKG) (sel : selector) : result Z :=
  let mask := sub64 (shr64 (Ring.N (ContextKeys (bfvContext rkg))) 1) 1 in
  match sel with
  | ColumnLeft k => idx (galElRotColLeft rkg) (Z.to_nat (Z.land k mask))
  | ColumnRight k => idx (galElRotColRight rkg) (Z.to_nat (Z.land k mask))
  | Row => Ok (galElRotRow rkg)
  end.

(** The moduli are odd and positive (primes of an NTT-friendly basis). *)
Definition odd_moduli (c : Ring.Context) : Prop :=
  Forall (λ q, 0 < q ∧ Z.odd q = true) (Ring.Modulus c).

(** What a call of [generateShare] relies on: a well-formed context, a
    permutation that keeps the shape, a selector the tables know, a scratch
    buffer of the instance that is allocated and distinct from the caller's
    polynomials, and a secret, [Beta] CRP polynomials and [Beta] coming
    draws of the context's shape. *)
Definition gen_ready (PermuteNTT : Ring.Poly → Z → Ring.Poly) (rkg : RKG)
    (sel : selector) (sk : loc) (crp : list loc) (w : World) : Prop :=
  let c := ContextKeys (bfvContext rkg) in
  let n := Z.to_nat (Beta (bfvContext rkg)) in
  wf_ctx (bfvContext rkg) ∧
  (∀ p g, shaped c p → shaped c (PermuteNTT p g)) ∧
  (∃ g, selector_element rkg sel = Ok g) ∧
  sk ≠ polypool rkg ∧
  (polypool rkg < length (heap w))%nat ∧
  (∃ sv, heap w !! sk = Some sv ∧ shaped c sv) ∧
  (∀ t, (t < n)%nat →
     ∃ lc cv, crp !! t = Some lc ∧ lc ≠ polypool rkg ∧
              heap w !! lc = Some cv ∧ shaped c cv) ∧
  (∀ t, (t < n)%nat → shaped c (noise w (drawn w + t)%nat)).

(** *** Inputs shorter than [Beta] *)

(** Every pointer of the vector is allocated. *)
Definition allocated (h : list Ring.Poly) (ls : list loc) : Prop :=
  Forall (λ l, (l < length h)%nat) ls.

(** The length of the shortest among the CRP and the share vectors. *)
Definition min_len (samples : list (list loc)) (crp : list loc) : nat :=
  foldr Nat.min (length crp) (length <$> samples).

(** ** A toy instance

    Three primes in the modulus chain, two auxiliary primes, digits of two
    primes: the chain length is not a multiple of [Alpha], so the second
    digit is the shorter one.  Ring degree 4. *)

Definition toy_Q : list Z := [13; 17; 29].
Definition toy_P : list Z := [37; 41].

Definition toy_ctx : BfvContext :=
  mkBfvContext (Ring.mkContext 4 toy_Q) (Ring.mkContext 4 (toy_Q ++ toy_P)) toy_P 2 2.

(** The instance [NewRKG] builds for [toy_ctx] on an empty heap. *)
Definition toy_rkg : RKG := mkRKG toy_ctx 5 5 7 [1; 5] [1; 5] ∅ ∅ None 0.

(** A polynomial of the toy context whose coefficient [col] of row [r] is
    [(a + r + 2 * col) mod 13]. *)
Definition toy_poly (a : Z) : Ring.Poly :=
  (λ r, (λ col, (a + Z.of_nat r + 2 * Z.of_nat col) mod 13) <$> seq 0 4) <$> seq 0 5.

(** The heap: the scratch buffer at 0, a secret share at 1, the CRP at 2
    and 3, the two digits of a party's share at 4 and 5. *)
Definition toy_heap : list Ring.Poly :=
  [toy_poly 1; toy_poly 2; toy_poly 3; toy_poly 4; toy_poly 5; toy_poly 6].

Definition toy_noise (a : Z) (n : nat) : Ring.Poly := toy_poly (a + Z.of_nat n).

Definition toy_world : World := mkWorld toy_heap (toy_noise 7) 0.

(** A stand-in for the automorphism: every row rotated by the Galois
    element. *)
Definition toy_PermuteNTT (p : Ring.Poly) (g : Z) : Ring.Poly :=
  rotate (Z.to_nat g) <$> p.

(** Nine parties, all contributing the same two polynomials. *)
Definition toy_samples : list (list loc) := replicate 9 [4%nat; 5%nat].

(** A run of the three aggregators on the toy instance. *)
Definition toy_calls : list agg_call :=
  [CallColL toy_samples 1 [2; 3]%nat;
   CallColR toy_samples 3 [2; 3]%nat;
   CallRow toy_samples [2; 3]%nat].

(** ** Vocabulary of the frame properties *)

(** What a run from [w] to [w'] leaves alone: the polynomials at the
    locations [keep] and the sampler's stream; the heap grows by [g]
    polynomials and [d] draws are consumed. *)
Definition frame (keep : nat → Prop) (g d : nat) (w w' : World) : Prop :=
  (∀ l, keep l → heap w' !! l = heap w !! l) ∧
  length (heap w') = (length (heap w) + g)%nat ∧
  noise w' = noise w ∧
  drawn w' = (drawn w + d)%nat.

(** A key of [n] pairs of polynomials allocated in heap [h], none of them
    below location [lo]. *)
Definition key_in (n lo : nat) (h : list Ring.Poly) (key : SwitchingKey) : Prop :=
  length key = n ∧
  Forall (λ ba, (lo ≤ ba.1 < length h)%nat ∧ (lo ≤ ba.2 < length h)%nat) key.

(** Every key the accumulator holds has [n] pairs allocated in [h], none
    below [lo]. *)
Definition accumulator_in (n lo : nat) (h : list Ring.Poly) (rkg : RKG) : Prop :=
  (∀ k key, rot_col_L rkg !! k = Some key → key_in n lo h key) ∧
  (∀ k key, rot_col_R rkg !! k = Some key → key_in n lo h key) ∧
  (∀ key, rot_row rkg = Some key → key_in n lo h key).

(** The instance after call [c] has filed the key [r]. *)
Definition aggregate_key (r : SwitchingKey) (rkg : RKG) (c : agg_call) (rkg' : RKG)
    : Prop :=
  match c with
  | CallColL _ k _ => rkg' = set_rot_col_L (<[col_mask rkg k := r]> (rot_col_L rkg)) rkg
  | CallColR _ k _ => rkg' = set_rot_col_R (<[col_mask rkg k := r]> (rot_col_R rkg)) rkg
  | CallRow _ _ => rkg' = set_rot_row (Some r) rkg
  end.

(** The one row beyond the modulus chain that the injection loop reaches:
    row [len(ContextQ.Modulus)], in the last digit, when [Alpha] does not
    divide the length of the chain. *)
Definition past_chain (bc : BfvContext) (i r : nat) : bool :=
  (Z.of_nat r =? Z.of_nat (length (Ring.Modulus (ContextQ bc)))) &&
  (Z.of_nat i =? Beta bc - 1) &&
  negb (Z.of_nat (length (Ring.Modulus (ContextQ bc))) =? Beta bc * Alpha bc).

(** Two aggregation calls file their key in the same slot of the
    accumulator. *)
Definition same_slot (rkg : RKG) (c1 c2 : agg_call) : Prop :=
  match c1, c2 with
  | CallColL _ k1 _, CallColL _ k2 _ => col_mask rkg k1 = col_mask rkg k2
  | CallColR _ k1 _, CallColR _ k2 _ => col_mask rkg k1 = col_mask rkg k2
  | CallRow _ _, CallRow _ _ => True
  | _, _ => False
  end.

(** ** Two more contexts

    The toy primes with ring degree 1, for which the tables are empty, and
    with ring degree 16, for which each table has eight entries. *)

Definition tiny_ctx : BfvContext :=
  mkBfvContext (Ring.mkContext 1 toy_Q) (Ring.mkContext 1 (toy_Q ++ toy_P)) toy_P 2 2.

Definition wide_ctx : BfvContext :=
  mkBfvContext (Ring.mkContext 16 toy_Q) (Ring.mkContext 16 (toy_Q ++ toy_P)) toy_P 2 2.

(** The toy heap with a sampler that draws the same polynomial every
    time. *)
Definition const_world : World := mkWorld toy_heap (λ _, toy_poly 7) 0.

(** A stand-in for the automorphism that is the identity for the element
    1: every row rotated by the element minus one. *)
Definition unit_PermuteNTT (p : Ring.Poly) (g : Z) : Ring.Poly :=
  rotate (Z.to_nat (g - 1)) <$> p.

(** The values of which the polynomials of the toy heap are the Montgomery
    forms. *)
Definition toy_plain (st : list loc) (t r col : nat) : Z :=
  Ring.InvMForm (default 1 (Ring.Modulus (ContextKeys toy_ctx) !! r))
    (coeff (val toy_heap (default 0%nat (st !! t))) r col).

(** ** An instance with 61-bit primes

    One prime in the modulus chain and one auxiliary prime, both just
    below [2^61] and congruent to 1 modulo 8; ring degree 4.  The heap
    holds the scratch buffer at 0, the CRP at 1 and the single-digit
    shares of sixteen parties at 2 to 17, every coefficient being the
    largest residue of its row. *)

Definition wrap_Q : list Z := [2305843009213693921].
Definition wrap_P : list Z := [2305843009213693561].

Definition wrap_ctx : BfvContext :=
  mkBfvContext (Ring.mkContext 4 wrap_Q) (Ring.mkContext 4 (wrap_Q ++ wrap_P)) wrap_P 1 1.

Definition wrap_rkg : RKG := mkRKG wrap_ctx 5 5 7 [1; 5] [1; 5] ∅ ∅ None 0.

Definition wrap_share : Ring.Poly :=
  [replicate 4 2305843009213693920; replicate 4 2305843009213693560].

Definition wrap_heap : list Ring.Poly :=
  Ring.zero_poly (ContextKeys wrap_ctx) :: wrap_share :: replicate 16 wrap_share.

Definition wrap_world : World :=
  mkWorld wrap_heap (λ _, Ring.zero_poly (ContextKeys wrap_ctx)) 0.

Definition wrap_samples : list (list loc) := (λ l, [l]) <$> seq 2 16.

(** * Proofs *)

(** Case analysis on every integer comparison of the goal. *)
Ltac split_comparisons :=
  repeat match goal with
         | |- context [?a <=? ?b] => destruct (Z.leb_spec a b)
         | |- context [?a <? ?b] => destruct (Z.ltb_spec a b)
         | |- context [?a =? ?b] => destruct (Z.eqb_spec a b)
         end;
  cbn [andb orb negb].


(** ** Arithmetic on 64-bit words and masks *)

Lemma pow2_pos (k : Z) : 0 ≤ k → 0 < 2 ^ k.
Proof. intros. apply Z.pow_pos_nonneg; lia. Qed.

Lemma pow2_divide (a b : Z) : 0 ≤ a ≤ b → (2 ^ a | 2 ^ b).
Proof.
  intros H. exists (2 ^ (b - a)).
  rewrite <- Z.pow_add_r by lia. f_equal. lia.
Qed.

Lemma land_pow2_mask (x k : Z) : 0 ≤ k → Z.land x (2 ^ k - 1) = x mod 2 ^ k.
Proof.
  intros Hk. rewrite <- Z.land_ones by lia.
  f_equal. rewrite Z.ones_equiv. lia.
Qed.

Lemma wrap64_mod_pow2 (x k : Z) : 0 ≤ k ≤ 64 → wrap64 x mod 2 ^ k = x mod 2 ^ k.
Proof.
  intros Hk. unfold wrap64.
  apply Z.mod_mod_divide, pow2_divide. lia.
Qed.

Lemma wrap64_small (x : Z) : 0 ≤ x < 2 ^ 64 → wrap64 x = x.
Proof. intros. unfold wrap64. apply Z.mod_small. lia. Qed.

Lemma masked_mul (x g k : Z) :
  0 ≤ k ≤ 64 → Z.land (mul64 x g) (2 ^ k - 1) = (x * g) mod 2 ^ k.
Proof.
  intros Hk. rewrite land_pow2_mask by lia.
  unfold mul64. apply wrap64_mod_pow2. lia.
Qed.

Lemma pow_mod_succ (g m : Z) (t : nat) :
  0 < m → (g ^ Z.of_nat t mod m * g) mod m = g ^ Z.of_nat (S t) mod m.
Proof.
  intros Hm. rewrite Nat2Z.inj_succ, Z.pow_succ_r by lia.
  rewrite Z.mul_mod_idemp_l by lia. f_equal. lia.
Qed.

(** [5^(2^j) = 1 (mod 2^(j+1))], by repeated squaring. *)
Lemma five_pow_pow2 (j : nat) :
  ∃ t, 5 ^ (2 ^ Z.of_nat j) = 1 + 2 ^ (Z.of_nat j + 1) * t.
Proof.
  induction j as [|j [t IH]].
  - exists 2. reflexivity.
  - exists (t + 2 ^ Z.of_nat j * t * t).
    rewrite Nat2Z.inj_succ.
    replace (2 ^ Z.succ (Z.of_nat j)) with (2 ^ Z.of_nat j * 2)
      by (rewrite Z.pow_succ_r by lia; lia).
    rewrite Z.pow_mul_r by (try apply Z.pow_nonneg; lia).
    rewrite IH.
    replace (Z.succ (Z.of_nat j) + 1) with (Z.succ (Z.of_nat j + 1)) by lia.
    rewrite (Z.pow_succ_r 2 (Z.of_nat j + 1)) by lia.
    rewrite (Z.pow_add_r 2 (Z.of_nat j) 1) by lia.
    change (2 ^ 1) with 2. ring.
Qed.

Lemma five_pow_2N (k : Z) : 0 ≤ k → 5 ^ (2 * 2 ^ k) mod (2 * 2 ^ k) = 1.
Proof.
  intros Hk.
  destruct (five_pow_pow2 (Z.to_nat (k + 1))) as [t Ht].
  rewrite Z2Nat.id in Ht by lia.
  replace (2 * 2 ^ k) with (2 ^ (k + 1)) by (rewrite Z.pow_add_r by lia; lia).
  rewrite Ht.
  replace (2 ^ (k + 1 + 1) * t) with ((2 * t) * 2 ^ (k + 1))
    by (rewrite (Z.pow_add_r 2 (k + 1) 1) by lia; change (2 ^ 1) with 2; ring).
  rewrite Z.mod_add by (pose proof (pow2_pos (k + 1)); lia).
  apply Z.mod_small.
  assert (2 ^ 1 ≤ 2 ^ (k + 1)) by (apply Z.pow_le_mono_r; lia).
  change (2 ^ 1) with 2 in *. lia.
Qed.

(** ** The Galois tables built by [NewRKG] *)

Lemma idx_Some {A : Type} (l : list A) (i : nat) (x : A) :
  l !! i = Some x → idx l i = Ok x.
Proof. intros H. unfold idx. by rewrite H. Qed.

Lemma idx_None {A : Type} (l : list A) (i : nat) :
  (length l ≤ i)%nat → idx l i = Panic (IndexOutOfRange i (length l)).
Proof. intros H. unfold idx. by rewrite lookup_ge_None_2. Qed.

Lemma set_idx_lt {A : Type} (l : list A) (i : nat) (x : A) :
  (i < length l)%nat → set_idx l i x = Ok (<[i := x]> l).
Proof. intros H. unfold set_idx. by rewrite decide_True. Qed.

Lemma fill_tables_spec (m g gInv mask : Z) (n : nat) :
  0 < m →
  (∀ x y, Z.land (mul64 x y) mask = (x * y) mod m) →
  ∀ (fuel i : nat) (left right : list Z),
    (1 ≤ i)%nat → (i + fuel = n)%nat →
    length left = n → length right = n →
    (∀ t, (t < i)%nat → left !! t = Some (g ^ Z.of_nat t mod m)) →
    (∀ t, (t < i)%nat → right !! t = Some (gInv ^ Z.of_nat t mod m)) →
    ∃ left' right',
      fill_tables fuel i g gInv mask left right = Ok (left', right') ∧
      length left' = n ∧ length right' = n ∧
      (∀ t, (t < n)%nat → left' !! t = Some (g ^ Z.of_nat t mod m)) ∧
      (∀ t, (t < n)%nat → right' !! t = Some (gInv ^ Z.of_nat t mod m)).
Proof.
  intros Hm Hmask fuel.
  induction fuel as [|fuel IH]; intros i left right Hi Hn Hl Hr HL HR.
  - exists left, right. simpl.
    replace i with n in * by lia. auto.
  - simpl.
    rewrite (idx_Some left (i - 1) _ (HL (i - 1)%nat ltac:(lia))).
    rewrite set_idx_lt by lia.
    rewrite (idx_Some right (i - 1) _ (HR (i - 1)%nat ltac:(lia))).
    rewrite set_idx_lt by lia.
    rewrite !Hmask, !pow_mod_succ by lia.
    replace (S (i - 1)) with i by lia.
    apply IH; rewrite ?length_insert; try lia.
    + intros t Ht. destruct (decide (t = i)) as [->|Hne].
      * rewrite list_lookup_insert_eq by lia. done.
      * rewrite list_lookup_insert_ne by lia. apply HL. lia.
    + intros t Ht. destruct (decide (t = i)) as [->|Hne].
      * rewrite list_lookup_insert_eq by lia. done.
      * rewrite list_lookup_insert_ne by lia. apply HR. lia.
Qed.

Lemma shl64_pow2 (k : Z) : 0 ≤ k ≤ 62 → shl64 (2 ^ k) 1 = 2 * 2 ^ k.
Proof.
  intros Hk. unfold shl64. rewrite Z.shiftl_mul_pow2 by lia.
  change (2 ^ 1) with 2. rewrite wrap64_small; [lia|].
  assert (2 ^ k ≤ 2 ^ 62) by (apply Z.pow_le_mono_r; lia).
  pose proof (pow2_pos k). lia.
Qed.

Lemma shr64_pow2 (k : Z) : 1 ≤ k → shr64 (2 ^ k) 1 = 2 ^ (k - 1).
Proof.
  intros Hk. unfold shr64. rewrite Z.shiftr_div_pow2 by lia.
  change (2 ^ 1) with 2.
  replace (2 ^ k) with (2 ^ (k - 1) * 2)
    by (rewrite Z.mul_comm, <- (Z.pow_succ_r 2 (k - 1)) by lia; f_equal; lia).
  apply Z.div_mul. lia.
Qed.

Lemma mask_2N (k : Z) : 0 ≤ k ≤ 62 → sub64 (2 * 2 ^ k) 1 = 2 ^ (k + 1) - 1.
Proof.
  intros Hk. unfold sub64.
  replace (2 * 2 ^ k) with (2 ^ (k + 1)) by (rewrite Z.pow_add_r by lia; lia).
  apply wrap64_small.
  assert (2 ^ (k + 1) ≤ 2 ^ 63) by (apply Z.pow_le_mono_r; lia).
  pose proof (pow2_pos (k + 1)). lia.
Qed.

(** C4. For a ring degree [N = 2^k] construction succeeds, the generator is
    5, [genInv = 5^(2N-1) mod 2N] is the inverse of 5 modulo [2N], and for
    every [i < N/2] the tables hold [ColLeft[i] = 5^i mod 2N] and
    [ColRight[i] = genInv^i mod 2N], whose product is 1 modulo [2N]; the
    mask [2N-1] applied to a 64-bit product is the reduction modulo [2N]. *)
Theorem NewRKG_galois_tables (ctx : BfvContext) (w : World) (k : Z) :
  1 ≤ k ≤ 62 →
  bfv_N ctx = 2 ^ k →
  let n := bfv_N ctx in
  ∃ rkg w',
    NewRKG ctx w = Ok (rkg, w') ∧
    gen rkg = 5 ∧
    genInv rkg = 5 ^ (2 * n - 1) mod (2 * n) ∧
    (gen rkg * genInv rkg) mod (2 * n) = 1 ∧
    galElRotRow rkg = 2 * n - 1 ∧
    length (galElRotColLeft rkg) = Z.to_nat (n / 2) ∧
    length (galElRotColRight rkg) = Z.to_nat (n / 2) ∧
    (∀ x y, Z.land (mul64 x y) (sub64 (shl64 n 1) 1) = (x * y) mod (2 * n)) ∧
    ∀ i : nat, Z.of_nat i < n / 2 →
      ∃ l r,
        galElRotColLeft rkg !! i = Some l ∧
        galElRotColRight rkg !! i = Some r ∧
        l = gen rkg ^ Z.of_nat i mod (2 * n) ∧
        r = genInv rkg ^ Z.of_nat i mod (2 * n) ∧
        (l * r) mod (2 * n) = 1.
Proof.
  intros Hk HN n. subst n. rewrite HN.
  assert (Hpos : 0 < 2 ^ k) by (apply pow2_pos; lia).
  assert (Hhalf : 2 ^ k / 2 = 2 ^ (k - 1)).
  { rewrite <- (shr64_pow2 k) by lia. unfold shr64.
    rewrite Z.shiftr_div_pow2 by lia. reflexivity. }
  assert (Hhpos : 0 < 2 ^ (k - 1)) by (apply pow2_pos; lia).
  assert (Hm : 2 * 2 ^ k = 2 ^ (k + 1)) by (rewrite Z.pow_add_r by lia; lia).
  assert (Hmask : ∀ x y, Z.land (mul64 x y) (sub64 (shl64 (2 ^ k) 1) 1)
                         = (x * y) mod (2 * 2 ^ k)).
  { intros x y. rewrite shl64_pow2, mask_2N by lia. rewrite Hm.
    apply masked_mul. lia. }
  set (gInv := 5 ^ (2 * 2 ^ k - 1) mod (2 * 2 ^ k)).
  assert (Hinv : (5 * gInv) mod (2 * 2 ^ k) = 1).
  { unfold gInv. rewrite Z.mul_mod_idemp_r by lia.
    rewrite <- Z.pow_succ_r by lia.
    replace (Z.succ (2 * 2 ^ k - 1)) with (2 * 2 ^ k) by lia.
    apply five_pow_2N. lia. }
  set (n := Z.to_nat (2 ^ (k - 1))).
  assert (Hn : (1 ≤ n)%nat) by (unfold n; lia).
  destruct (fill_tables_spec (2 * 2 ^ k) 5 gInv (sub64 (shl64 (2 ^ k) 1) 1) n
              ltac:(lia) Hmask (n - 1) 1
              (<[0%nat := 1]> (replicate n 0)) (<[0%nat := 1]> (replicate n 0)))
    as (left' & right' & Hfill & Hl & Hr & HL & HR).
  { lia. }
  { lia. }
  { by rewrite length_insert, length_replicate. }
  { by rewrite length_insert, length_replicate. }
  { intros t Ht. replace t with 0%nat by lia.
    rewrite list_lookup_insert_eq by (rewrite length_replicate; lia).
    simpl. rewrite Z.mod_1_l by lia. done. }
  { intros t Ht. replace t with 0%nat by lia.
    rewrite list_lookup_insert_eq by (rewrite length_replicate; lia).
    simpl. rewrite Z.mod_1_l by lia. done. }
  eexists _, _. split.
  { unfold NewRKG, NewPoly, alloc, bind, lift, ret, bfv_N. simpl.
    fold (bfv_N ctx). rewrite HN, shr64_pow2 by lia. fold n.
    rewrite !set_idx_lt by (rewrite length_replicate; lia).
    unfold Ring.ModExp. rewrite shl64_pow2, mask_2N by lia.
    rewrite <- Hm. fold gInv.
    rewrite shl64_pow2, mask_2N, <- Hm in Hfill by lia.
    rewrite Hfill. reflexivity. }
  simpl. rewrite Hhalf. fold n.
  split; [done|]. split; [done|]. split; [done|].
  split; [by rewrite Hm|].
  split; [done|]. split; [done|]. split; [exact Hmask|].
  intros i Hi.
  assert (Hin : (i < n)%nat) by (unfold n; lia).
  exists (5 ^ Z.of_nat i mod (2 * 2 ^ k)), (gInv ^ Z.of_nat i mod (2 * 2 ^ k)).
  split; [by apply HL|]. split; [by apply HR|].
  split; [done|]. split; [done|].
  rewrite <- Z.mul_mod by lia.
  rewrite <- Z.pow_mul_l.
  rewrite Zpower_mod by lia. rewrite Hinv.
  rewrite Z.pow_1_l by lia. apply Z.mod_1_l. lia.
Qed.

(** ** Rotation amounts are read modulo [N/2] *)

Lemma half_mask (n j : Z) :
  1 ≤ j ≤ 63 → n = 2 ^ j →
  shr64 n 1 = 2 ^ (j - 1) ∧ sub64 (shr64 n 1) 1 = 2 ^ (j - 1) - 1 ∧ n / 2 = 2 ^ (j - 1).
Proof.
  intros Hj ->. rewrite shr64_pow2 by lia.
  assert (0 < 2 ^ (j - 1)) by (apply pow2_pos; lia).
  assert (2 ^ (j - 1) ≤ 2 ^ 62) by (apply Z.pow_le_mono_r; lia).
  split; [done|]. split.
  - unfold sub64. apply wrap64_small. lia.
  - rewrite <- (shr64_pow2 j) by lia. unfold shr64.
    by rewrite Z.shiftr_div_pow2 by lia.
Qed.

Lemma mask_is_mod (n j k : Z) :
  1 ≤ j ≤ 63 → n = 2 ^ j →
  Z.land k (sub64 (shr64 n 1) 1) = k mod (n / 2).
Proof.
  intros Hj Hn. destruct (half_mask n j Hj Hn) as (_ & -> & ->).
  apply land_pow2_mask. lia.
Qed.

Lemma mask_add_half (n j k : Z) :
  1 ≤ j ≤ 63 → n = 2 ^ j →
  Z.land (add64 k (n / 2)) (sub64 (shr64 n 1) 1) = Z.land k (sub64 (shr64 n 1) 1).
Proof.
  intros Hj Hn. rewrite !(mask_is_mod n j) by done.
  destruct (half_mask n j Hj Hn) as (_ & _ & ->).
  unfold add64. rewrite wrap64_mod_pow2 by lia.
  rewrite <- (Z.mul_1_l (2 ^ (j - 1))) at 1.
  apply Z.mod_add. pose proof (pow2_pos (j - 1)). lia.
Qed.

(** ** Finalization *)

Lemma drain_left (m r : gmap Z SwitchingKey) (row : option SwitchingKey) :
  drain SetRotColLeft m (mkRotationKeys ∅ r row) = (mkRotationKeys m r row, ∅).
Proof.
  unfold drain.
  enough (H : ∀ m0, m0 ⊆ m →
    map_fold (λ k (_ : SwitchingKey) acc,
        (SetRotColLeft (default [] (acc.2 !! k)) k acc.1, delete k acc.2))
      (mkRotationKeys ∅ r row, m) m0 = (mkRotationKeys m0 r row, m ∖ m0)).
  { rewrite H by done. by rewrite map_difference_diag. }
  intros m0.
  apply (map_fold_weak_ind (λ acc m0, m0 ⊆ m → acc = (mkRotationKeys m0 r row, m ∖ m0))).
  - intros _. by rewrite map_difference_empty.
  - clear m0. intros i x m0 acc Hi IH Hsub.
    assert (Hmi : m !! i = Some x).
    { eapply lookup_weaken; [|exact Hsub]. apply lookup_insert_eq. }
    rewrite IH by (etrans; [apply insert_subseteq; done|done]).
    simpl. unfold SetRotColLeft. simpl.
    match goal with
    | |- context [default [] ?o] =>
        assert (o = Some x) as -> by (apply lookup_difference_Some; done)
    end.
    simpl. f_equal.
    apply map_eq. intros k. destruct (decide (k = i)) as [->|Hne].
    + rewrite lookup_delete_eq. symmetry. apply lookup_difference_None.
      right. rewrite lookup_insert_eq. eauto.
    + rewrite lookup_delete_ne by done.
      rewrite !lookup_difference, lookup_insert_ne by done. done.
Qed.

Lemma drain_right (l m : gmap Z SwitchingKey) (row : option SwitchingKey) :
  drain SetRotColRight m (mkRotationKeys l ∅ row) = (mkRotationKeys l m row, ∅).
Proof.
  unfold drain.
  enough (H : ∀ m0, m0 ⊆ m →
    map_fold (λ k (_ : SwitchingKey) acc,
        (SetRotColRight (default [] (acc.2 !! k)) k acc.1, delete k acc.2))
      (mkRotationKeys l ∅ row, m) m0 = (mkRotationKeys l m0 row, m ∖ m0)).
  { rewrite H by done. by rewrite map_difference_diag. }
  intros m0.
  apply (map_fold_weak_ind (λ acc m0, m0 ⊆ m → acc = (mkRotationKeys l m0 row, m ∖ m0))).
  - intros _. by rewrite map_difference_empty.
  - clear m0. intros i x m0 acc Hi IH Hsub.
    assert (Hmi : m !! i = Some x).
    { eapply lookup_weaken; [|exact Hsub]. apply lookup_insert_eq. }
    rewrite IH by (etrans; [apply insert_subseteq; done|done]).
    simpl. unfold SetRotColRight. simpl.
    match goal with
    | |- context [default [] ?o] =>
        assert (o = Some x) as -> by (apply lookup_difference_Some; done)
    end.
    simpl. f_equal.
    apply map_eq. intros k. destruct (decide (k = i)) as [->|Hne].
    + rewrite lookup_delete_eq. symmetry. apply lookup_difference_None.
      right. rewrite lookup_insert_eq. eauto.
    + rewrite lookup_delete_ne by done.
      rewrite !lookup_difference, lookup_insert_ne by done. done.
Qed.

Lemma Finalize_spec (rkg : RKG) :
  Finalize rkg =
    (mkRotationKeys (rot_col_L rkg) (rot_col_R rkg) (rot_row rkg),
     set_rot_row None (set_rot_col_R ∅ (set_rot_col_L ∅ rkg))).
Proof.
  unfold Finalize, NewRotationKeysEmpty.
  rewrite drain_left. simpl. rewrite drain_right. simpl.
  destruct rkg as [c g gi row cl cr l r [rr|] pool]; reflexivity.
Qed.

Lemma Finalize_drained (rkg : RKG) : drained (Finalize rkg).2.
Proof. rewrite Finalize_spec. done. Qed.

Lemma Finalize_twice (rkg : RKG) :
  drained rkg → Finalize rkg = (NewRotationKeysEmpty, rkg).
Proof.
  intros (HL & HR & Hrow). rewrite Finalize_spec.
  destruct rkg; simpl in *; subst. reflexivity.
Qed.

Lemma bind_Ok {A B : Type} (m : M A) (f : A → M B) (w : World) (b : B) (w' : World) :
  bind m f w = Ok (b, w') →
  ∃ a w1, m w = Ok (a, w1) ∧ f a w1 = Ok (b, w').
Proof.
  unfold bind. destruct (m w) as [[a w1]|e]; [eauto|discriminate].
Qed.

Lemma run_call_acc (rkg : RKG) (c : agg_call) (w : World) (rkg' : RKG) (w' : World) :
  run_call rkg c w = Ok (rkg', w') →
  bfvContext rkg' = bfvContext rkg ∧
  (∀ k, is_Some (rot_col_L rkg' !! k) ↔
        is_Some (rot_col_L rkg !! k) ∨
        ∃ s k' cr, c = CallColL s k' cr ∧ col_mask rkg k' = k) ∧
  (∀ k, is_Some (rot_col_R rkg' !! k) ↔
        is_Some (rot_col_R rkg !! k) ∨
        ∃ s k' cr, c = CallColR s k' cr ∧ col_mask rkg k' = k) ∧
  (is_Some (rot_row rkg') ↔
        is_Some (rot_row rkg) ∨ ∃ s cr, c = CallRow s cr).
Proof.
  destruct c as [s k cr|s k cr|s cr]; simpl;
    unfold AggregateRotColL, AggregateRotColR, AggregateRotRow;
    intros (r & w1 & _ & Hret)%bind_Ok; unfold ret in Hret;
    injection Hret as <- <-; simpl.
  - fold (col_mask rkg k). split; [done|]. split; [|split].
    + intros k0. rewrite lookup_insert_is_Some. split.
      * intros [<-|[_ H]]; [right; eauto|by left].
      * intros [H|(? & ? & ? & [= <- <- <-] & <-)].
        -- destruct (decide (col_mask rkg k = k0)); [by left|right; done].
        -- by left.
    + intros k0. split; [by left|]. intros [H|(? & ? & ? & [=] & _)]; done.
    + split; [by left|]. intros [H|(? & ? & [=])]; done.
  - fold (col_mask rkg k). split; [done|]. split; [|split].
    + intros k0. split; [by left|]. intros [H|(? & ? & ? & [=] & _)]; done.
    + intros k0. rewrite lookup_insert_is_Some. split.
      * intros [<-|[_ H]]; [right; eauto|by left].
      * intros [H|(? & ? & ? & [= <- <- <-] & <-)].
        -- destruct (decide (col_mask rkg k = k0)); [by left|right; done].
        -- by left.
    + split; [by left|]. intros [H|(? & ? & [=])]; done.
  - split; [done|]. split; [|split].
    + intros k0. split; [by left|]. intros [H|(? & ? & ? & [=] & _)]; done.
    + intros k0. split; [by left|]. intros [H|(? & ? & ? & [=] & _)]; done.
    + split; [right; eauto|]. intros _. eauto.
Qed.

Lemma run_calls_acc (calls : list agg_call) :
  ∀ (rkg : RKG) (w : World) (rkg' : RKG) (w' : World),
  run_calls calls rkg w = Ok (rkg', w') →
  bfvContext rkg' = bfvContext rkg ∧
  (∀ k, is_Some (rot_col_L rkg' !! k) ↔
        is_Some (rot_col_L rkg !! k) ∨
        ∃ s k' cr, CallColL s k' cr ∈ calls ∧ col_mask rkg k' = k) ∧
  (∀ k, is_Some (rot_col_R rkg' !! k) ↔
        is_Some (rot_col_R rkg !! k) ∨
        ∃ s k' cr, CallColR s k' cr ∈ calls ∧ col_mask rkg k' = k) ∧
  (is_Some (rot_row rkg') ↔
        is_Some (rot_row rkg) ∨ ∃ s cr, CallRow s cr ∈ calls).
Proof.
  induction calls as [|c calls IH]; intros rkg w rkg' w' Hrun.
  - simpl in Hrun. unfold ret in Hrun. injection Hrun as <- <-.
    split; [done|]. split; [|split].
    + intros k. split; [by left|].
      intros [H|(? & ? & ? & H%elem_of_nil & _)]; done.
    + intros k. split; [by left|].
      intros [H|(? & ? & ? & H%elem_of_nil & _)]; done.
    + split; [by left|]. intros [H|(? & ? & H%elem_of_nil)]; done.
  - simpl in Hrun. apply bind_Ok in Hrun as (rkg1 & w1 & Hc & Hrun).
    apply run_call_acc in Hc as (Hctx1 & HL1 & HR1 & Hrow1).
    apply IH in Hrun as (Hctx & HL & HR & Hrow).
    assert (Hmask : ∀ k, col_mask rkg1 k = col_mask rkg k).
    { intros k. unfold col_mask. by rewrite Hctx1. }
    split; [congruence|]. split; [|split].
    + intros k. rewrite HL, HL1. setoid_rewrite Hmask.
      setoid_rewrite elem_of_cons. split.
      * intros [[H|(s & k' & cr & -> & Hm)]|(s & k' & cr & Hin & Hm)];
          [by left|right; eauto 10..].
      * intros [H|(s & k' & cr & [<-|Hin] & Hm)];
          [left; by left|left; right; eauto|right; eauto].
    + intros k. rewrite HR, HR1. setoid_rewrite Hmask.
      setoid_rewrite elem_of_cons. split.
      * intros [[H|(s & k' & cr & -> & Hm)]|(s & k' & cr & Hin & Hm)];
          [by left|right; eauto 10..].
      * intros [H|(s & k' & cr & [<-|Hin] & Hm)];
          [left; by left|left; right; eauto|right; eauto].
    + rewrite Hrow, Hrow1. setoid_rewrite elem_of_cons. split.
      * intros [[H|(s & cr & ->)]|(s & cr & Hin)];
          [by left|right; eauto 10..].
      * intros [H|(s & cr & [<-|Hin])];
          [left; by left|left; right; eauto|right; eauto].
Qed.

(** C6. Starting from a drained accumulator (as left by construction or by
    the previous [Finalize]), after any sequence of aggregation calls
    [Finalize] returns exactly the accumulated keys: a column-left entry
    for [k] iff some column-left aggregation was filed under [k], likewise
    for column-right, and the row key iff a row aggregation occurred.  The
    accumulator is then drained, and a second [Finalize] returns the empty
    key set. *)
Theorem Finalize_returns_accumulated (rkg0 : RKG) (calls : list agg_call)
    (w : World) (rkg1 : RKG) (w1 : World) :
  drained rkg0 →
  run_calls calls rkg0 w = Ok (rkg1, w1) →
  ∃ keys rkg2,
    Finalize rkg1 = (keys, rkg2) ∧
    evakey_rot_col_L keys = rot_col_L rkg1 ∧
    evakey_rot_col_R keys = rot_col_R rkg1 ∧
    evakey_rot_row keys = rot_row rkg1 ∧
    (∀ k, is_Some (evakey_rot_col_L keys !! k) ↔
          ∃ s k' cr, CallColL s k' cr ∈ calls ∧ col_mask rkg0 k' = k) ∧
    (∀ k, is_Some (evakey_rot_col_R keys !! k) ↔
          ∃ s k' cr, CallColR s k' cr ∈ calls ∧ col_mask rkg0 k' = k) ∧
    (is_Some (evakey_rot_row keys) ↔ ∃ s cr, CallRow s cr ∈ calls) ∧
    drained rkg2 ∧
    Finalize rkg2 = (NewRotationKeysEmpty, rkg2).
Proof.
  intros (HL0 & HR0 & Hrow0) Hrun.
  apply run_calls_acc in Hrun as (_ & HL & HR & Hrow).
  eexists _, _. split; [apply Finalize_spec|]. simpl.
  split; [done|]. split; [done|]. split; [done|].
  split; [|split; [|split; [|split]]].
  - intros k. rewrite HL, HL0, lookup_empty.
    split; [intros [[? [=]]|H]; done|by right].
  - intros k. rewrite HR, HR0, lookup_empty.
    split; [intros [[? [=]]|H]; done|by right].
  - rewrite Hrow, Hrow0. split; [intros [[? [=]]|H]; done|by right].
  - done.
  - apply Finalize_twice. done.
Qed.

(** ** Polynomials: shape, coefficients, extensionality *)

Lemma shape_lookup (rows cols : nat) (p : Ring.Poly) (r : nat) :
  shape rows cols p → (r < rows)%nat →
  ∃ row, p !! r = Some row ∧ length row = cols.
Proof.
  intros [Hlen Hall] Hr.
  destruct (lookup_lt_is_Some_2 p r ltac:(lia)) as [row Hrow].
  exists row. split; [done|].
  by apply (Forall_lookup_1 _ _ _ _ Hall Hrow).
Qed.

Lemma coeff_lookup (p : Ring.Poly) (r col : nat) (row : list Z) (x : Z) :
  p !! r = Some row → row !! col = Some x → coeff p r col = x.
Proof. intros Hr Hc. unfold coeff. by rewrite Hr, Hc. Qed.

Lemma shape_coeff (rows cols : nat) (p : Ring.Poly) (r col : nat) :
  shape rows cols p → (r < rows)%nat → (col < cols)%nat →
  ∃ row, p !! r = Some row ∧ length row = cols ∧ row !! col = Some (coeff p r col).
Proof.
  intros Hs Hr Hc.
  destruct (shape_lookup _ _ _ _ Hs Hr) as (row & Hrow & Hlen).
  destruct (lookup_lt_is_Some_2 row col ltac:(lia)) as [x Hx].
  exists row. by rewrite (coeff_lookup _ _ _ _ _ Hrow Hx).
Qed.

Lemma poly_ext (rows cols : nat) (p1 p2 : Ring.Poly) :
  shape rows cols p1 → shape rows cols p2 →
  (∀ r col, (r < rows)%nat → (col < cols)%nat → coeff p1 r col = coeff p2 r col) →
  p1 = p2.
Proof.
  intros H1 H2 Heq. apply list_eq. intros r.
  destruct (decide (r < rows)%nat) as [Hr|Hr].
  - destruct (shape_lookup _ _ _ _ H1 Hr) as (row1 & Hr1 & Hl1).
    destruct (shape_lookup _ _ _ _ H2 Hr) as (row2 & Hr2 & Hl2).
    rewrite Hr1, Hr2. f_equal. apply list_eq. intros col.
    destruct (decide (col < cols)%nat) as [Hc|Hc].
    + destruct (lookup_lt_is_Some_2 row1 col ltac:(lia)) as [x1 Hx1].
      destruct (lookup_lt_is_Some_2 row2 col ltac:(lia)) as [x2 Hx2].
      rewrite Hx1, Hx2. f_equal.
      rewrite <- (coeff_lookup _ _ _ _ _ Hr1 Hx1), <- (coeff_lookup _ _ _ _ _ Hr2 Hx2).
      by apply Heq.
    + rewrite !lookup_ge_None_2 by lia. done.
  - destruct H1 as [Hl1 _], H2 as [Hl2 _].
    rewrite !lookup_ge_None_2 by lia. done.
Qed.

Lemma shape_map_rows (f : Z → Z → Z) (qs : list Z) (p : Ring.Poly) (cols : nat) :
  shape (length qs) cols p → shape (length qs) cols (Ring.map_rows f qs p).
Proof.
  intros [Hlen Hall]. unfold Ring.map_rows. split.
  - rewrite length_zip_with. lia.
  - apply Forall_lookup_2. intros r row Hrow.
    apply lookup_zip_with_Some in Hrow as (q & row0 & -> & Hq & Hrow0).
    rewrite length_fmap. by apply (Forall_lookup_1 _ _ _ _ Hall Hrow0).
Qed.

Lemma coeff_map_rows (f : Z → Z → Z) (qs : list Z) (p : Ring.Poly) (cols : nat)
    (r col : nat) (q : Z) :
  shape (length qs) cols p → qs !! r = Some q → (col < cols)%nat →
  coeff (Ring.map_rows f qs p) r col = f q (coeff p r col).
Proof.
  intros Hs Hq Hc.
  pose proof (lookup_lt_Some _ _ _ Hq) as Hr.
  destruct (shape_coeff _ _ _ _ _ Hs Hr Hc) as (row & Hrow & Hlen & Hx).
  apply (coeff_lookup _ _ _ (f q <$> row)).
  - unfold Ring.map_rows. rewrite lookup_zip_with, Hq, Hrow. done.
  - rewrite list_lookup_fmap, Hx. done.
Qed.

Lemma shape_map_rows2 (f : Z → Z → Z → Z) (qs : list Z) (p1 p2 : Ring.Poly)
    (cols : nat) :
  shape (length qs) cols p1 → shape (length qs) cols p2 →
  shape (length qs) cols (Ring.map_rows2 f qs p1 p2).
Proof.
  intros [Hlen1 Hall1] [Hlen2 Hall2]. unfold Ring.map_rows2. split.
  - rewrite length_zip_with, length_zip. lia.
  - apply Forall_lookup_2. intros r row Hrow.
    apply lookup_zip_with_Some in Hrow as (q & [row1 row2] & -> & Hq & Hrr).
    apply lookup_zip_with_Some in Hrr as (? & ? & [= <- <-] & Hr1 & Hr2).
    simpl. rewrite length_zip_with.
    rewrite (Forall_lookup_1 _ _ _ _ Hall1 Hr1), (Forall_lookup_1 _ _ _ _ Hall2 Hr2).
    lia.
Qed.

Lemma coeff_map_rows2 (f : Z → Z → Z → Z) (qs : list Z) (p1 p2 : Ring.Poly)
    (cols : nat) (r col : nat) (q : Z) :
  shape (length qs) cols p1 → shape (length qs) cols p2 →
  qs !! r = Some q → (col < cols)%nat →
  coeff (Ring.map_rows2 f qs p1 p2) r col = f q (coeff p1 r col) (coeff p2 r col).
Proof.
  intros Hs1 Hs2 Hq Hc.
  pose proof (lookup_lt_Some _ _ _ Hq) as Hr.
  destruct (shape_coeff _ _ _ _ _ Hs1 Hr Hc) as (row1 & Hrow1 & Hlen1 & Hx1).
  destruct (shape_coeff _ _ _ _ _ Hs2 Hr Hc) as (row2 & Hrow2 & Hlen2 & Hx2).
  apply (coeff_lookup _ _ _ (zip_with (f q) row1 row2)).
  - unfold Ring.map_rows2.
    rewrite lookup_zip_with, Hq. simpl.
    rewrite lookup_zip_with, Hrow1, Hrow2. done.
  - rewrite lookup_zip_with, Hx1, Hx2. done.
Qed.

Lemma shape_map_rows3 (f : Z → Z → Z → Z → Z) (qs : list Z) (p1 p2 p3 : Ring.Poly)
    (cols : nat) :
  shape (length qs) cols p1 → shape (length qs) cols p2 →
  shape (length qs) cols p3 →
  shape (length qs) cols (Ring.map_rows3 f qs p1 p2 p3).
Proof.
  intros [Hlen1 Hall1] [Hlen2 Hall2] [Hlen3 Hall3]. unfold Ring.map_rows3. split.
  - rewrite length_zip_with, !length_zip. lia.
  - apply Forall_lookup_2. intros r row Hrow.
    apply lookup_zip_with_Some in Hrow as (q & [row1 [row2 row3]] & -> & Hq & Hrr).
    apply lookup_zip_with_Some in Hrr as (? & ? & [= <- <-] & Hr1 & Hrr).
    apply lookup_zip_with_Some in Hrr as (? & ? & [= <- <-] & Hr2 & Hr3).
    simpl. rewrite length_zip_with, length_zip.
    rewrite (Forall_lookup_1 _ _ _ _ Hall1 Hr1), (Forall_lookup_1 _ _ _ _ Hall2 Hr2),
      (Forall_lookup_1 _ _ _ _ Hall3 Hr3).
    lia.
Qed.

Lemma coeff_map_rows3 (f : Z → Z → Z → Z → Z) (qs : list Z) (p1 p2 p3 : Ring.Poly)
    (cols : nat) (r col : nat) (q : Z) :
  shape (length qs) cols p1 → shape (length qs) cols p2 →
  shape (length qs) cols p3 →
  qs !! r = Some q → (col < cols)%nat →
  coeff (Ring.map_rows3 f qs p1 p2 p3) r col
    = f q (coeff p1 r col) (coeff p2 r col) (coeff p3 r col).
Proof.
  intros Hs1 Hs2 Hs3 Hq Hc.
  pose proof (lookup_lt_Some _ _ _ Hq) as Hr.
  destruct (shape_coeff _ _ _ _ _ Hs1 Hr Hc) as (row1 & Hrow1 & Hlen1 & Hx1).
  destruct (shape_coeff _ _ _ _ _ Hs2 Hr Hc) as (row2 & Hrow2 & Hlen2 & Hx2).
  destruct (shape_coeff _ _ _ _ _ Hs3 Hr Hc) as (row3 & Hrow3 & Hlen3 & Hx3).
  apply (coeff_lookup _ _ _
           (zip_with (λ x yz, f q x yz.1 yz.2) row1 (zip row2 row3))).
  - unfold Ring.map_rows3.
    rewrite lookup_zip_with, Hq. simpl.
    rewrite lookup_zip_with, Hrow1. simpl.
    rewrite lookup_zip_with, Hrow2, Hrow3. done.
  - rewrite lookup_zip_with, Hx1. simpl.
    rewrite lookup_zip_with, Hx2, Hx3. done.
Qed.

(** ** Running heap operations *)

Lemma bind_run {A B : Type} (m : M A) (f : A → M B) (w : World) (a : A) (w1 : World) :
  m w = Ok (a, w1) → bind m f w = f a w1.
Proof. intros H. unfold bind. by rewrite H. Qed.

Lemma bind_panic {A B : Type} (m : M A) (f : A → M B) (w : World) (e : panic) :
  m w = Panic e → bind m f w = Panic e.
Proof. intros H. unfold bind. by rewrite H. Qed.

Lemma lift_idx_run {A : Type} (l : list A) (i : nat) (x : A) (w : World) :
  l !! i = Some x → lift (idx l i) w = Ok (x, w).
Proof. intros H. unfold lift. by rewrite (idx_Some _ _ _ H). Qed.

Lemma lift_idx_panic {A : Type} (l : list A) (i : nat) (w : World) :
  (length l ≤ i)%nat →
  lift (idx l i) w = Panic (IndexOutOfRange i (length l)).
Proof. intros H. unfold lift. by rewrite idx_None. Qed.

Lemma load_run (l : loc) (p : Ring.Poly) (w : World) :
  heap w !! l = Some p → load l w = Ok (p, w).
Proof. intros H. unfold load. by rewrite H. Qed.

Lemma store_run (l : loc) (p : Ring.Poly) (w : World) :
  (l < length (heap w))%nat →
  store l p w = Ok (tt, mkWorld (<[l := p]> (heap w)) (noise w) (drawn w)).
Proof. intros H. unfold store. by rewrite decide_True. Qed.

Lemma CopyNew_run (l : loc) (p : Ring.Poly) (w : World) :
  heap w !! l = Some p →
  CopyNew l w = Ok (length (heap w), mkWorld (heap w ++ [p]) (noise w) (drawn w)).
Proof. intros H. unfold CopyNew. by rewrite (bind_run _ _ _ _ _ (load_run _ _ _ H)). Qed.

Lemma unary_run (f : Ring.Poly → Ring.Poly) (p1 p2 : loc) (v : Ring.Poly) (w : World) :
  heap w !! p1 = Some v → (p2 < length (heap w))%nat →
  (do x <- load p1 ;; store p2 (f x)) w
    = Ok (tt, mkWorld (<[p2 := f v]> (heap w)) (noise w) (drawn w)).
Proof.
  intros H1 H2. rewrite (bind_run _ _ _ _ _ (load_run _ _ _ H1)).
  by apply store_run.
Qed.

Lemma binary_run (f : Ring.Poly → Ring.Poly → Ring.Poly) (p1 p2 p3 : loc)
    (v1 v2 : Ring.Poly) (w : World) :
  heap w !! p1 = Some v1 → heap w !! p2 = Some v2 → (p3 < length (heap w))%nat →
  (do x <- load p1 ;; do y <- load p2 ;; store p3 (f x y)) w
    = Ok (tt, mkWorld (<[p3 := f v1 v2]> (heap w)) (noise w) (drawn w)).
Proof.
  intros H1 H2 H3. rewrite (bind_run _ _ _ _ _ (load_run _ _ _ H1)).
  rewrite (bind_run _ _ _ _ _ (load_run _ _ _ H2)).
  by apply store_run.
Qed.

Lemma lookup_snoc2_0 {A : Type} (h : list A) (x y : A) :
  (h ++ [x; y]) !! length h = Some x.
Proof. by rewrite list_lookup_middle. Qed.

Lemma lookup_snoc2_1 {A : Type} (h : list A) (x y : A) :
  (h ++ [x; y]) !! S (length h) = Some y.
Proof.
  rewrite lookup_app_r by lia. replace (S (length h) - length h)%nat with 1%nat by lia.
  done.
Qed.

Lemma insert_snoc2_0 {A : Type} (h : list A) (x y z : A) :
  <[length h := z]> (h ++ [x; y]) = h ++ [z; y].
Proof.
  rewrite insert_app_r_alt by lia. by rewrite Nat.sub_diag.
Qed.

Lemma insert_snoc2_1 {A : Type} (h : list A) (x y z : A) :
  <[S (length h) := z]> (h ++ [x; y]) = h ++ [x; z].
Proof.
  rewrite insert_app_r_alt by lia.
  replace (S (length h) - length h)%nat with 1%nat by lia. done.
Qed.

(** ** Aggregation on the heap *)

Lemma drop_cons_inv {A : Type} (l : list A) (j : nat) (x : A) (rest : list A) :
  drop j l = x :: rest → l !! j = Some x ∧ drop (S j) l = rest.
Proof.
  intros H. split.
  - pose proof (lookup_drop l j 0) as H0.
    rewrite H, Nat.add_0_r in H0. done.
  - pose proof (drop_drop l 1 j) as H1.
    rewrite H, Nat.add_1_r in H1. done.
Qed.

Lemma aggregate_sum_run (c : Ring.Context) (samples : list (list loc)) (i : nat)
    (h : list Ring.Poly) (a : Ring.Poly) (nz : nat → Ring.Poly) (d : nat) :
  ∀ (rest : list (list loc)) (j : nat) (acc : Ring.Poly) (vs : list Ring.Poly),
    drop j samples = rest →
    Forall2 (λ st v, ∃ l, st !! i = Some l ∧ h !! l = Some v) rest vs →
    aggregate_sum (length rest) j c samples i (length h) (mkWorld (h ++ [acc; a]) nz d)
      = Ok (tt, mkWorld (h ++ [sum_val c acc j vs; a]) nz d).
Proof.
  induction rest as [|st rest IH]; intros j acc vs Hdrop Hvals.
  - apply Forall2_nil_inv_l in Hvals as ->. reflexivity.
  - apply Forall2_cons_inv_l in Hvals as (v & vs' & (l & Hl & Hv) & Hvals & ->).
    apply drop_cons_inv in Hdrop as [Hj Hdrop].
    simpl length. cbn [aggregate_sum sum_val].
    rewrite (bind_run _ _ _ _ _ (lift_idx_run _ _ _ _ Hj)).
    rewrite (bind_run _ _ _ _ _ (lift_idx_run _ _ _ _ Hl)).
    unfold Context_AddNoMod.
    erewrite (bind_run (do v1 <- load _ ;; _)); cycle 1.
    { apply binary_run; simpl.
      - apply lookup_snoc2_0.
      - rewrite lookup_app_l by (by eapply lookup_lt_Some). exact Hv.
      - rewrite length_app. simpl. lia. }
    simpl heap. rewrite insert_snoc2_0. simpl.
    destruct (Z.land (Z.of_nat j) 7 =? 7).
    + unfold Context_Reduce.
      erewrite (bind_run (do v1 <- load _ ;; _)); cycle 1.
      { apply unary_run; simpl.
        - apply lookup_snoc2_0.
        - rewrite length_app. simpl. lia. }
      simpl heap. rewrite insert_snoc2_0. simpl.
      by apply IH.
    + rewrite (bind_run (ret tt) _ _ tt _ eq_refl).
      by apply IH.
Qed.

Lemma aggregate_loop_step (fuel i : nat) (rkg : RKG) (samples : list (list loc))
    (crp : list loc) (receiver : list (nat * nat)) (h : list Ring.Poly)
    (nz : nat → Ring.Poly) (d : nat)
    (s0 : list loc) (rest : list (list loc)) (l0 lc : loc)
    (v0 vc : Ring.Poly) (vs : list Ring.Poly) :
  samples = s0 :: rest →
  s0 !! i = Some l0 → h !! l0 = Some v0 →
  crp !! i = Some lc → h !! lc = Some vc →
  Forall2 (λ st v, ∃ l, st !! i = Some l ∧ h !! l = Some v) rest vs →
  aggregate_loop (S fuel) i rkg samples crp receiver (mkWorld h nz d) =
  aggregate_loop fuel (S i) rkg samples crp (receiver ++ [(length h, S (length h))])
    (mkWorld (h ++ [deferred_sum (ContextKeys (bfvContext rkg)) (v0 :: vs);
                    Ring.MForm_poly (ContextKeys (bfvContext rkg)) vc]) nz d).
Proof.
  intros -> Hl0 Hv0 Hlc Hvc Hvals.
  cbn [aggregate_loop].
  rewrite (bind_run _ _ _ _ _ (lift_idx_run (s0 :: rest) 0 s0 _ eq_refl)).
  rewrite (bind_run _ _ _ _ _ (lift_idx_run _ _ _ _ Hl0)).
  rewrite (bind_run _ _ _ _ _ (CopyNew_run l0 v0 (mkWorld h nz d) Hv0)).
  cbn [heap noise drawn].
  rewrite (bind_run _ _ _ _ _ (lift_idx_run _ _ _ _ Hlc)).
  erewrite (bind_run (CopyNew lc)); cycle 1.
  { apply CopyNew_run. cbn [heap].
    rewrite lookup_app_l by (by eapply lookup_lt_Some). exact Hvc. }
  cbn [heap noise drawn].
  rewrite <- app_assoc. cbn [app].
  rewrite length_app. cbn [length]. rewrite Nat.add_1_r.
  unfold Context_MForm.
  erewrite (bind_run (do v <- load _ ;; _)); cycle 1.
  { apply unary_run; cbn [heap].
    - apply lookup_snoc2_1.
    - rewrite length_app. simpl. lia. }
  cbn [heap noise drawn]. rewrite insert_snoc2_1.
  replace (S (length rest) - 1)%nat with (length rest) by lia.
  erewrite (bind_run (aggregate_sum _ _ _ _ _ _)); cycle 1.
  { apply aggregate_sum_run; [reflexivity|exact Hvals]. }
  unfold deferred_sum.
  cbn [length]. rewrite <- (Forall2_length _ _ _ Hvals).
  destruct (negb _).
  - unfold Context_Reduce.
    erewrite (bind_run (do v <- load _ ;; _)); cycle 1.
    { apply unary_run; cbn [heap].
      - apply lookup_snoc2_0.
      - rewrite length_app. simpl. lia. }
    cbn [heap noise drawn]. rewrite insert_snoc2_0. reflexivity.
  - rewrite (bind_run (ret tt) _ _ tt _ eq_refl). reflexivity.
Qed.

Lemma usable_column (h : list Ring.Poly) (samples : list (list loc)) (crp : list loc)
    (n i : nat) :
  usable h samples crp n → (i < n)%nat →
  ∃ s0 rest l0 lc,
    samples = s0 :: rest ∧
    s0 !! i = Some l0 ∧ h !! l0 = Some (val h l0) ∧
    crp !! i = Some lc ∧ h !! lc = Some (val h lc) ∧
    column h samples i = val h l0 :: column h rest i ∧
    Forall2 (λ st v, ∃ l, st !! i = Some l ∧ h !! l = Some v) rest (column h rest i).
Proof.
  intros (Hne & Hs & Hc) Hi.
  destruct samples as [|s0 rest]; [done|].
  destruct (Hs s0 i ltac:(left) Hi) as (l0 & Hl0 & Hlt0).
  destruct (Hc i Hi) as (lc & Hlc & Hltc).
  assert (Hval : ∀ l, (l < length h)%nat → h !! l = Some (val h l)).
  { intros l Hl. unfold val.
    destruct (lookup_lt_is_Some_2 h l Hl) as [v ->]. done. }
  exists s0, rest, l0, lc.
  split; [done|]. split; [done|]. split; [by apply Hval|].
  split; [done|]. split; [by apply Hval|]. split.
  - unfold column. simpl. by rewrite Hl0.
  - unfold column. apply Forall2_fmap_r, Forall_Forall2_diag.
    apply Forall_forall. intros st Hst.
    destruct (Hs st i ltac:(by right) Hi) as (l & Hl & Hlt).
    exists l. rewrite Hl. simpl. split; [done|]. by apply Hval.
Qed.

Lemma usable_extend (h t : list Ring.Poly) (samples : list (list loc))
    (crp : list loc) (n : nat) :
  usable h samples crp n → usable (h ++ t) samples crp n.
Proof.
  intros (Hne & Hs & Hc). split; [done|]. split.
  - intros st i Hst Hi. destruct (Hs st i Hst Hi) as (l & Hl & Hlt).
    exists l. rewrite length_app. split; [done|lia].
  - intros i Hi. destruct (Hc i Hi) as (l & Hl & Hlt).
    exists l. rewrite length_app. split; [done|lia].
Qed.

Lemma val_extend (h t : list Ring.Poly) (l : loc) :
  (l < length h)%nat → val (h ++ t) l = val h l.
Proof. intros Hl. unfold val. by rewrite lookup_app_l. Qed.

Lemma column_extend (h t : list Ring.Poly) (samples : list (list loc)) (crp : list loc)
    (n i : nat) :
  usable h samples crp n → (i < n)%nat →
  column (h ++ t) samples i = column h samples i.
Proof.
  intros (_ & Hs & _) Hi. unfold column.
  apply list_fmap_ext. intros k st Hst.
  destruct (Hs st i (list_elem_of_lookup_2 _ _ _ Hst) Hi) as (l & -> & Hlt).
  simpl. by apply val_extend.
Qed.

Lemma aggregate_digit_extend (c : Ring.Context) (h t : list Ring.Poly)
    (samples : list (list loc)) (crp : list loc) (n i : nat) :
  usable h samples crp n → (i < n)%nat →
  aggregate_digit c (h ++ t) samples crp i = aggregate_digit c h samples crp i.
Proof.
  intros Hu Hi. unfold aggregate_digit.
  rewrite (column_extend _ _ _ crp n) by done.
  destruct Hu as (_ & _ & Hc). destruct (Hc i Hi) as (l & -> & Hlt).
  simpl. by rewrite val_extend.
Qed.

(** The whole loop over the digits: the heap grows by one pair per digit,
    nothing allocated before is written. *)
Lemma aggregate_loop_run (rkg : RKG) (samples : list (list loc)) (crp : list loc)
    (h : list Ring.Poly) (nz : nat → Ring.Poly) (d : nat) (n : nat) :
  usable h samples crp n →
  ∀ (fuel i : nat) (t : list Ring.Poly) (receiver : list (nat * nat)),
    (i + fuel = n)%nat → length t = (2 * i)%nat →
    aggregate_loop fuel i rkg samples crp receiver (mkWorld (h ++ t) nz d) =
    Ok (receiver ++ ((λ k, (length h + 2 * k, length h + 2 * k + 1)%nat) <$> seq i fuel),
        mkWorld (h ++ t ++ mjoin (aggregate_digit (ContextKeys (bfvContext rkg))
                                     h samples crp <$> seq i fuel)) nz d).
Proof.
  intros Hu fuel. induction fuel as [|fuel IH]; intros i t receiver Hn Ht.
  - simpl. unfold ret. by rewrite !app_nil_r.
  - assert (Hi : (i < n)%nat) by lia.
    destruct (usable_column _ _ _ _ _ (usable_extend _ t _ _ _ Hu) Hi)
      as (s0 & rest & l0 & lc & Hs & Hl0 & Hv0 & Hlc & Hvc & Hcol & Hvals).
    rewrite (aggregate_loop_step fuel i rkg samples crp receiver (h ++ t) nz d
               s0 rest l0 lc _ _ _ Hs Hl0 Hv0 Hlc Hvc Hvals).
    rewrite <- Hcol.
    pose proof (aggregate_digit_extend (ContextKeys (bfvContext rkg)) h t
                  samples crp n i Hu Hi) as Hdig.
    unfold aggregate_digit in Hdig at 1. rewrite Hlc in Hdig. simpl in Hdig.
    rewrite Hdig. rewrite <- app_assoc.
    rewrite IH; [|lia|rewrite length_app; unfold aggregate_digit; simpl; lia].
    rewrite <- !app_assoc. simpl.
    repeat f_equal; rewrite length_app, Ht; lia.
Qed.

(** ** Deferred reduction computes the modular sum *)

Lemma land7 (j : nat) : Z.land (Z.of_nat j) 7 = Z.of_nat j mod 8.
Proof. apply (land_pow2_mask _ 3). lia. Qed.

Lemma succ_mod8 (j : Z) :
  (j + 1) mod 8 = if j mod 8 =? 7 then 0 else j mod 8 + 1.
Proof.
  destruct (Z.eqb_spec (j mod 8) 7); Z.div_mod_to_equations; lia.
Qed.

Lemma sum_coeff_inv (q : Z) (xs : list Z) :
  0 < q < 2 ^ 60 →
  Forall (λ x, 0 ≤ x < q) xs →
  ∀ (acc : Z) (j : nat),
    0 ≤ acc < (Z.of_nat j mod 8 + 1) * q →
    0 ≤ sum_coeff q acc j xs < (Z.of_nat (j + length xs) mod 8 + 1) * q ∧
    sum_coeff q acc j xs mod q = (acc + sumZ xs) mod q.
Proof.
  intros Hq Hxs. induction Hxs as [|x xs Hx Hxs IH]; intros acc j Hacc.
  - simpl. rewrite Nat.add_0_r, Z.add_0_r. done.
  - cbn [sum_coeff sumZ foldr length]. fold (sumZ xs).
    replace (j + S (length xs))%nat with (S j + length xs)%nat by lia.
    rewrite land7.
    assert (Hm : 0 ≤ Z.of_nat j mod 8 < 8) by (apply Z.mod_pos_bound; lia).
    assert (Hadd : add64 acc x = acc + x).
    { unfold add64. apply wrap64_small.
      change (2 ^ 64) with (16 * 2 ^ 60). change (2 ^ 60) with 1152921504606846976 in *.
      nia. }
    rewrite Hadd.
    destruct (Z.eqb_spec (Z.of_nat j mod 8) 7) as [H7|H7].
    + unfold Ring.BRedAdd.
      destruct (IH ((acc + x) mod q) (S j)) as [Hb He].
      { assert (Z.of_nat (S j) mod 8 = 0) as ->.
        { rewrite Nat2Z.inj_succ, <- Z.add_1_r, succ_mod8, H7. done. }
        pose proof (Z.mod_pos_bound (acc + x) q ltac:(lia)). lia. }
      split; [exact Hb|].
      rewrite He, Z.add_mod_idemp_l by lia. f_equal. lia.
    + destruct (IH (acc + x) (S j)) as [Hb He].
      { assert (Z.of_nat (S j) mod 8 = Z.of_nat j mod 8 + 1) as ->.
        { rewrite Nat2Z.inj_succ, <- Z.add_1_r, succ_mod8.
          by destruct (Z.eqb_spec (Z.of_nat j mod 8) 7). }
        nia. }
      split; [exact Hb|]. rewrite He. f_equal. lia.
Qed.

Lemma shaped_AddNoMod (c : Ring.Context) (p1 p2 : Ring.Poly) :
  shaped c p1 → shaped c p2 → shaped c (Ring.AddNoMod_poly c p1 p2).
Proof. apply shape_map_rows2. Qed.

Lemma shaped_Reduce (c : Ring.Context) (p : Ring.Poly) :
  shaped c p → shaped c (Ring.Reduce_poly c p).
Proof. apply shape_map_rows. Qed.

Lemma shaped_MForm (c : Ring.Context) (p : Ring.Poly) :
  shaped c p → shaped c (Ring.MForm_poly c p).
Proof. apply shape_map_rows. Qed.

Lemma sum_val_coeff (c : Ring.Context) (vs : list Ring.Poly) :
  Forall (shaped c) vs →
  ∀ (acc : Ring.Poly) (j : nat),
    shaped c acc →
    shaped c (sum_val c acc j vs) ∧
    ∀ r col q, Ring.Modulus c !! r = Some q → (col < Z.to_nat (Ring.N c))%nat →
      coeff (sum_val c acc j vs) r col
        = sum_coeff q (coeff acc r col) j ((λ v, coeff v r col) <$> vs).
Proof.
  intros Hvs. induction Hvs as [|v vs Hv Hvs IH]; intros acc j Hacc.
  - simpl. done.
  - cbn [sum_val sum_coeff fmap list_fmap].
    destruct (Z.land (Z.of_nat j) 7 =? 7).
    + destruct (IH (Ring.Reduce_poly c (Ring.AddNoMod_poly c acc v)) (S j)) as [Hs Hc].
      { by apply shaped_Reduce, shaped_AddNoMod. }
      split; [exact Hs|]. intros r col q Hq Hcol.
      rewrite (Hc r col q Hq Hcol). f_equal.
      unfold Ring.Reduce_poly.
      rewrite (coeff_map_rows _ _ _ _ _ _ _ (shaped_AddNoMod _ _ _ Hacc Hv) Hq Hcol).
      f_equal. unfold Ring.AddNoMod_poly.
      by rewrite (coeff_map_rows2 _ _ _ _ _ _ _ _ Hacc Hv Hq Hcol).
    + destruct (IH (Ring.AddNoMod_poly c acc v) (S j)) as [Hs Hc].
      { by apply shaped_AddNoMod. }
      split; [exact Hs|]. intros r col q Hq Hcol.
      rewrite (Hc r col q Hq Hcol). f_equal.
      unfold Ring.AddNoMod_poly.
      by rewrite (coeff_map_rows2 _ _ _ _ _ _ _ _ Hacc Hv Hq Hcol).
Qed.

Lemma reduced_coeffs (c : Ring.Context) (vs : list Ring.Poly) (r col : nat) (q : Z) :
  Forall (reduced c) vs → Ring.Modulus c !! r = Some q →
  (col < Z.to_nat (Ring.N c))%nat →
  Forall (λ x, 0 ≤ x < q) ((λ v, coeff v r col) <$> vs).
Proof.
  intros Hvs Hq Hcol. apply Forall_fmap.
  eapply Forall_impl; [exact Hvs|]. intros v Hv. simpl. by apply Hv.
Qed.

Lemma modulus_bound (c : Ring.Context) (r : nat) (q : Z) :
  bounded_moduli c → Ring.Modulus c !! r = Some q → 0 < q < 2 ^ 60.
Proof. intros Hb Hq. exact (Forall_lookup_1 _ _ _ _ Hb Hq). Qed.

(** The accumulated polynomial is the coefficient-wise modular sum. *)
Lemma deferred_sum_coeff (c : Ring.Context) (vs : list Ring.Poly) :
  bounded_moduli c → vs ≠ [] →
  Forall (shaped c) vs → Forall (reduced c) vs →
  shaped c (deferred_sum c vs) ∧
  ∀ r col q, Ring.Modulus c !! r = Some q → (col < Z.to_nat (Ring.N c))%nat →
    coeff (deferred_sum c vs) r col = sumZ ((λ v, coeff v r col) <$> vs) mod q.
Proof.
  intros Hb Hne Hsh Hred. destruct vs as [|v0 rest]; [done|].
  apply Forall_cons in Hsh as [Hs0 Hsh]. apply Forall_cons in Hred as [Hr0 Hred].
  destruct (sum_val_coeff c rest Hsh v0 1 Hs0) as [Hs Hc].
  unfold deferred_sum. split.
  - destruct (negb _); [by apply shaped_Reduce|done].
  - intros r col q Hq Hcol.
    pose proof (modulus_bound _ _ _ Hb Hq) as Hqb.
    destruct (sum_coeff_inv q _ Hqb (reduced_coeffs c rest r col q Hred Hq Hcol)
                (coeff v0 r col) 1) as [Hbound Heq].
    { change (Z.of_nat 1 mod 8) with 1. pose proof (Hr0 r q col Hq Hcol). lia. }
    rewrite <- (Hc r col q Hq Hcol) in Hbound, Heq.
    cbn [fmap list_fmap sumZ foldr]. fold (sumZ ((λ v, coeff v r col) <$> rest)).
    rewrite length_fmap in Hbound.
    replace (Z.of_nat (length (v0 :: rest)) - 1) with (Z.of_nat (length rest))
      by (simpl length; lia).
    rewrite land7.
    destruct (Z.eqb_spec (Z.of_nat (length rest) mod 8) 7) as [H7|H7]; simpl.
    + rewrite <- Heq. symmetry. apply Z.mod_small.
      assert (Z.of_nat (1 + length rest) mod 8 = 0) as Hz.
      { rewrite Nat2Z.inj_add, Z.add_comm. change (Z.of_nat 1) with 1.
        rewrite succ_mod8, H7. done. }
      rewrite Hz in Hbound. lia.
    + unfold Ring.Reduce_poly.
      rewrite (coeff_map_rows _ _ _ _ _ _ _ Hs Hq Hcol).
      unfold Ring.BRedAdd. exact Heq.
Qed.

Lemma naive_fold_coeff (c : Ring.Context) (vs : list Ring.Poly) :
  bounded_moduli c →
  Forall (shaped c) vs → Forall (reduced c) vs →
  ∀ acc : Ring.Poly,
    shaped c acc → reduced c acc →
    let res := fold_left (λ a v, Ring.Reduce_poly c (Ring.AddNoMod_poly c a v)) vs acc in
    shaped c res ∧
    ∀ r col q, Ring.Modulus c !! r = Some q → (col < Z.to_nat (Ring.N c))%nat →
      coeff res r col = (coeff acc r col + sumZ ((λ v, coeff v r col) <$> vs)) mod q.
Proof.
  intros Hb Hsh. induction Hsh as [|v vs Hv Hsh IH]; intros Hred acc Hacc Hracc.
  - simpl. split; [done|]. intros r col q Hq Hcol.
    rewrite Z.add_0_r. symmetry. apply Z.mod_small. by apply Hracc.
  - apply Forall_cons in Hred as [Hrv Hred].
    assert (Hstep : ∀ r col q, Ring.Modulus c !! r = Some q →
              (col < Z.to_nat (Ring.N c))%nat →
              coeff (Ring.Reduce_poly c (Ring.AddNoMod_poly c acc v)) r col
                = (coeff acc r col + coeff v r col) mod q).
    { intros r col q Hq Hcol.
      pose proof (modulus_bound _ _ _ Hb Hq) as Hqb.
      unfold Ring.Reduce_poly.
      rewrite (coeff_map_rows _ _ _ _ _ _ _ (shaped_AddNoMod _ _ _ Hacc Hv) Hq Hcol).
      unfold Ring.AddNoMod_poly.
      rewrite (coeff_map_rows2 _ _ _ _ _ _ _ _ Hacc Hv Hq Hcol).
      unfold Ring.BRedAdd, add64. f_equal. apply wrap64_small.
      pose proof (Hracc r q col Hq Hcol). pose proof (Hrv r q col Hq Hcol).
      change (2 ^ 64) with (16 * 2 ^ 60). lia. }
    destruct (IH Hred (Ring.Reduce_poly c (Ring.AddNoMod_poly c acc v))) as [Hs Hc].
    { by apply shaped_Reduce, shaped_AddNoMod. }
    { intros r q col Hq Hcol. rewrite (Hstep r col q Hq Hcol).
      apply Z.mod_pos_bound. pose proof (modulus_bound _ _ _ Hb Hq). lia. }
    cbn [fold_left]. split; [exact Hs|].
    intros r col q Hq Hcol.
    rewrite (Hc r col q Hq Hcol), (Hstep r col q Hq Hcol).
    pose proof (modulus_bound _ _ _ Hb Hq) as Hqb.
    cbn [fmap list_fmap sumZ foldr]. fold (sumZ ((λ v, coeff v r col) <$> vs)).
    rewrite Z.add_mod_idemp_l by lia. f_equal. lia.
Qed.

Lemma naive_sum_coeff (c : Ring.Context) (vs : list Ring.Poly) :
  bounded_moduli c → vs ≠ [] →
  Forall (shaped c) vs → Forall (reduced c) vs →
  shaped c (naive_sum c vs) ∧
  ∀ r col q, Ring.Modulus c !! r = Some q → (col < Z.to_nat (Ring.N c))%nat →
    coeff (naive_sum c vs) r col = sumZ ((λ v, coeff v r col) <$> vs) mod q.
Proof.
  intros Hb Hne Hsh Hred. destruct vs as [|v0 rest]; [done|].
  apply Forall_cons in Hsh as [Hs0 Hsh]. apply Forall_cons in Hred as [Hr0 Hred].
  assert (H0 : ∀ r col q, Ring.Modulus c !! r = Some q →
            (col < Z.to_nat (Ring.N c))%nat →
            coeff (Ring.Reduce_poly c v0) r col = coeff v0 r col).
  { intros r col q Hq Hcol. unfold Ring.Reduce_poly.
    rewrite (coeff_map_rows _ _ _ _ _ _ _ Hs0 Hq Hcol).
    apply Z.mod_small. by apply Hr0. }
  destruct (naive_fold_coeff c rest Hb Hsh Hred (Ring.Reduce_poly c v0)) as [Hs Hc].
  { by apply shaped_Reduce. }
  { intros r q col Hq Hcol. rewrite (H0 r col q Hq Hcol). by apply Hr0. }
  unfold naive_sum. split; [exact Hs|].
  intros r col q Hq Hcol. rewrite (Hc r col q Hq Hcol), (H0 r col q Hq Hcol). done.
Qed.

(** Refinement: the deferred-reduction accumulation of the code equals the
    reduce-after-every-addition sum of the specification. *)
Lemma deferred_sum_naive (c : Ring.Context) (vs : list Ring.Poly) :
  bounded_moduli c → vs ≠ [] →
  Forall (shaped c) vs → Forall (reduced c) vs →
  deferred_sum c vs = naive_sum c vs.
Proof.
  intros Hb Hne Hsh Hred.
  destruct (deferred_sum_coeff c vs Hb Hne Hsh Hred) as [Hs1 Hc1].
  destruct (naive_sum_coeff c vs Hb Hne Hsh Hred) as [Hs2 Hc2].
  apply (poly_ext _ _ _ _ Hs1 Hs2). intros r col Hr Hcol.
  destruct (lookup_lt_is_Some_2 (Ring.Modulus c) r Hr) as [q Hq].
  rewrite (Hc1 r col q Hq Hcol), (Hc2 r col q Hq Hcol). done.
Qed.

Lemma length_join_pairs {A : Type} (f : nat → list A) (j n : nat) :
  (∀ k, length (f k) = 2%nat) → length (mjoin (f <$> seq j n)) = (2 * n)%nat.
Proof.
  intros Hf. revert j. induction n as [|n IH]; intros j; [done|].
  simpl. rewrite length_app, Hf, IH. lia.
Qed.

Lemma lookup_join_pairs {A : Type} (f g : nat → A) (n i : nat) :
  (i < n)%nat →
  mjoin ((λ k, [f k; g k]) <$> seq 0 n) !! (2 * i)%nat = Some (f i) ∧
  mjoin ((λ k, [f k; g k]) <$> seq 0 n) !! (2 * i + 1)%nat = Some (g i).
Proof.
  induction n as [|n IH]; intros Hi; [lia|].
  rewrite seq_S, fmap_app, join_app. simpl.
  pose proof (length_join_pairs (λ k, [f k; g k]) 0 n (λ _, eq_refl)) as Hlen.
  destruct (decide (i < n)%nat) as [Hlt|Hge].
  - destruct (IH Hlt) as [H1 H2].
    rewrite !lookup_app_l by lia. done.
  - assert (i = n) as -> by lia.
    rewrite !lookup_app_r by lia. rewrite Hlen.
    replace (n + (n + 0) - 2 * n)%nat with 0%nat by lia.
    replace (n + (n + 0) + 1 - 2 * n)%nat with 1%nat by lia. done.
Qed.

Lemma aggregate_run (rkg : RKG) (samples : list (list loc)) (crp : list loc)
    (h : list Ring.Poly) (nz : nat → Ring.Poly) (d : nat) :
  usable h samples crp (Z.to_nat (Beta (bfvContext rkg))) →
  aggregate rkg samples crp (mkWorld h nz d) =
  Ok ((λ k, (length h + 2 * k, length h + 2 * k + 1)%nat)
        <$> seq 0 (Z.to_nat (Beta (bfvContext rkg))),
      mkWorld (h ++ mjoin (aggregate_digit (ContextKeys (bfvContext rkg)) h samples crp
                             <$> seq 0 (Z.to_nat (Beta (bfvContext rkg))))) nz d).
Proof.
  intros Hu. unfold aggregate.
  pose proof (aggregate_loop_run rkg samples crp h nz d _ Hu
                (Z.to_nat (Beta (bfvContext rkg))) 0 [] [] eq_refl eq_refl) as Hrun.
  rewrite app_nil_r in Hrun. exact Hrun.
Qed.

Lemma column_wf (c : Ring.Context) (h : list Ring.Poly) (samples : list (list loc))
    (crp : list loc) (n i : nat) :
  usable h samples crp n →
  (∀ st t l, st ∈ samples → (t < n)%nat → st !! t = Some l →
             shaped c (val h l) ∧ reduced c (val h l)) →
  (i < n)%nat →
  column h samples i ≠ [] ∧
  Forall (shaped c) (column h samples i) ∧ Forall (reduced c) (column h samples i).
Proof.
  intros (Hne & Hs & _) Hwf Hi. unfold column. split; [|split].
  - destruct samples; [done|]. simpl. done.
  - apply Forall_fmap, Forall_forall. intros st Hst.
    destruct (Hs st i Hst Hi) as (l & Hl & _). simpl. rewrite Hl. simpl.
    by apply (Hwf st i l).
  - apply Forall_fmap, Forall_forall. intros st Hst.
    destruct (Hs st i Hst Hi) as (l & Hl & _). simpl. rewrite Hl. simpl.
    by apply (Hwf st i l).
Qed.

Lemma reduced_mod_sum (c : Ring.Context) (p : Ring.Poly) (f : nat → nat → Z) :
  bounded_moduli c →
  (∀ r col q, Ring.Modulus c !! r = Some q → (col < Z.to_nat (Ring.N c))%nat →
     coeff p r col = f r col mod q) →
  reduced c p.
Proof.
  intros Hb Hc r q col Hq Hcol. rewrite (Hc r col q Hq Hcol).
  apply Z.mod_pos_bound. pose proof (modulus_bound _ _ _ Hb Hq). lia.
Qed.

(** C3, as amended.  For a non-empty collection of share vectors and a
    CRP, all with a well-formed (context-shaped, reduced) polynomial at
    each of the [Beta] digits, and moduli below [2^60], [aggregate]
    returns [Beta] pairs
    [(b, a)]: [b] holds the fully reduced coefficient-wise sum of the
    parties' digit, the deferred-reduction accumulation being equal to the
    reduce-after-every-addition sum, and [a] holds the CRP digit in
    Montgomery form, in fresh storage. *)
Theorem aggregate_is_reduced_sum (rkg : RKG) (samples : list (list loc))
    (crp : list loc) (w : World) :
  let c := ContextKeys (bfvContext rkg) in
  let n := Z.to_nat (Beta (bfvContext rkg)) in
  bounded_moduli c →
  usable (heap w) samples crp n →
  (∀ st t l, st ∈ samples → (t < n)%nat → st !! t = Some l →
             shaped c (val (heap w) l) ∧ reduced c (val (heap w) l)) →
  ∃ receiver w',
    aggregate rkg samples crp w = Ok (receiver, w') ∧
    length receiver = n ∧
    ∀ i, (i < n)%nat →
      ∃ b a lc,
        receiver !! i = Some (b, a) ∧
        crp !! i = Some lc ∧
        (length (heap w) ≤ b)%nat ∧ (length (heap w) ≤ a)%nat ∧
        heap w' !! b = Some (deferred_sum c (column (heap w) samples i)) ∧
        deferred_sum c (column (heap w) samples i)
          = naive_sum c (column (heap w) samples i) ∧
        reduced c (val (heap w') b) ∧
        (∀ r col q, Ring.Modulus c !! r = Some q → (col < Z.to_nat (Ring.N c))%nat →
           coeff (val (heap w') b) r col
             = sumZ ((λ v, coeff v r col) <$> column (heap w) samples i) mod q) ∧
        heap w' !! a = Some (Ring.MForm_poly c (val (heap w) lc)).
Proof.
  intros c n Hb Hu Hwf. subst c n. destruct w as [h nz d]. cbn [heap] in *.
  eexists _, _. split; [by apply aggregate_run|].
  set (c := ContextKeys (bfvContext rkg)) in *.
  set (n := Z.to_nat (Beta (bfvContext rkg))) in *.
  split; [by rewrite length_fmap, length_seq|].
  intros i Hi.
  destruct (column_wf c h samples crp n i Hu Hwf Hi) as (Hne & Hsh & Hred).
  destruct (deferred_sum_coeff c _ Hb Hne Hsh Hred) as [Hs Hc].
  destruct Hu as (Hsne & Hsl & Hcl). destruct (Hcl i Hi) as (lc & Hlc & Hltc).
  destruct (lookup_join_pairs
              (λ k, deferred_sum c (column h samples k))
              (λ k, Ring.MForm_poly c (val h (default 0%nat (crp !! k)))) n i Hi)
    as [Hb0 Ha0].
  assert (Hbl : (h ++ mjoin (aggregate_digit c h samples crp <$> seq 0 n))
                  !! (length h + 2 * i)%nat
                = Some (deferred_sum c (column h samples i))).
  { rewrite lookup_app_r by lia.
    replace (length h + 2 * i - length h)%nat with (2 * i)%nat by lia. exact Hb0. }
  exists (length h + 2 * i)%nat, (length h + 2 * i + 1)%nat, lc.
  split. { rewrite list_lookup_fmap, lookup_seq_lt by done. done. }
  split; [done|]. split; [lia|]. split; [lia|].
  cbn [heap]. split; [exact Hbl|].
  split; [by apply deferred_sum_naive|].
  unfold val. rewrite Hbl. cbn [default].
  split.
  { exact (reduced_mod_sum c _
             (λ r col, sumZ ((λ v, coeff v r col) <$> column h samples i)) Hb Hc). }
  split; [exact Hc|].
  rewrite lookup_app_r by lia.
  replace (length h + 2 * i + 1 - length h)%nat with (2 * i + 1)%nat by lia.
  rewrite Hlc in Ha0. exact Ha0.
Qed.

(** ** The injection loops of [genswitchkey] *)

Lemma coeff_insert2 (e : Ring.Poly) (index w : nat) (erow : list Z) (v : Z)
    (r col : nat) :
  e !! index = Some erow → (w < length erow)%nat →
  coeff (<[index := <[w := v]> erow]> e) r col
    = if decide (r = index ∧ col = w) then v else coeff e r col.
Proof.
  intros He Hw. pose proof (lookup_lt_Some _ _ _ He) as Hi.
  unfold coeff. destruct (decide (r = index)) as [->|Hr].
  - rewrite list_lookup_insert_eq by done. rewrite He.
    destruct (decide (col = w)) as [->|Hc].
    + rewrite list_lookup_insert_eq by done. by rewrite decide_True.
    + rewrite list_lookup_insert_ne by done. rewrite decide_False by tauto. done.
  - rewrite list_lookup_insert_ne by done. rewrite decide_False by tauto. done.
Qed.

Lemma shape_insert2 (rows cols : nat) (e : Ring.Poly) (index w : nat)
    (erow : list Z) (v : Z) :
  shape rows cols e → e !! index = Some erow →
  shape rows cols (<[index := <[w := v]> erow]> e).
Proof.
  intros [Hlen Hall] He. split; [by rewrite length_insert|].
  apply Forall_insert; [done|]. rewrite length_insert.
  exact (Forall_lookup_1 _ _ _ _ Hall He).
Qed.

Lemma lookup_snoc1 {A : Type} (h : list A) (x : A) : (h ++ [x]) !! length h = Some x.
Proof. by rewrite list_lookup_middle. Qed.

Lemma insert_snoc1 {A : Type} (h : list A) (x z : A) :
  <[length h := z]> (h ++ [x]) = h ++ [z].
Proof. rewrite insert_app_r_alt by lia. by rewrite Nat.sub_diag. Qed.

Lemma inject_coeffs_run (c : Ring.Context) (pool index : nat) (h : list Ring.Poly)
    (nz : nat → Ring.Poly) (d : nat) (p : Ring.Poly) (prow : list Z) (q : Z) :
  h !! pool = Some p → p !! index = Some prow →
  Ring.Modulus c !! index = Some q →
  ∀ (fuel w : nat) (e : Ring.Poly) (erow : list Z),
    e !! index = Some erow →
    (w + fuel ≤ length erow)%nat → (w + fuel ≤ length prow)%nat →
    ∃ e',
      inject_coeffs fuel w c (length h) pool index (mkWorld (h ++ [e]) nz d)
        = Ok (tt, mkWorld (h ++ [e']) nz d) ∧
      (∀ rows cols, shape rows cols e → shape rows cols e') ∧
      ∀ r col,
        coeff e' r col =
          if decide (r = index ∧ (w ≤ col < w + fuel)%nat)
          then Ring.CRed (add64 (coeff e r col) (coeff p r col)) q
          else coeff e r col.
Proof.
  intros Hp Hprow Hq fuel.
  induction fuel as [|fuel IH]; intros w e erow He Hel Hpl.
  - exists e. split; [done|]. split; [done|].
    intros r col. rewrite decide_False by lia. done.
  - destruct (lookup_lt_is_Some_2 erow w ltac:(lia)) as [x Hx].
    destruct (lookup_lt_is_Some_2 prow w ltac:(lia)) as [y Hy].
    set (e1 := <[index := <[w := Ring.CRed (add64 x y) q]> erow]> e).
    destruct (IH (S w) e1 (<[w := Ring.CRed (add64 x y) q]> erow)) as (e' & Hrun & Hsh & Hc).
    { unfold e1. apply list_lookup_insert_eq. by eapply lookup_lt_Some. }
    { rewrite length_insert. lia. }
    { lia. }
    exists e'. split; [|split].
    + cbn [inject_coeffs].
      rewrite (bind_run _ _ _ _ _ (load_run (length h) e (mkWorld (h ++ [e]) nz d)
                                     (lookup_snoc1 h e))).
      rewrite (bind_run _ _ _ _ _ (lift_idx_run _ _ _ _ He)).
      rewrite (bind_run _ _ _ _ _ (lift_idx_run _ _ _ _ Hx)).
      erewrite (bind_run (load pool)); cycle 1.
      { apply load_run. cbn [heap].
        rewrite lookup_app_l by (by eapply lookup_lt_Some). exact Hp. }
      rewrite (bind_run _ _ _ _ _ (lift_idx_run _ _ _ _ Hprow)).
      rewrite (bind_run _ _ _ _ _ (lift_idx_run _ _ _ _ Hy)).
      rewrite (bind_run _ _ _ _ _ (lift_idx_run _ _ _ _ Hq)).
      erewrite (bind_run (store _ _)); cycle 1.
      { apply store_run. cbn [heap]. rewrite length_app. simpl. lia. }
      cbn [heap noise drawn]. rewrite insert_snoc1. exact Hrun.
    + intros rows cols Hs. apply Hsh. unfold e1. by apply shape_insert2.
    + intros r col. rewrite Hc. unfold e1.
      rewrite (coeff_insert2 e index w erow _ r col He ltac:(lia)).
      destruct (decide (r = index)) as [->|Hr].
      * destruct (decide (col = w)) as [->|Hcw].
        -- rewrite decide_False by lia. rewrite decide_True by done.
           rewrite decide_True by lia.
           by rewrite (coeff_lookup _ _ _ _ _ He Hx), (coeff_lookup _ _ _ _ _ Hprow Hy).
        -- rewrite (decide_False (P := index = index ∧ col = w)) by tauto.
           destruct (decide (S w ≤ col < S w + fuel)%nat).
           ++ rewrite !decide_True by lia. done.
           ++ rewrite !decide_False by lia. done.
      * rewrite !decide_False by tauto. done.
Qed.

Lemma wf_ctx_rows (bc : BfvContext) :
  wf_ctx bc →
  (length (Ring.Modulus (ContextQ bc)) < length (Ring.Modulus (ContextKeys bc)))%nat.
Proof.
  intros (Hm & Hp & _). rewrite Hm, length_app.
  destruct (KeySwitchPrimes bc); [done|]. simpl. lia.
Qed.

Lemma index_no_wrap (bc : BfvContext) (i j : nat) :
  wf_ctx bc →
  Z.of_nat i * Alpha bc + Z.of_nat j ≤ Z.of_nat (length (Ring.Modulus (ContextQ bc))) →
  add64 (mul64 (Z.of_nat i) (Alpha bc)) (Z.of_nat j)
    = Z.of_nat i * Alpha bc + Z.of_nat j.
Proof.
  intros Hwf Hle. pose proof (wf_ctx_rows bc Hwf) as Hrows.
  destruct Hwf as (_ & _ & H64 & _ & Ha & _).
  assert (0 ≤ Z.of_nat i * Alpha bc) by nia.
  unfold add64, mul64. rewrite (wrap64_small (_ * _)) by lia.
  apply wrap64_small. lia.
Qed.

Lemma inject_digit_run (rkg : RKG) (i : nat) (h : list Ring.Poly)
    (nz : nat → Ring.Poly) (d : nat) (p : Ring.Poly) :
  wf_ctx (bfvContext rkg) →
  h !! polypool rkg = Some p →
  shaped (ContextKeys (bfvContext rkg)) p →
  ∀ (fuel j : nat) (e : Ring.Poly),
    shaped (ContextKeys (bfvContext rkg)) e →
    Z.of_nat (j + fuel) = Alpha (bfvContext rkg) →
    Z.of_nat i * Alpha (bfvContext rkg) + Z.of_nat j
      ≤ Z.of_nat (length (Ring.Modulus (ContextQ (bfvContext rkg)))) →
    ∃ e',
      inject_digit fuel j rkg i (length h) (mkWorld (h ++ [e]) nz d)
        = Ok (tt, mkWorld (h ++ [e']) nz d) ∧
      shaped (ContextKeys (bfvContext rkg)) e' ∧
      ∀ r col q,
        Ring.Modulus (ContextKeys (bfvContext rkg)) !! r = Some q →
        (col < Z.to_nat (Ring.N (ContextKeys (bfvContext rkg))))%nat →
        coeff e' r col =
          if injected_from (bfvContext rkg) i j r
          then Ring.CRed (add64 (coeff e r col) (coeff p r col)) q
          else coeff e r col.
Proof.
  intros Hwf Hp Hps fuel.
  pose proof (wf_ctx_rows _ Hwf) as Hrows.
  induction fuel as [|fuel IH]; intros j e Hes Hj Hle.
  - exists e. split; [done|]. split; [done|].
    intros r col q Hq Hcol. unfold injected_from.
    split_comparisons; try done; lia.
  - cbn [inject_digit]. rewrite (index_no_wrap _ i j Hwf Hle).
    set (r0 := Z.to_nat (Z.of_nat i * Alpha (bfvContext rkg) + Z.of_nat j)).
    assert (Hr0 : Z.of_nat r0 = Z.of_nat i * Alpha (bfvContext rkg) + Z.of_nat j).
    { unfold r0. rewrite Z2Nat.id; [done|]. destruct Hwf as (_&_&_&_&Ha&_). nia. }
    assert (Hr0lt : (r0 < length (Ring.Modulus (ContextKeys (bfvContext rkg))))%nat)
      by lia.
    destruct (shape_lookup _ _ _ _ Hes Hr0lt) as (erow & He & Hel).
    destruct (shape_lookup _ _ _ _ Hps Hr0lt) as (prow & Hpr & Hpl).
    destruct (lookup_lt_is_Some_2 _ _ Hr0lt) as [q0 Hq0].
    destruct (inject_coeffs_run (ContextKeys (bfvContext rkg)) (polypool rkg) r0 h nz d
                p prow q0 Hp Hpr Hq0
                (Z.to_nat (Ring.N (ContextKeys (bfvContext rkg)))) 0 e erow He
                ltac:(lia) ltac:(lia)) as (e1 & Hrun1 & Hsh1 & Hc1).
    rewrite (bind_run _ _ _ _ _ Hrun1).
    destruct (Z.eqb_spec (Z.of_nat i * Alpha (bfvContext rkg) + Z.of_nat j)
                (Z.of_nat (length (Ring.Modulus (ContextQ (bfvContext rkg))))))
      as [Heq|Hne].
    + exists e1. split; [done|]. split; [by apply Hsh1|].
      intros r col q Hq Hcol. rewrite Hc1. unfold injected_from.
      destruct (decide (r = r0 ∧ (0 ≤ col < 0 + Z.to_nat (Ring.N (ContextKeys (bfvContext rkg))))%nat))
        as [[-> _]|Hn].
      * assert (q = q0) as -> by congruence.
        split_comparisons; try done; lia.
      * split_comparisons; try done; exfalso; apply Hn; split; lia.
    + destruct (IH (S j) e1 (Hsh1 _ _ Hes) ltac:(lia) ltac:(lia))
        as (e' & Hrun & Hsh & Hc).
      exists e'. split; [done|]. split; [done|].
      intros r col q Hq Hcol. rewrite (Hc r col q Hq Hcol), !Hc1.
      unfold injected_from.
      destruct (decide (r = r0 ∧ (0 ≤ col < 0 + Z.to_nat (Ring.N (ContextKeys (bfvContext rkg))))%nat))
        as [[-> _]|Hn].
      * assert (q = q0) as -> by congruence.
        split_comparisons; try done; lia.
      * split_comparisons; try done; exfalso; apply Hn; split; lia.
Qed.

(** ** [genswitchkey] on the heap *)

Lemma ternary_run (f : Ring.Poly → Ring.Poly → Ring.Poly → Ring.Poly) (p1 p2 p3 : loc)
    (v1 v2 v3 : Ring.Poly) (w : World) :
  heap w !! p1 = Some v1 → heap w !! p2 = Some v2 → heap w !! p3 = Some v3 →
  (do x <- load p1 ;; do y <- load p2 ;; do z <- load p3 ;; store p3 (f x y z)) w
    = Ok (tt, mkWorld (<[p3 := f v1 v2 v3]> (heap w)) (noise w) (drawn w)).
Proof.
  intros H1 H2 H3. rewrite (bind_run _ _ _ _ _ (load_run _ _ _ H1)).
  rewrite (bind_run _ _ _ _ _ (load_run _ _ _ H2)).
  rewrite (bind_run _ _ _ _ _ (load_run _ _ _ H3)).
  apply store_run. by eapply lookup_lt_Some.
Qed.

Lemma digit_start (bc : BfvContext) (i : nat) :
  wf_ctx bc → Z.of_nat i < Beta bc →
  Z.of_nat i * Alpha bc + Z.of_nat 0
    ≤ Z.of_nat (length (Ring.Modulus (ContextQ bc))).
Proof. intros (_ & _ & _ & _ & Ha & Hb & Hlo & Hhi) Hi. nia. Qed.

Lemma genswitchkey_loop_step (fuel i : nat) (rkg : RKG) (sk : loc) (crp : list loc)
    (evakey : list loc) (h : list Ring.Poly) (nz : nat → Ring.Poly) (d : nat)
    (p sv cv : Ring.Poly) (lc : loc) :
  wf_ctx (bfvContext rkg) →
  Z.of_nat i < Beta (bfvContext rkg) →
  h !! polypool rkg = Some p → shaped (ContextKeys (bfvContext rkg)) p →
  shaped (ContextKeys (bfvContext rkg)) (nz d) →
  crp !! i = Some lc →
  h !! lc = Some cv → shaped (ContextKeys (bfvContext rkg)) cv →
  h !! sk = Some sv → shaped (ContextKeys (bfvContext rkg)) sv →
  ∃ o,
    genswitchkey_loop (S fuel) i rkg sk crp evakey (mkWorld h nz d)
      = genswitchkey_loop fuel (S i) rkg sk crp (evakey ++ [length h])
          (mkWorld (h ++ [o]) nz (S d)) ∧
    shaped (ContextKeys (bfvContext rkg)) o ∧
    ∀ r col q,
      Ring.Modulus (ContextKeys (bfvContext rkg)) !! r = Some q →
      (col < Z.to_nat (Ring.N (ContextKeys (bfvContext rkg))))%nat →
      coeff o r col =
        digit_coeff (injected (bfvContext rkg) i r) q
          (coeff (nz d) r col) (coeff p r col) (coeff cv r col) (coeff sv r col).
Proof.
  intros Hwf Hi Hp Hps Hes Hlc Hcv Hcs Hsv Hss.
  destruct (inject_digit_run rkg i h nz (S d) p Hwf Hp Hps
              (Z.to_nat (Alpha (bfvContext rkg))) 0 (nz d) Hes)
    as (e' & Hrun & Hsh & Hc).
  { destruct Hwf as (_ & _ & _ & _ & Ha & _). lia. }
  { by apply digit_start. }
  set (c := ContextKeys (bfvContext rkg)) in *.
  exists (Ring.MForm_poly c (Ring.MulCoeffsMontgomeryAndSub_poly c cv sv e')).
  split; [|split].
  - cbn [genswitchkey_loop]. fold c.
    rewrite (bind_run SampleNTTNew _ (mkWorld h nz d) (length h)
               (mkWorld (h ++ [nz d]) nz (S d)) eq_refl).
    rewrite (bind_run _ _ _ _ _ Hrun).
    rewrite (bind_run _ _ _ _ _ (lift_idx_run _ _ _ _ Hlc)).
    unfold Context_MulCoeffsMontgomeryAndSub.
    erewrite (bind_run (do v1 <- load _ ;; _)); cycle 1.
    { apply ternary_run; cbn [heap].
      - rewrite lookup_app_l by (by eapply lookup_lt_Some). exact Hcv.
      - rewrite lookup_app_l by (by eapply lookup_lt_Some). exact Hsv.
      - apply lookup_snoc1. }
    cbn [heap noise drawn]. rewrite insert_snoc1.
    unfold Context_MForm.
    erewrite (bind_run (do v1 <- load _ ;; _)); cycle 1.
    { apply unary_run; cbn [heap].
      - apply lookup_snoc1.
      - rewrite length_app. simpl. lia. }
    cbn [heap noise drawn]. rewrite insert_snoc1. reflexivity.
  - apply shaped_MForm. by apply shape_map_rows3.
  - intros r col q Hq Hcol.
    unfold Ring.MForm_poly, Ring.MulCoeffsMontgomeryAndSub_poly.
    rewrite (coeff_map_rows _ _ _ _ _ _ _
               (shape_map_rows3 _ _ _ _ _ _ Hcs Hss Hsh) Hq Hcol).
    rewrite (coeff_map_rows3 _ _ _ _ _ _ _ _ _ Hcs Hss Hsh Hq Hcol).
    rewrite (Hc r col q Hq Hcol). reflexivity.
Qed.

Lemma genswitchkey_loop_run (rkg : RKG) (sk : loc) (crp : list loc)
    (h : list Ring.Poly) (nz : nat → Ring.Poly) (d n : nat) :
  wf_ctx (bfvContext rkg) →
  Z.of_nat n ≤ Beta (bfvContext rkg) →
  share_inputs rkg sk crp h nz d n →
  ∀ (fuel i : nat) (outs : list Ring.Poly) (evakey : list loc),
    (i + fuel = n)%nat → length outs = i →
    ∃ news,
      genswitchkey_loop fuel i rkg sk crp evakey (mkWorld (h ++ outs) nz (d + i))
        = Ok (evakey ++ seq (length h + i) fuel,
              mkWorld (h ++ outs ++ news) nz (d + n)) ∧
      length news = fuel ∧
      ∀ t, (t < fuel)%nat →
        ∃ o, news !! t = Some o ∧
             shaped (ContextKeys (bfvContext rkg)) o ∧
             ∀ r col q,
               Ring.Modulus (ContextKeys (bfvContext rkg)) !! r = Some q →
               (col < Z.to_nat (Ring.N (ContextKeys (bfvContext rkg))))%nat →
               coeff o r col =
                 digit_coeff (injected (bfvContext rkg) (i + t) r) q
                   (coeff (nz (d + (i + t))%nat) r col)
                   (coeff (val h (polypool rkg)) r col)
                   (coeff (val h (default 0%nat (crp !! (i + t)%nat))) r col)
                   (coeff (val h sk) r col).
Proof.
  intros Hwf Hn ((p & Hp & Hps) & (sv & Hsv & Hss) & Hcrp & Hnz) fuel.
  induction fuel as [|fuel IH]; intros i outs evakey Hi Hlen.
  - exists []. simpl. unfold ret. rewrite !app_nil_r.
    replace (d + i)%nat with (d + n)%nat by lia.
    split; [done|]. split; [done|]. intros t Ht. lia.
  - destruct (Hcrp i ltac:(lia)) as (lc & cv & Hlc & Hcv & Hcs).
    destruct (genswitchkey_loop_step fuel i rkg sk crp evakey (h ++ outs) nz (d + i)
                p sv cv lc Hwf ltac:(lia)) as (o & Hstep & Hos & Hoc); try done.
    { rewrite lookup_app_l by (by eapply lookup_lt_Some). done. }
    { apply Hnz. lia. }
    { rewrite lookup_app_l by (by eapply lookup_lt_Some). done. }
    { rewrite lookup_app_l by (by eapply lookup_lt_Some). done. }
    destruct (IH (S i) (outs ++ [o]) (evakey ++ [length (h ++ outs)]))
      as (news & Hrun & Hnl & Hnc).
    { lia. }
    { rewrite length_app. simpl. lia. }
    exists (o :: news). split; [|split].
    + rewrite Hstep. rewrite <- app_assoc.
      replace (S (d + i)) with (d + S i)%nat by lia.
      rewrite Hrun. rewrite <- !app_assoc. simpl.
      rewrite length_app, Hlen.
      replace (length h + S i)%nat with (S (length h + i)) by lia. done.
    + simpl. lia.
    + intros t Ht. destruct t as [|t].
      * exists o. split; [done|]. split; [done|].
        intros r col q Hq Hcol. rewrite (Hoc r col q Hq Hcol).
        rewrite Nat.add_0_r. unfold val. rewrite Hp, Hsv, Hlc. simpl. rewrite Hcv. done.
      * destruct (Hnc t ltac:(lia)) as (o' & Ho' & Hs' & Hc').
        exists o'. split; [done|]. split; [done|].
        intros r col q Hq Hcol. rewrite (Hc' r col q Hq Hcol).
        replace (S i + t)%nat with (i + S t)%nat by lia. done.
Qed.

Lemma genswitchkey_run (rkg : RKG) (sk_in sk : loc) (crp : list loc)
    (h : list Ring.Poly) (nz : nat → Ring.Poly) (d : nat) :
  wf_ctx (bfvContext rkg) →
  share_inputs rkg sk crp h nz d (Z.to_nat (Beta (bfvContext rkg))) →
  ∃ news,
    genswitchkey rkg sk_in sk crp (mkWorld h nz d)
      = Ok (seq (length h) (Z.to_nat (Beta (bfvContext rkg))),
            mkWorld (h ++ news) nz (d + Z.to_nat (Beta (bfvContext rkg)))) ∧
    length news = Z.to_nat (Beta (bfvContext rkg)) ∧
    ∀ t, (t < Z.to_nat (Beta (bfvContext rkg)))%nat →
      ∃ o, news !! t = Some o ∧
           shaped (ContextKeys (bfvContext rkg)) o ∧
           ∀ r col q,
             Ring.Modulus (ContextKeys (bfvContext rkg)) !! r = Some q →
             (col < Z.to_nat (Ring.N (ContextKeys (bfvContext rkg))))%nat →
             coeff o r col =
               digit_coeff (injected (bfvContext rkg) t r) q
                 (coeff (nz (d + t)%nat) r col)
                 (coeff (val h (polypool rkg)) r col)
                 (coeff (val h (default 0%nat (crp !! t))) r col)
                 (coeff (val h sk) r col).
Proof.
  intros Hwf Hin.
  assert (Hn : Z.of_nat (Z.to_nat (Beta (bfvContext rkg))) ≤ Beta (bfvContext rkg)).
  { destruct Hwf as (_ & _ & _ & _ & _ & Hb & _). lia. }
  destruct (genswitchkey_loop_run rkg sk crp h nz d _ Hwf Hn Hin
              (Z.to_nat (Beta (bfvContext rkg))) 0 [] [] eq_refl eq_refl)
    as (news & Hrun & Hlen & Hc).
  exists news. unfold genswitchkey.
  rewrite app_nil_r, !Nat.add_0_r in Hrun. simpl in Hrun.
  split; [exact Hrun|]. split; [exact Hlen|]. exact Hc.
Qed.

(** ** [genswitchkey] does not read its first parameter *)

(** C9. The result of [genswitchkey] is the same for any two polynomials
    passed as [sk_in], the instance (and so its scratch buffer), [sk_out],
    the CRP and the machine state (heap and sampler draws) being the same;
    on well-formed inputs the polynomial injected into the digits is the
    content of [rkg.polypool], whatever [sk_in] is. *)
Theorem genswitchkey_ignores_sk_in (rkg : RKG) (p q sk_out : loc)
    (crp : list loc) (w : World) :
  let c := ContextKeys (bfvContext rkg) in
  let n := Z.to_nat (Beta (bfvContext rkg)) in
  genswitchkey rkg p sk_out crp w = genswitchkey rkg q sk_out crp w ∧
  (wf_ctx (bfvContext rkg) →
   share_inputs rkg sk_out crp (heap w) (noise w) (drawn w) n →
   ∃ evakey w',
     genswitchkey rkg p sk_out crp w = Ok (evakey, w') ∧
     genswitchkey rkg q sk_out crp w = Ok (evakey, w') ∧
     length evakey = n ∧
     ∀ t, (t < n)%nat →
       ∃ l o,
         evakey !! t = Some l ∧ heap w' !! l = Some o ∧
         ∀ r col q0,
           Ring.Modulus c !! r = Some q0 → (col < Z.to_nat (Ring.N c))%nat →
           coeff o r col =
             digit_coeff (injected (bfvContext rkg) t r) q0
               (coeff (noise w (drawn w + t)%nat) r col)
               (coeff (val (heap w) (polypool rkg)) r col)
               (coeff (val (heap w) (default 0%nat (crp !! t))) r col)
               (coeff (val (heap w) sk_out) r col)).
Proof.
  intros c n. subst c n. split; [reflexivity|].
  intros Hwf Hin. destruct w as [h nz d]. cbn [heap noise drawn] in *.
  destruct (genswitchkey_run rkg p sk_out crp h nz d Hwf Hin)
    as (news & Hrun & Hlen & Hc).
  eexists _, _. split; [exact Hrun|]. split; [exact Hrun|].
  split; [by rewrite length_seq|].
  intros t Ht. destruct (Hc t Ht) as (o & Ho & _ & Hoc).
  exists (length h + t)%nat, o. split; [by apply lookup_seq_lt|]. split.
  - cbn [heap]. rewrite lookup_app_r by lia.
    by replace (length h + t - length h)%nat with t by lia.
  - exact Hoc.
Qed.

(** ** The share generators *)

Lemma scale_by_primes_run (c : Ring.Context) (pool : loc) (nz : nat → Ring.Poly)
    (d : nat) (primes : list Z) :
  ∀ (h : list Ring.Poly) (v : Ring.Poly),
    h !! pool = Some v →
    scale_by_primes c pool primes (mkWorld h nz d)
      = Ok (tt, mkWorld (<[pool := fold_left (Ring.MulScalar_poly c) primes v]> h) nz d).
Proof.
  induction primes as [|pj primes IH]; intros h v Hv.
  - simpl. unfold ret. by rewrite list_insert_id.
  - pose proof (lookup_lt_Some _ _ _ Hv) as Hlt.
    cbn [scale_by_primes fold_left]. unfold Context_MulScalar.
    erewrite (bind_run (do x <- load _ ;; _)); cycle 1.
    { apply (unary_run (λ x, Ring.MulScalar_poly c x pj)); [exact Hv|exact Hlt]. }
    cbn [heap noise drawn].
    rewrite (IH _ (Ring.MulScalar_poly c v pj)) by (by apply list_lookup_insert_eq).
    by rewrite list_insert_insert_eq.
Qed.

Lemma gen_share_run (PermuteNTT : Ring.Poly → Z → Ring.Poly) (rkg : RKG) (sk : loc)
    (g : Z) (crp : list loc) (h : list Ring.Poly) (nz : nat → Ring.Poly) (d : nat)
    (skv : Ring.Poly) :
  sk ≠ polypool rkg → (polypool rkg < length h)%nat → h !! sk = Some skv →
  gen_share PermuteNTT rkg sk g crp (mkWorld h nz d)
    = genswitchkey rkg (polypool rkg) sk crp
        (mkWorld (<[polypool rkg := prepare PermuteNTT (bfvContext rkg) skv g]> h) nz d).
Proof.
  intros Hne Hlt Hsk. unfold gen_share, Ring_PermuteNTT, Context_Sub, Context_InvMForm.
  erewrite (bind_run (do v <- load _ ;; _)); cycle 1.
  { apply (unary_run (λ v, PermuteNTT v g)); [exact Hsk|exact Hlt]. }
  cbn [heap noise drawn].
  erewrite (bind_run (do v1 <- load _ ;; _)); cycle 1.
  { apply binary_run; cbn [heap].
    - by apply list_lookup_insert_eq.
    - rewrite list_lookup_insert_ne by done. exact Hsk.
    - by rewrite length_insert. }
  cbn [heap noise drawn]. rewrite list_insert_insert_eq.
  erewrite (bind_run (scale_by_primes _ _ _)); cycle 1.
  { apply scale_by_primes_run. by apply list_lookup_insert_eq. }
  rewrite list_insert_insert_eq.
  erewrite (bind_run (do v <- load _ ;; _)); cycle 1.
  { apply unary_run; cbn [heap].
    - by apply list_lookup_insert_eq.
    - by rewrite length_insert. }
  cbn [heap noise drawn]. rewrite list_insert_insert_eq. reflexivity.
Qed.

Lemma generateShare_gen_share (PermuteNTT : Ring.Poly → Z → Ring.Poly) (rkg : RKG)
    (sel : selector) (sk : loc) (crp : list loc) (g : Z) (w : World) :
  selector_element rkg sel = Ok g →
  generateShare PermuteNTT rkg sel sk crp w = gen_share PermuteNTT rkg sk g crp w.
Proof.
  destruct sel as [k|k|]; simpl; intros Hg.
  - unfold GenShareRotLeft, bind at 1, lift. rewrite Hg. reflexivity.
  - unfold GenShareRotRight, bind at 1, lift. rewrite Hg. reflexivity.
  - injection Hg as <-. reflexivity.
Qed.

(** ** Arithmetic of an output coefficient *)

Lemma CRed_add (q e p : Z) :
  0 < q < 2 ^ 60 → 0 ≤ e < q → 0 ≤ p < q →
  Ring.CRed (add64 e p) q = (e + p) mod q.
Proof.
  intros Hq He Hp.
  assert (Hadd : add64 e p = e + p).
  { unfold add64. apply wrap64_small. change (2 ^ 64) with (16 * 2 ^ 60). lia. }
  unfold Ring.CRed. rewrite Hadd.
  destruct (Z.leb_spec q (e + p)) as [Hge|Hlt].
  - unfold sub64. rewrite wrap64_small
      by (change (2 ^ 64) with (16 * 2 ^ 60); lia).
    apply (Z.mod_unique _ _ 1); lia.
  - symmetry. apply Z.mod_small. lia.
Qed.

Lemma mod_shift_inj (q x y c : Z) :
  0 < q → 0 ≤ x < q → 0 ≤ y < q → (x + c) mod q = (y + c) mod q → x = y.
Proof.
  intros Hq Hx Hy Heq.
  pose proof (Z.div_mod (x + c) q ltac:(lia)) as H1.
  pose proof (Z.div_mod (y + c) q ltac:(lia)) as H2.
  rewrite Heq in H1.
  assert (Hd : x - y = q * ((x + c) / q - (y + c) / q)) by lia.
  assert ((x + c) / q - (y + c) / q = 0) by nia.
  lia.
Qed.

Lemma odd_coprime_radix (q : Z) : Z.odd q = true → Z.coprime (2 ^ 64) q.
Proof.
  intros Hodd. apply Z.coprime_pow_l; [lia|].
  apply Z.coprime_prime_l; [apply Z.prime_2|].
  intros Hdiv. apply Z.mod_divide in Hdiv; [|lia].
  rewrite Zmod_odd, Hodd in Hdiv. discriminate.
Qed.

Lemma MForm_inj (q x y : Z) :
  0 < q → Z.odd q = true → 0 ≤ x < q → 0 ≤ y < q →
  Ring.MForm q x = Ring.MForm q y → x = y.
Proof.
  intros Hq Hodd Hx Hy Heq. unfold Ring.MForm in Heq.
  assert (H0 : ((x - y) * 2 ^ 64) mod q = 0).
  { rewrite Z.mul_sub_distr_r, Zminus_mod, Heq, Z.sub_diag. apply Z.mod_0_l. lia. }
  apply Z.cong_mul_cancel_r_coprime in H0; [|lia|by apply odd_coprime_radix].
  apply (mod_shift_inj q x y (- y)); try lia.
  replace (x + - y) with (x - y) by lia. rewrite H0.
  replace (y + - y) with 0 by lia. symmetry. apply Z.mod_0_l. lia.
Qed.

(** On reduced inputs a coefficient of a digit is the Montgomery form of
    [e + factor * p - MRed(a, s)] modulo [q]. *)
Lemma digit_coeff_formula (inj : bool) (q e p a s : Z) :
  0 < q < 2 ^ 60 → 0 ≤ e < q → 0 ≤ p < q →
  digit_coeff inj q e p a s
    = Ring.MForm q ((e + (if inj then p else 0) - Ring.MRed q a s) mod q).
Proof.
  intros Hq He Hp. unfold digit_coeff. destruct inj.
  - rewrite CRed_add by done. by rewrite Zminus_mod_idemp_l.
  - by rewrite Z.add_0_r.
Qed.

(** For fixed scratch, CRP and secret coefficients the output coefficient
    determines the noise coefficient. *)
Lemma digit_coeff_inj (inj : bool) (q e e' p a s : Z) :
  0 < q < 2 ^ 60 → Z.odd q = true →
  0 ≤ e < q → 0 ≤ e' < q → 0 ≤ p < q →
  digit_coeff inj q e p a s = digit_coeff inj q e' p a s → e = e'.
Proof.
  intros Hq Hodd He He' Hp Heq.
  rewrite !digit_coeff_formula in Heq by done.
  apply MForm_inj in Heq; try done; try lia;
    try (apply Z.mod_pos_bound; lia).
  apply (mod_shift_inj q e e' ((if inj then p else 0) - Ring.MRed q a s));
    try lia.
  rewrite !Z.add_sub_assoc. exact Heq.
Qed.

Lemma injected_covers (bc : BfvContext) (i r : nat) :
  injected bc i r =
    covers bc i r ||
    ((Z.of_nat r =? Z.of_nat (length (Ring.Modulus (ContextQ bc)))) &&
     (Z.of_nat i * Alpha bc <=? Z.of_nat r) &&
     (Z.of_nat r <? Z.of_nat i * Alpha bc + Alpha bc)).
Proof.
  unfold injected, injected_from, covers. rewrite Z.add_0_r.
  split_comparisons; try done; lia.
Qed.

(** When [Alpha] divides the length of the modulus chain, the rows that
    receive the injection are exactly the primes covered by the digit. *)
Lemma injected_covers_exact (bc : BfvContext) (i r : nat) :
  wf_ctx bc → Z.of_nat i < Beta bc →
  Z.of_nat (length (Ring.Modulus (ContextQ bc))) = Beta bc * Alpha bc →
  injected bc i r = covers bc i r.
Proof.
  intros (_ & _ & _ & _ & Ha & Hb & _) Hi Hmul.
  rewrite injected_covers.
  destruct (covers bc i r); [done|]. simpl.
  split_comparisons; try done. exfalso. nia.
Qed.

Lemma shaped_prepare (PermuteNTT : Ring.Poly → Z → Ring.Poly) (bc : BfvContext)
    (skv : Ring.Poly) (g : Z) :
  (∀ p g, shaped (ContextKeys bc) p → shaped (ContextKeys bc) (PermuteNTT p g)) →
  shaped (ContextKeys bc) skv →
  shaped (ContextKeys bc) (prepare PermuteNTT bc skv g).
Proof.
  intros HP Hs. unfold prepare. apply shape_map_rows.
  assert (H : ∀ primes v, shaped (ContextKeys bc) v →
            shaped (ContextKeys bc)
              (fold_left (Ring.MulScalar_poly (ContextKeys bc)) primes v)).
  { induction primes as [|pj primes IH]; intros v Hv; [done|].
    simpl. apply IH. by apply shape_map_rows. }
  apply H. apply shape_map_rows2; [by apply HP|done].
Qed.

Lemma reduced_prepare (PermuteNTT : Ring.Poly → Z → Ring.Poly) (bc : BfvContext)
    (skv : Ring.Poly) (g : Z) :
  (∀ p g, shaped (ContextKeys bc) p → shaped (ContextKeys bc) (PermuteNTT p g)) →
  shaped (ContextKeys bc) skv →
  Forall (λ q, 0 < q) (Ring.Modulus (ContextKeys bc)) →
  reduced (ContextKeys bc) (prepare PermuteNTT bc skv g).
Proof.
  intros HP Hs Hpos r q col Hq Hcol. unfold prepare, Ring.InvMForm_poly.
  erewrite coeff_map_rows; [| |exact Hq|exact Hcol].
  - apply Z.mod_pos_bound. exact (Forall_lookup_1 _ _ _ _ Hpos Hq).
  - assert (H : ∀ primes v, shaped (ContextKeys bc) v →
              shaped (ContextKeys bc)
                (fold_left (Ring.MulScalar_poly (ContextKeys bc)) primes v)).
    { induction primes as [|pj primes IH]; intros v Hv; [done|].
      simpl. apply IH. by apply shape_map_rows. }
    apply H. apply shape_map_rows2; [by apply HP|done].
Qed.

(** A call of [generateShare]: the scratch buffer is overwritten with the
    prepared polynomial, [Beta] draws are consumed, and one fresh
    polynomial per digit is appended to the heap. *)
Lemma generateShare_run (PermuteNTT : Ring.Poly → Z → Ring.Poly) (rkg : RKG)
    (sel : selector) (sk : loc) (crp : list loc)
    (h : list Ring.Poly) (nz : nat → Ring.Poly) (d : nat) :
  gen_ready PermuteNTT rkg sel sk crp (mkWorld h nz d) →
  ∃ g skv news,
    selector_element rkg sel = Ok g ∧
    h !! sk = Some skv ∧
    generateShare PermuteNTT rkg sel sk crp (mkWorld h nz d)
      = Ok (seq (length h) (Z.to_nat (Beta (bfvContext rkg))),
            mkWorld (<[polypool rkg := prepare PermuteNTT (bfvContext rkg) skv g]> h
                       ++ news)
                    nz (d + Z.to_nat (Beta (bfvContext rkg)))) ∧
    length news = Z.to_nat (Beta (bfvContext rkg)) ∧
    ∀ t, (t < Z.to_nat (Beta (bfvContext rkg)))%nat →
      ∃ o lc cv,
        news !! t = Some o ∧ crp !! t = Some lc ∧ h !! lc = Some cv ∧
        shaped (ContextKeys (bfvContext rkg)) o ∧
        ∀ r col q,
          Ring.Modulus (ContextKeys (bfvContext rkg)) !! r = Some q →
          (col < Z.to_nat (Ring.N (ContextKeys (bfvContext rkg))))%nat →
          coeff o r col =
            digit_coeff (injected (bfvContext rkg) t r) q
              (coeff (nz (d + t)%nat) r col)
              (coeff (prepare PermuteNTT (bfvContext rkg) skv g) r col)
              (coeff cv r col)
              (coeff skv r col).
Proof.
  intros (Hwf & HP & (g & Hg) & Hne & Hlt & (skv & Hsk & Hss) & Hcrp & Hnz).
  cbn [heap noise drawn] in *.
  set (pv := prepare PermuteNTT (bfvContext rkg) skv g).
  set (h' := <[polypool rkg := pv]> h).
  assert (Hin : share_inputs rkg sk crp h' nz d (Z.to_nat (Beta (bfvContext rkg)))).
  { split; [|split; [|split]].
    - exists pv. split; [by apply list_lookup_insert_eq|]. by apply shaped_prepare.
    - exists skv. unfold h'. by rewrite list_lookup_insert_ne.
    - intros t Ht. destruct (Hcrp t Ht) as (lc & cv & Hlc & Hlne & Hcv & Hcs).
      exists lc, cv. unfold h'. by rewrite list_lookup_insert_ne.
    - done. }
  destruct (genswitchkey_run rkg (polypool rkg) sk crp h' nz d Hwf Hin)
    as (news & Hrun & Hlen & Hc).
  exists g, skv, news. split; [done|]. split; [done|]. split; [|split; [done|]].
  - rewrite (generateShare_gen_share _ _ _ _ _ g _ Hg).
    rewrite (gen_share_run _ _ _ _ _ _ _ _ skv Hne Hlt Hsk).
    fold pv h'. rewrite Hrun. unfold h'. by rewrite length_insert.
  - intros t Ht. destruct (Hc t Ht) as (o & Ho & Hos & Hoc).
    destruct (Hcrp t Ht) as (lc & cv & Hlc & Hlne & Hcv & Hcs).
    exists o, lc, cv. split; [done|]. split; [done|]. split; [done|].
    split; [done|]. intros r col q Hq Hcol. rewrite (Hoc r col q Hq Hcol).
    unfold val, h'. rewrite Hlc. simpl.
    rewrite list_lookup_insert_eq by done.
    rewrite !list_lookup_insert_ne by done. rewrite Hcv, Hsk. done.
Qed.

(** C8. Every call of [generateShare] consumes [Beta] draws of the sampler,
    one per digit, and its output determines them: two calls on the same
    instance, heap, selector, secret share and CRP whose sequences of
    [Beta] (reduced) draws differ return shares that differ. *)
Theorem generateShare_fresh_noise (PermuteNTT : Ring.Poly → Z → Ring.Poly)
    (rkg : RKG) (sel : selector) (sk : loc) (crp : list loc)
    (h : list Ring.Poly) (nz1 nz2 : nat → Ring.Poly) (d : nat) :
  let c := ContextKeys (bfvContext rkg) in
  let n := Z.to_nat (Beta (bfvContext rkg)) in
  bounded_moduli c → odd_moduli c →
  gen_ready PermuteNTT rkg sel sk crp (mkWorld h nz1 d) →
  gen_ready PermuteNTT rkg sel sk crp (mkWorld h nz2 d) →
  (∀ t, (t < n)%nat → reduced c (nz1 (d + t)%nat) ∧ reduced c (nz2 (d + t)%nat)) →
  (∃ t, (t < n)%nat ∧ nz1 (d + t)%nat ≠ nz2 (d + t)%nat) →
  ∃ evakey w1 w2,
    generateShare PermuteNTT rkg sel sk crp (mkWorld h nz1 d) = Ok (evakey, w1) ∧
    generateShare PermuteNTT rkg sel sk crp (mkWorld h nz2 d) = Ok (evakey, w2) ∧
    length evakey = n ∧
    drawn w1 = (d + n)%nat ∧ drawn w2 = (d + n)%nat ∧
    ∃ l, l ∈ evakey ∧ heap w1 !! l ≠ heap w2 !! l.
Proof.
  intros c n Hb Hodd Hr1 Hr2 Hred (t & Ht & Hdiff). subst c n.
  pose proof Hr1 as (Hwf & HP & _ & _ & Hlt & (sv & Hsv & Hss) & _ & Hnz1).
  pose proof Hr2 as (_ & _ & _ & _ & _ & _ & _ & Hnz2).
  cbn [heap noise drawn] in *.
  destruct (generateShare_run _ _ _ _ _ _ _ _ Hr1)
    as (g & skv & news1 & Hg & Hsk & Hrun1 & Hlen1 & Hc1).
  destruct (generateShare_run _ _ _ _ _ _ _ _ Hr2)
    as (g' & skv' & news2 & Hg' & Hsk' & Hrun2 & Hlen2 & Hc2).
  assert (g' = g) as -> by congruence. assert (skv' = skv) as -> by congruence.
  assert (skv = sv) as -> by congruence.
  eexists _, _, _. split; [exact Hrun1|]. split; [exact Hrun2|].
  split; [by rewrite length_seq|]. split; [done|]. split; [done|].
  exists (length h + t)%nat. split; [apply elem_of_seq; lia|].
  cbn [heap]. rewrite !lookup_app_r by (rewrite length_insert; lia).
  rewrite length_insert. replace (length h + t - length h)%nat with t by lia.
  destruct (Hc1 t Ht) as (o1 & lc & cv & Ho1 & Hlc & Hcv & Hos1 & Hoc1).
  destruct (Hc2 t Ht) as (o2 & lc' & cv' & Ho2 & Hlc' & Hcv' & Hos2 & Hoc2).
  assert (lc' = lc) as -> by congruence. assert (cv' = cv) as -> by congruence.
  rewrite Ho1, Ho2. intros [= Heq]. apply Hdiff.
  apply (poly_ext _ _ _ _ (Hnz1 t Ht) (Hnz2 t Ht)). intros r col Hr Hcol.
  destruct (lookup_lt_is_Some_2 _ r Hr) as [q Hq].
  pose proof (Hoc1 r col q Hq Hcol) as H1.
  pose proof (Hoc2 r col q Hq Hcol) as H2.
  rewrite Heq in H1. rewrite H1 in H2.
  destruct (Hred t Ht) as [Hre1 Hre2].
  assert (Hpos : Forall (λ q, 0 < q) (Ring.Modulus (ContextKeys (bfvContext rkg)))).
  { eapply Forall_impl; [exact Hb|]. simpl. intros; lia. }
  eapply digit_coeff_inj; [| | | | |exact H2].
  - exact (modulus_bound _ _ _ Hb Hq).
  - exact (proj2 (Forall_lookup_1 _ _ _ _ Hodd Hq)).
  - by apply Hre1.
  - by apply Hre2.
  - by apply (reduced_prepare PermuteNTT (bfvContext rkg) sv g HP Hss Hpos).
Qed.

(** C10. Aggregation writes to no polynomial allocated when it is called
    (share polynomials and CRP are only read): its result lives in fresh,
    pairwise distinct storage, and that is what the aggregators file in
    the accumulator.  Share generation writes, among the polynomials
    allocated when it is called, to the scratch buffer only; in particular
    the caller's secret share is unchanged, and the output is fresh. *)
Theorem inputs_unmodified_results_fresh (PermuteNTT : Ring.Poly → Z → Ring.Poly)
    (rkg : RKG) (samples : list (list loc)) (crp : list loc)
    (sel : selector) (sk : loc) (crp' : list loc) (w : World) :
  usable (heap w) samples crp (Z.to_nat (Beta (bfvContext rkg))) →
  gen_ready PermuteNTT rkg sel sk crp' w →
  (∃ receiver w',
     aggregate rkg samples crp w = Ok (receiver, w') ∧
     (∀ l, (l < length (heap w))%nat → heap w' !! l = heap w !! l) ∧
     (∀ i b a, receiver !! i = Some (b, a) →
        (length (heap w) ≤ b)%nat ∧ (length (heap w) ≤ a)%nat ∧ b ≠ a ∧
        ∀ j b' a', j ≠ i → receiver !! j = Some (b', a') →
          b ≠ b' ∧ b ≠ a' ∧ a ≠ b' ∧ a ≠ a') ∧
     (∀ k, AggregateRotColL rkg samples k crp w
             = Ok (set_rot_col_L (<[col_mask rkg k := receiver]> (rot_col_L rkg)) rkg, w')) ∧
     (∀ k, AggregateRotColR rkg samples k crp w
             = Ok (set_rot_col_R (<[col_mask rkg k := receiver]> (rot_col_R rkg)) rkg, w')) ∧
     AggregateRotRow rkg samples crp w = Ok (set_rot_row (Some receiver) rkg, w')) ∧
  (∃ evakey w',
     generateShare PermuteNTT rkg sel sk crp' w = Ok (evakey, w') ∧
     (∀ l, (l < length (heap w))%nat → l ≠ polypool rkg →
        heap w' !! l = heap w !! l) ∧
     heap w' !! sk = heap w !! sk ∧
     (∀ l, l ∈ evakey → (length (heap w) ≤ l)%nat) ∧
     NoDup evakey).
Proof.
  intros Hu Hr. destruct w as [h nz d]. cbn [heap] in *. split.
  - pose proof (aggregate_run rkg samples crp h nz d Hu) as Hrun.
    eexists _, _. split; [exact Hrun|]. cbn [heap].
    split; [|split; [|split; [|split]]].
    + intros l Hl. by rewrite lookup_app_l.
    + intros i b a Hi.
      apply list_lookup_fmap_Some in Hi as (k & Heq & Hk).
      injection Heq as -> ->.
      split; [lia|]. split; [lia|]. split; [lia|].
      intros j b' a' Hne Hj.
      apply list_lookup_fmap_Some in Hj as (k' & Heq & Hk').
      injection Heq as -> ->.
      apply lookup_seq in Hk as [-> _]. apply lookup_seq in Hk' as [-> _]. lia.
    + intros k. unfold AggregateRotColL. fold (col_mask rkg k).
      by rewrite (bind_run _ _ _ _ _ Hrun).
    + intros k. unfold AggregateRotColR. fold (col_mask rkg k).
      by rewrite (bind_run _ _ _ _ _ Hrun).
    + unfold AggregateRotRow. by rewrite (bind_run _ _ _ _ _ Hrun).
  - pose proof Hr as (_ & _ & _ & Hne & Hlt & _).
    destruct (generateShare_run _ _ _ _ _ _ _ _ Hr)
      as (g & skv & news & Hg & Hsk & Hrun & Hlen & Hc).
    eexists _, _. split; [exact Hrun|]. cbn [heap].
    split; [|split; [|split]].
    + intros l Hl Hlp. rewrite lookup_app_l by (by rewrite length_insert).
      by rewrite list_lookup_insert_ne.
    + pose proof (lookup_lt_Some _ _ _ Hsk).
      rewrite lookup_app_l by (by rewrite length_insert).
      by rewrite list_lookup_insert_ne.
    + intros l Hl. apply elem_of_seq in Hl. lia.
    + apply NoDup_seq.
Qed.

(** ** Inputs shorter than [Beta]: index out of range *)

Lemma min_len_le_crp (samples : list (list loc)) (crp : list loc) :
  (min_len samples crp ≤ length crp)%nat.
Proof. unfold min_len. induction samples; cbn [foldr fmap list_fmap]; lia. Qed.

Lemma min_len_le (samples : list (list loc)) (crp : list loc) (st : list loc) :
  st ∈ samples → (min_len samples crp ≤ length st)%nat.
Proof.
  unfold min_len. induction samples as [|s samples IH]; intros Hin.
  - by apply elem_of_nil in Hin.
  - apply elem_of_cons in Hin as [->|Hin]; cbn [foldr fmap list_fmap]; [lia|].
    specialize (IH Hin). lia.
Qed.

Lemma min_len_attained (samples : list (list loc)) (crp : list loc) :
  length crp = min_len samples crp ∨
  Exists (λ st, length st = min_len samples crp) samples.
Proof.
  unfold min_len.
  induction samples as [|s samples IH]; cbn [foldr fmap list_fmap]; [by left|].
  destruct (decide (length s ≤ foldr Nat.min (length crp) (length <$> samples))%nat)
    as [Hle|Hgt].
  - right. apply Exists_cons_hd. lia.
  - rewrite Nat.min_r by lia. destruct IH as [IH|IH]; [by left|].
    right. by apply Exists_cons_tl.
Qed.

Lemma allocated_lookup (h : list Ring.Poly) (ls : list loc) (i : nat) :
  allocated h ls → (i < length ls)%nat →
  ∃ l, ls !! i = Some l ∧ (l < length h)%nat ∧ h !! l = Some (val h l).
Proof.
  intros Hall Hi. destruct (lookup_lt_is_Some_2 ls i Hi) as [l Hl].
  pose proof (Forall_lookup_1 _ _ _ _ Hall Hl) as Hlt. simpl in Hlt.
  exists l. split; [done|]. split; [done|]. unfold val.
  destruct (lookup_lt_is_Some_2 h l Hlt) as [v ->]. done.
Qed.

Lemma allocated_extend (h t : list Ring.Poly) (ls : list loc) :
  allocated h ls → allocated (h ++ t) ls.
Proof.
  intros Hall. eapply Forall_impl; [exact Hall|].
  simpl. intros l Hl. rewrite length_app. lia.
Qed.

Lemma aggregate_sum_panic (c : Ring.Context) (samples : list (list loc)) (m : nat)
    (h : list Ring.Poly) (a : Ring.Poly) (nz : nat → Ring.Poly) (d : nat) :
  ∀ (rest : list (list loc)) (j : nat) (acc : Ring.Poly),
    drop j samples = rest →
    Forall (λ st, (m ≤ length st)%nat ∧ allocated h st) rest →
    Exists (λ st, length st = m) rest →
    aggregate_sum (length rest) j c samples m (length h) (mkWorld (h ++ [acc; a]) nz d)
      = Panic (IndexOutOfRange m m).
Proof.
  induction rest as [|st rest IH]; intros j acc Hdrop Hall Hex.
  - by apply Exists_nil in Hex.
  - apply Forall_cons in Hall as [[Hlen Hst] Hall].
    apply drop_cons_inv in Hdrop as [Hj Hdrop].
    simpl length. cbn [aggregate_sum].
    rewrite (bind_run _ _ _ _ _ (lift_idx_run _ _ _ _ Hj)).
    destruct (decide (length st = m)) as [Hm|Hm].
    + apply bind_panic. rewrite lift_idx_panic by lia. by rewrite Hm.
    + apply Exists_cons in Hex as [Hex|Hex]; [done|].
      destruct (allocated_lookup h st m Hst ltac:(lia)) as (l & Hl & Hlt & Hv).
      rewrite (bind_run _ _ _ _ _ (lift_idx_run _ _ _ _ Hl)).
      unfold Context_AddNoMod.
      erewrite (bind_run (do v1 <- load _ ;; _)); cycle 1.
      { apply binary_run; simpl.
        - apply lookup_snoc2_0.
        - rewrite lookup_app_l by done. exact Hv.
        - rewrite length_app. simpl. lia. }
      simpl heap. rewrite insert_snoc2_0. simpl.
      destruct (Z.land (Z.of_nat j) 7 =? 7).
      * unfold Context_Reduce.
        erewrite (bind_run (do v1 <- load _ ;; _)); cycle 1.
        { apply unary_run; simpl.
          - apply lookup_snoc2_0.
          - rewrite length_app. simpl. lia. }
        simpl heap. rewrite insert_snoc2_0. simpl.
        by apply IH.
      * rewrite (bind_run (ret tt) _ _ tt _ eq_refl).
        by apply IH.
Qed.

(** The digit at which the shortest vector ends. *)
Lemma aggregate_loop_panic_at (fuel : nat) (rkg : RKG) (samples : list (list loc))
    (crp : list loc) (receiver : list (nat * nat)) (h : list Ring.Poly)
    (nz : nat → Ring.Poly) (d : nat) :
  samples ≠ [] →
  Forall (allocated h) samples → allocated h crp →
  aggregate_loop (S fuel) (min_len samples crp) rkg samples crp receiver
    (mkWorld h nz d)
    = Panic (IndexOutOfRange (min_len samples crp) (min_len samples crp)).
Proof.
  intros Hne Hs Hc. set (m := min_len samples crp).
  destruct samples as [|s0 rest]; [done|].
  apply Forall_cons in Hs as [Hs0 Hrest].
  pose proof (min_len_le (s0 :: rest) crp s0 ltac:(left)) as Hm0. fold m in Hm0.
  pose proof (min_len_le_crp (s0 :: rest) crp) as Hmc. fold m in Hmc.
  cbn [aggregate_loop].
  rewrite (bind_run _ _ _ _ _ (lift_idx_run (s0 :: rest) 0 s0 _ eq_refl)).
  destruct (decide (length s0 = m)) as [H0|H0].
  { apply bind_panic. rewrite lift_idx_panic by lia. by rewrite H0. }
  destruct (allocated_lookup h s0 m Hs0 ltac:(lia)) as (l0 & Hl0 & Hlt0 & Hv0).
  rewrite (bind_run _ _ _ _ _ (lift_idx_run _ _ _ _ Hl0)).
  rewrite (bind_run _ _ _ _ _ (CopyNew_run l0 _ (mkWorld h nz d) Hv0)).
  cbn [heap noise drawn].
  destruct (decide (length crp = m)) as [Hcm|Hcm].
  { apply bind_panic. rewrite lift_idx_panic by lia. by rewrite Hcm. }
  destruct (allocated_lookup h crp m Hc ltac:(lia)) as (lc & Hlc & Hltc & Hvc).
  rewrite (bind_run _ _ _ _ _ (lift_idx_run _ _ _ _ Hlc)).
  erewrite (bind_run (CopyNew lc)); cycle 1.
  { apply CopyNew_run. cbn [heap]. rewrite lookup_app_l by done. exact Hvc. }
  cbn [heap noise drawn].
  rewrite <- app_assoc. cbn [app].
  rewrite length_app. cbn [length]. rewrite Nat.add_1_r.
  unfold Context_MForm.
  erewrite (bind_run (do v <- load _ ;; _)); cycle 1.
  { apply unary_run; cbn [heap].
    - apply lookup_snoc2_1.
    - rewrite length_app. simpl. lia. }
  cbn [heap noise drawn]. rewrite insert_snoc2_1.
  replace (S (length rest) - 1)%nat with (length rest) by lia.
  apply bind_panic. apply aggregate_sum_panic; [done| |].
  - apply Forall_forall. intros st Hst. split.
    + apply (min_len_le (s0 :: rest) crp). by right.
    + exact (proj1 (Forall_forall _ _) Hrest st Hst).
  - destruct (min_len_attained (s0 :: rest) crp) as [Hcrp|Hex]; [done|].
    apply Exists_cons in Hex as [Hex|Hex]; [done|done].
Qed.

Lemma usable_min_len (h : list Ring.Poly) (samples : list (list loc)) (crp : list loc) :
  samples ≠ [] → Forall (allocated h) samples → allocated h crp →
  usable h samples crp (min_len samples crp).
Proof.
  intros Hne Hs Hc. split; [done|]. split.
  - intros st t Hst Ht.
    pose proof (min_len_le samples crp st Hst) as Hle.
    destruct (allocated_lookup h st t (proj1 (Forall_forall _ _) Hs st Hst) ltac:(lia))
      as (l & Hl & Hlt & _).
    eauto.
  - intros t Ht. pose proof (min_len_le_crp samples crp) as Hle.
    destruct (allocated_lookup h crp t Hc ltac:(lia)) as (l & Hl & Hlt & _).
    eauto.
Qed.

Lemma aggregate_loop_short (rkg : RKG) (samples : list (list loc)) (crp : list loc)
    (h : list Ring.Poly) (nz : nat → Ring.Poly) (d : nat) :
  samples ≠ [] → Forall (allocated h) samples → allocated h crp →
  ∀ (fuel i : nat) (t : list Ring.Poly) (receiver : list (nat * nat)),
    (i ≤ min_len samples crp < i + fuel)%nat →
    aggregate_loop fuel i rkg samples crp receiver (mkWorld (h ++ t) nz d)
      = Panic (IndexOutOfRange (min_len samples crp) (min_len samples crp)).
Proof.
  intros Hne Hs Hc fuel.
  induction fuel as [|fuel IH]; intros i t receiver Hi; [lia|].
  destruct (decide (i = min_len samples crp)) as [->|Hlt].
  - apply aggregate_loop_panic_at; [done| |by apply allocated_extend].
    eapply Forall_impl; [exact Hs|]. intros st. apply allocated_extend.
  - pose proof (usable_extend h t _ _ _ (usable_min_len h samples crp Hne Hs Hc)) as Hu.
    destruct (usable_column _ _ _ _ i Hu ltac:(lia))
      as (s0 & rest & l0 & lc & Hsm & Hl0 & Hv0 & Hlc & Hvc & Hcol & Hvals).
    rewrite (aggregate_loop_step fuel i rkg samples crp receiver (h ++ t) nz d
               s0 rest l0 lc _ _ _ Hsm Hl0 Hv0 Hlc Hvc Hvals).
    rewrite <- app_assoc. apply IH. lia.
Qed.

Lemma genswitchkey_loop_short (rkg : RKG) (sk : loc) (crp : list loc)
    (h : list Ring.Poly) (nz : nat → Ring.Poly) (d : nat) :
  wf_ctx (bfvContext rkg) →
  Z.of_nat (length crp) < Beta (bfvContext rkg) →
  share_inputs rkg sk crp h nz d (length crp) →
  shaped (ContextKeys (bfvContext rkg)) (nz (d + length crp)%nat) →
  ∀ (fuel i : nat) (outs : list Ring.Poly) (evakey : list loc),
    (i ≤ length crp < i + fuel)%nat →
    genswitchkey_loop fuel i rkg sk crp evakey (mkWorld (h ++ outs) nz (d + i))
      = Panic (IndexOutOfRange (length crp) (length crp)).
Proof.
  intros Hwf Hshort ((p & Hp & Hps) & (sv & Hsv & Hss) & Hcrp & Hnz) Hlast fuel.
  induction fuel as [|fuel IH]; intros i outs evakey Hi; [lia|].
  destruct (decide (i = length crp)) as [->|Hlt].
  - destruct (inject_digit_run rkg (length crp) (h ++ outs) nz (S (d + length crp)) p Hwf
                ltac:(rewrite lookup_app_l by (by eapply lookup_lt_Some); done) Hps
                (Z.to_nat (Alpha (bfvContext rkg))) 0 _ Hlast)
      as (e' & Hrun & _).
    { destruct Hwf as (_ & _ & _ & _ & Ha & _). lia. }
    { by apply digit_start. }
    cbn [genswitchkey_loop].
    rewrite (bind_run SampleNTTNew _ (mkWorld (h ++ outs) nz (d + length crp))
               (length (h ++ outs))
               (mkWorld ((h ++ outs) ++ [nz (d + length crp)%nat]) nz
                        (S (d + length crp))) eq_refl).
    rewrite (bind_run _ _ _ _ _ Hrun).
    apply bind_panic. by apply lift_idx_panic.
  - destruct (Hcrp i ltac:(lia)) as (lc & cv & Hlc & Hcv & Hcs).
    destruct (genswitchkey_loop_step fuel i rkg sk crp evakey (h ++ outs) nz (d + i)
                p sv cv lc Hwf ltac:(lia)) as (o & Hstep & _); try done.
    { rewrite lookup_app_l by (by eapply lookup_lt_Some). done. }
    { apply Hnz. lia. }
    { rewrite lookup_app_l by (by eapply lookup_lt_Some). done. }
    { rewrite lookup_app_l by (by eapply lookup_lt_Some). done. }
    rewrite Hstep. rewrite <- app_assoc.
    replace (S (d + i)) with (d + S i)%nat by lia.
    apply IH. lia.
Qed.

(** ** The digits of a share *)

Lemma fold_MulScalar_zero (c : Ring.Context) (r col : nat) (q : Z) :
  Ring.Modulus c !! r = Some q → (col < Z.to_nat (Ring.N c))%nat → 0 < q →
  ∀ (primes : list Z) (v : Ring.Poly),
    shaped c v →
    coeff v r col = 0 ∨ q ∈ primes →
    coeff (fold_left (Ring.MulScalar_poly c) primes v) r col = 0.
Proof.
  intros Hq Hcol Hpos primes.
  induction primes as [|pj primes IH]; intros v Hv Hor.
  - destruct Hor as [H0|Hin]; [done|]. by apply elem_of_nil in Hin.
  - cbn [fold_left]. apply IH; [by apply shape_map_rows|].
    unfold Ring.MulScalar_poly.
    rewrite (coeff_map_rows _ _ _ _ _ _ _ Hv Hq Hcol).
    destruct Hor as [H0|Hin].
    + left. rewrite H0. apply Z.mod_0_l. lia.
    + apply elem_of_cons in Hin as [->|Hin]; [|by right].
      left. apply Z.mod_mul. lia.
Qed.

(** The prepared scratch polynomial vanishes on the rows of the auxiliary
    primes: it has been scaled by each of them. *)
Lemma prepare_zero_aux (PermuteNTT : Ring.Poly → Z → Ring.Poly) (bc : BfvContext)
    (skv : Ring.Poly) (g : Z) (r col : nat) (q : Z) :
  wf_ctx bc → bounded_moduli (ContextKeys bc) →
  (∀ p g, shaped (ContextKeys bc) p → shaped (ContextKeys bc) (PermuteNTT p g)) →
  shaped (ContextKeys bc) skv →
  Ring.Modulus (ContextKeys bc) !! r = Some q →
  (col < Z.to_nat (Ring.N (ContextKeys bc)))%nat →
  (length (Ring.Modulus (ContextQ bc)) ≤ r)%nat →
  coeff (prepare PermuteNTT bc skv g) r col = 0.
Proof.
  intros Hwf Hb HP Hs Hq Hcol Hr.
  pose proof (modulus_bound _ _ _ Hb Hq) as Hqb.
  assert (Hin : q ∈ KeySwitchPrimes bc).
  { destruct Hwf as (Hm & _). rewrite Hm, lookup_app_r in Hq by done.
    by eapply list_elem_of_lookup_2. }
  assert (Hsh : ∀ primes v, shaped (ContextKeys bc) v →
            shaped (ContextKeys bc)
              (fold_left (Ring.MulScalar_poly (ContextKeys bc)) primes v)).
  { induction primes as [|pj primes IH]; intros v Hv; [done|].
    simpl. apply IH. by apply shape_map_rows. }
  assert (Hsub : shaped (ContextKeys bc)
                   (Ring.Sub_poly (ContextKeys bc) (PermuteNTT skv g) skv)).
  { apply shape_map_rows2; [by apply HP|done]. }
  unfold prepare, Ring.InvMForm_poly.
  rewrite (coeff_map_rows _ _ _ _ _ _ _ (Hsh _ _ Hsub) Hq Hcol).
  rewrite (fold_MulScalar_zero _ r col q Hq Hcol ltac:(lia) _ _ Hsub (or_intror Hin)).
  unfold Ring.InvMForm. rewrite Z.mul_0_l. apply Z.mod_0_l. lia.
Qed.

(** C1. A call through a share-generation entry point, on well-formed
    inputs with reduced noise, returns exactly [Beta] polynomials; digit
    [i] is, coefficient by coefficient and in Montgomery form,
    [noise_i + skIn * factor - crp[i] * skOut] reduced modulo the prime of
    its row, where [skIn] is the prepared difference polynomial, the
    product is the Montgomery product, and the factor is one on the
    modulus-chain primes covered by digit [i] and zero on every other
    prime. *)
Theorem generateShare_digits (PermuteNTT : Ring.Poly → Z → Ring.Poly)
    (rkg : RKG) (sel : selector) (sk : loc) (crp : list loc) (w : World) :
  let bc := bfvContext rkg in
  let c := ContextKeys bc in
  let n := Z.to_nat (Beta bc) in
  bounded_moduli c →
  gen_ready PermuteNTT rkg sel sk crp w →
  (∀ t, (t < n)%nat → reduced c (noise w (drawn w + t)%nat)) →
  ∃ g skv evakey w',
    selector_element rkg sel = Ok g ∧
    heap w !! sk = Some skv ∧
    generateShare PermuteNTT rkg sel sk crp w = Ok (evakey, w') ∧
    length evakey = n ∧
    ∀ i, (i < n)%nat →
      ∃ l o lc cv,
        evakey !! i = Some l ∧ heap w' !! l = Some o ∧
        crp !! i = Some lc ∧ heap w !! lc = Some cv ∧
        shaped c o ∧ reduced c o ∧
        ∀ r col q,
          Ring.Modulus c !! r = Some q → (col < Z.to_nat (Ring.N c))%nat →
          coeff o r col =
            Ring.MForm q
              ((coeff (noise w (drawn w + i)%nat) r col
                + (if covers bc i r
                   then coeff (prepare PermuteNTT bc skv g) r col else 0)
                - Ring.MRed q (coeff cv r col) (coeff skv r col)) mod q).
Proof.
  intros bc c n Hb Hr Hred. subst bc c n. destruct w as [h nz d].
  pose proof Hr as (Hwf & HP & _ & _ & _ & (sv & Hsv & Hss) & _ & _).
  cbn [heap noise drawn] in *.
  destruct (generateShare_run _ _ _ _ _ _ _ _ Hr)
    as (g & skv & news & Hg & Hsk & Hrun & Hlen & Hc).
  assert (skv = sv) as -> by congruence.
  exists g, sv. eexists _, _. split; [done|]. split; [done|].
  split; [exact Hrun|]. split; [by rewrite length_seq|].
  intros i Hi. destruct (Hc i Hi) as (o & lc & cv & Ho & Hlc & Hcv & Hos & Hoc).
  assert (Hpos : Forall (λ q, 0 < q) (Ring.Modulus (ContextKeys (bfvContext rkg)))).
  { eapply Forall_impl; [exact Hb|]. simpl. intros; lia. }
  assert (Hform : ∀ r col q,
            Ring.Modulus (ContextKeys (bfvContext rkg)) !! r = Some q →
            (col < Z.to_nat (Ring.N (ContextKeys (bfvContext rkg))))%nat →
            coeff o r col =
              Ring.MForm q
                ((coeff (nz (d + i)%nat) r col
                  + (if covers (bfvContext rkg) i r
                     then coeff (prepare PermuteNTT (bfvContext rkg) sv g) r col else 0)
                  - Ring.MRed q (coeff cv r col) (coeff sv r col)) mod q)).
  { intros r col q Hq Hcol. rewrite (Hoc r col q Hq Hcol).
    pose proof (modulus_bound _ _ _ Hb Hq) as Hqb.
    rewrite digit_coeff_formula;
      [|done|by apply (Hred i Hi)
       |by apply (reduced_prepare PermuteNTT (bfvContext rkg) sv g HP Hss Hpos)].
    rewrite injected_covers.
    destruct (covers (bfvContext rkg) i r); [done|]. cbn [orb].
    destruct (Z.eqb_spec (Z.of_nat r)
                (Z.of_nat (length (Ring.Modulus (ContextQ (bfvContext rkg))))))
      as [Heq|Hne]; cbn [andb]; [|done].
    destruct (_ && _); [|done].
    rewrite (prepare_zero_aux PermuteNTT (bfvContext rkg) sv g r col q Hwf Hb HP Hss
               Hq Hcol ltac:(lia)).
    done. }
  exists (length h + i)%nat, o, lc, cv.
  split; [by apply lookup_seq_lt|]. split.
  { cbn [heap]. rewrite lookup_app_r by (rewrite length_insert; lia).
    rewrite length_insert. by replace (length h + i - length h)%nat with i by lia. }
  split; [done|]. split; [done|]. split; [done|]. split; [|exact Hform].
  intros r q col Hq Hcol. rewrite (Hform r col q Hq Hcol).
  unfold Ring.MForm. apply Z.mod_pos_bound.
  pose proof (modulus_bound _ _ _ Hb Hq). lia.
Qed.

(** C7, as amended.  With a non-empty collection of allocated share
    vectors and CRP of which the shortest has [m < Beta] entries,
    [aggregate] and the three aggregators stop with the index-out-of-range
    panic for index [m] on a vector of length [m], and file no key; with
    no share at all the panic is for index 0 on length 0; [genswitchkey]
    with a CRP of [m' < Beta] entries stops with the panic for index [m']
    on length [m']. *)
Theorem short_inputs_panic (rkg : RKG) (samples : list (list loc)) (crp : list loc)
    (sk_in sk : loc) (crp' : list loc) (w : World) :
  let n := Z.to_nat (Beta (bfvContext rkg)) in
  let m := min_len samples crp in
  samples ≠ [] →
  Forall (allocated (heap w)) samples → allocated (heap w) crp →
  (m < n)%nat →
  wf_ctx (bfvContext rkg) →
  (length crp' < n)%nat →
  share_inputs rkg sk crp' (heap w) (noise w) (drawn w) (length crp') →
  shaped (ContextKeys (bfvContext rkg)) (noise w (drawn w + length crp')%nat) →
  aggregate rkg [] crp w = Panic (IndexOutOfRange 0 0) ∧
  aggregate rkg samples crp w = Panic (IndexOutOfRange m m) ∧
  (∀ k, AggregateRotColL rkg samples k crp w = Panic (IndexOutOfRange m m)) ∧
  (∀ k, AggregateRotColR rkg samples k crp w = Panic (IndexOutOfRange m m)) ∧
  AggregateRotRow rkg samples crp w = Panic (IndexOutOfRange m m) ∧
  genswitchkey rkg sk_in sk crp' w
    = Panic (IndexOutOfRange (length crp') (length crp')).
Proof.
  intros n m Hne Hs Hc Hm Hwf Hm' Hin Hnz. subst n m. destruct w as [h nz d].
  cbn [heap noise drawn] in *.
  assert (Hagg : aggregate rkg samples crp (mkWorld h nz d)
                 = Panic (IndexOutOfRange (min_len samples crp) (min_len samples crp))).
  { unfold aggregate.
    pose proof (aggregate_loop_short rkg samples crp h nz d Hne Hs Hc
                  (Z.to_nat (Beta (bfvContext rkg))) 0 [] [] ltac:(lia)) as Hp.
    by rewrite app_nil_r in Hp. }
  split; [|split; [|split; [|split; [|split]]]].
  - unfold aggregate.
    destruct (Z.to_nat (Beta (bfvContext rkg))) as [|fuel] eqn:Hfuel; [lia|].
    reflexivity.
  - exact Hagg.
  - intros k. unfold AggregateRotColL. by apply bind_panic.
  - intros k. unfold AggregateRotColR. by apply bind_panic.
  - unfold AggregateRotRow. by apply bind_panic.
  - unfold genswitchkey.
    pose proof (genswitchkey_loop_short rkg sk crp' h nz d Hwf ltac:(lia) Hin Hnz
                  (Z.to_nat (Beta (bfvContext rkg))) 0 [] [] ltac:(lia)) as Hp.
    by rewrite app_nil_r, Nat.add_0_r in Hp.
Qed.

(** When [Alpha] does not divide the length of the modulus chain, the loop
    of the last digit reaches the row just after the chain, which the
    digit does not cover. *)
Lemma injected_after_chain (bc : BfvContext) (i : nat) :
  wf_ctx bc → Z.of_nat i = Beta bc - 1 →
  Z.of_nat (length (Ring.Modulus (ContextQ bc))) < Beta bc * Alpha bc →
  injected bc i (length (Ring.Modulus (ContextQ bc))) = true ∧
  covers bc i (length (Ring.Modulus (ContextQ bc))) = false.
Proof.
  intros (_ & _ & _ & _ & Ha & Hb & Hlo & Hhi) Hi Hlt.
  unfold injected, injected_from, covers. rewrite Hi.
  split; split_comparisons; try done; lia.
Qed.

(** Two calls in a row on the same instance, selector, secret share and
    CRP: the second one consumes the next [Beta] draws, and when these are
    not the draws of the first call the two shares, both present in the
    final heap, differ. *)
Lemma generateShare_twice_differs (PermuteNTT : Ring.Poly → Z → Ring.Poly)
    (rkg : RKG) (sel : selector) (sk : loc) (crp : list loc)
    (h : list Ring.Poly) (nz : nat → Ring.Poly) (d : nat) :
  let c := ContextKeys (bfvContext rkg) in
  let n := Z.to_nat (Beta (bfvContext rkg)) in
  bounded_moduli c → odd_moduli c →
  gen_ready PermuteNTT rkg sel sk crp (mkWorld h nz d) →
  (∀ t, (t < 2 * n)%nat → shaped c (nz (d + t)%nat) ∧ reduced c (nz (d + t)%nat)) →
  (∃ t, (t < n)%nat ∧ nz (d + t)%nat ≠ nz (d + n + t)%nat) →
  ∃ ev1 w1 ev2 w2,
    generateShare PermuteNTT rkg sel sk crp (mkWorld h nz d) = Ok (ev1, w1) ∧
    generateShare PermuteNTT rkg sel sk crp w1 = Ok (ev2, w2) ∧
    drawn w1 = (d + n)%nat ∧ drawn w2 = (d + n + n)%nat ∧
    ∃ t l1 l2,
      ev1 !! t = Some l1 ∧ ev2 !! t = Some l2 ∧ heap w2 !! l1 ≠ heap w2 !! l2.
Proof.
  intros c n Hb Hodd Hr1 Hnz (t & Ht & Hdiff). subst c n.
  pose proof Hr1 as (Hwf & HP & Hsel & Hne & Hlt & (sv & Hsv & Hss) & Hcrp & _).
  cbn [heap noise drawn] in *.
  destruct (generateShare_run _ _ _ _ _ _ _ _ Hr1)
    as (g & skv & news1 & Hg & Hsk & Hrun1 & Hlen1 & Hc1).
  assert (skv = sv) as -> by congruence.
  set (n := Z.to_nat (Beta (bfvContext rkg))) in *.
  set (pv := prepare PermuteNTT (bfvContext rkg) sv g) in *.
  set (h1 := <[polypool rkg := pv]> h ++ news1) in *.
  assert (Hh1 : length h1 = (length h + n)%nat).
  { unfold h1. by rewrite length_app, length_insert, Hlen1. }
  assert (Hold : ∀ l v, l ≠ polypool rkg → h !! l = Some v → h1 !! l = Some v).
  { intros l v Hl Hv. unfold h1.
    rewrite lookup_app_l by (rewrite length_insert; by eapply lookup_lt_Some).
    by rewrite list_lookup_insert_ne. }
  assert (Hr2 : gen_ready PermuteNTT rkg sel sk crp (mkWorld h1 nz (d + n))).
  { split; [done|]. split; [done|]. split; [done|]. split; [done|].
    cbn [heap noise drawn]. split; [lia|].
    split; [exists sv; split; [by apply Hold|done]|]. split.
    - intros k Hk. destruct (Hcrp k Hk) as (lc & cv & Hlc & Hlne & Hcv & Hcs).
      exists lc, cv. split; [done|]. split; [done|]. split; [by apply Hold|done].
    - intros k Hk. replace (d + n + k)%nat with (d + (n + k))%nat by lia.
      apply Hnz. lia. }
  destruct (generateShare_run _ _ _ _ _ _ _ _ Hr2)
    as (g' & skv' & news2 & Hg' & Hsk' & Hrun2 & Hlen2 & Hc2).
  assert (g' = g) as -> by congruence.
  assert (skv' = sv) as -> by (rewrite (Hold sk sv Hne Hsv) in Hsk'; congruence).
  fold n pv in Hrun2.
  eexists _, _, _, _. split; [exact Hrun1|]. split; [exact Hrun2|].
  split; [done|]. split; [done|].
  destruct (Hc1 t Ht) as (o1 & lc & cv & Ho1 & Hlc & Hcv & Hos1 & Hoc1).
  destruct (Hc2 t Ht) as (o2 & lc' & cv' & Ho2 & Hlc' & Hcv' & Hos2 & Hoc2).
  assert (lc' = lc) as -> by congruence.
  destruct (Hcrp t Ht) as (lc0 & cv0 & Hlc0 & Hlne & Hcv0 & _).
  assert (lc0 = lc) as -> by congruence. assert (cv0 = cv) as -> by congruence.
  assert (cv' = cv) as -> by (rewrite (Hold lc cv Hlne Hcv) in Hcv'; congruence).
  exists t, (length h + t)%nat, (length h1 + t)%nat.
  split; [by apply lookup_seq_lt|]. split; [by apply lookup_seq_lt|].
  cbn [heap].
  assert (H1 : (<[polypool rkg := pv]> h1 ++ news2) !! (length h + t)%nat = Some o1).
  { rewrite lookup_app_l by (rewrite length_insert; lia).
    rewrite list_lookup_insert_ne by lia. unfold h1.
    rewrite lookup_app_r by (rewrite length_insert; lia).
    rewrite length_insert. by replace (length h + t - length h)%nat with t by lia. }
  assert (H2 : (<[polypool rkg := pv]> h1 ++ news2) !! (length h1 + t)%nat = Some o2).
  { rewrite lookup_app_r by (rewrite length_insert; lia).
    rewrite length_insert. by replace (length h1 + t - length h1)%nat with t by lia. }
  rewrite H1, H2. intros [= Heq]. apply Hdiff.
  destruct (Hnz t ltac:(lia)) as [Hsh1 Hre1].
  destruct (Hnz (n + t)%nat ltac:(lia)) as [Hsh2 Hre2].
  replace (d + (n + t))%nat with (d + n + t)%nat in * by lia.
  apply (poly_ext _ _ _ _ Hsh1 Hsh2). intros r col Hr Hcol.
  destruct (lookup_lt_is_Some_2 _ r Hr) as [q Hq].
  pose proof (Hoc1 r col q Hq Hcol) as E1.
  pose proof (Hoc2 r col q Hq Hcol) as E2.
  rewrite Heq in E1. rewrite E1 in E2.
  assert (Hpos : Forall (λ q, 0 < q) (Ring.Modulus (ContextKeys (bfvContext rkg)))).
  { eapply Forall_impl; [exact Hb|]. simpl. intros; lia. }
  eapply digit_coeff_inj; [| | | | |exact E2].
  - exact (modulus_bound _ _ _ Hb Hq).
  - exact (proj2 (Forall_lookup_1 _ _ _ _ Hodd Hq)).
  - by apply Hre1.
  - by apply Hre2.
  - by apply (reduced_prepare PermuteNTT (bfvContext rkg) sv g HP Hss Hpos).
Qed.

(** ** Rotation amounts are read modulo [N/2] *)

Lemma column_generator_reads (PermuteNTT : Ring.Poly → Z → Ring.Poly) (rkg : RKG)
    (table : list Z) (i : nat) (sk : loc) (crp : list loc) (w : World) :
  bind (lift (idx table i)) (λ g, gen_share PermuteNTT rkg sk g crp) w
    = match table !! i with
      | Some g => gen_share PermuteNTT rkg sk g crp w
      | None => Panic (IndexOutOfRange i (length table))
      end.
Proof.
  unfold bind, lift, idx. by destruct (table !! i).
Qed.

(** C5. With [N] a power of two, the column share generators and the
    column aggregators give the same result, in every machine state (hence
    for the same noise draws), for the amounts [k] and [k + N/2]: both are
    masked to [k mod N/2].  That index is the one the generators read in
    their table: they run the share body with the element found there, and
    on ready inputs leave in the scratch buffer the polynomial prepared
    from that element; when the table has no such entry they stop on the
    index.  It is also the slot the aggregators write: whenever one
    returns, the accumulator map of its kind holds the aggregated key at
    [k mod N/2], every other slot and the other accumulators are as
    before; on usable inputs it does return. *)
Theorem rotation_amount_mod_half
    (PermuteNTT : Ring.Poly → Z → Ring.Poly) (rkg : RKG) (j k : Z)
    (sk : loc) (samples : list (list loc)) (crp : list loc) (w : World) :
  1 ≤ j ≤ 63 →
  Ring.N (ContextKeys (bfvContext rkg)) = 2 ^ j →
  bfv_N (bfvContext rkg) = 2 ^ j →
  let n := bfv_N (bfvContext rkg) in
  let slot := k mod (n / 2) in
  let bc := bfvContext rkg in
  col_mask rkg k = slot ∧
  col_mask rkg (add64 k (n / 2)) = col_mask rkg k ∧
  GenShareRotLeft PermuteNTT rkg sk (add64 k (n / 2)) crp w
    = GenShareRotLeft PermuteNTT rkg sk k crp w ∧
  GenShareRotRight PermuteNTT rkg sk (add64 k (n / 2)) crp w
    = GenShareRotRight PermuteNTT rkg sk k crp w ∧
  AggregateRotColL rkg samples (add64 k (n / 2)) crp w
    = AggregateRotColL rkg samples k crp w ∧
  AggregateRotColR rkg samples (add64 k (n / 2)) crp w
    = AggregateRotColR rkg samples k crp w ∧
  GenShareRotLeft PermuteNTT rkg sk k crp w
    = match galElRotColLeft rkg !! Z.to_nat slot with
      | Some g => gen_share PermuteNTT rkg sk g crp w
      | None => Panic (IndexOutOfRange (Z.to_nat slot) (length (galElRotColLeft rkg)))
      end ∧
  GenShareRotRight PermuteNTT rkg sk k crp w
    = match galElRotColRight rkg !! Z.to_nat slot with
      | Some g => gen_share PermuteNTT rkg sk g crp w
      | None => Panic (IndexOutOfRange (Z.to_nat slot) (length (galElRotColRight rkg)))
      end ∧
  (gen_ready PermuteNTT rkg (ColumnLeft k) sk crp w →
   ∃ g skv evakey w',
     galElRotColLeft rkg !! Z.to_nat slot = Some g ∧
     heap w !! sk = Some skv ∧
     GenShareRotLeft PermuteNTT rkg sk k crp w = Ok (evakey, w') ∧
     heap w' !! polypool rkg = Some (prepare PermuteNTT bc skv g)) ∧
  (gen_ready PermuteNTT rkg (ColumnRight k) sk crp w →
   ∃ g skv evakey w',
     galElRotColRight rkg !! Z.to_nat slot = Some g ∧
     heap w !! sk = Some skv ∧
     GenShareRotRight PermuteNTT rkg sk k crp w = Ok (evakey, w') ∧
     heap w' !! polypool rkg = Some (prepare PermuteNTT bc skv g)) ∧
  (∀ rkg' w',
     AggregateRotColL rkg samples k crp w = Ok (rkg', w') →
     ∃ receiver,
       aggregate rkg samples crp w = Ok (receiver, w') ∧
       rot_col_L rkg' !! slot = Some receiver ∧
       (∀ k', k' ≠ slot → rot_col_L rkg' !! k' = rot_col_L rkg !! k') ∧
       rot_col_R rkg' = rot_col_R rkg ∧ rot_row rkg' = rot_row rkg) ∧
  (∀ rkg' w',
     AggregateRotColR rkg samples k crp w = Ok (rkg', w') →
     ∃ receiver,
       aggregate rkg samples crp w = Ok (receiver, w') ∧
       rot_col_R rkg' !! slot = Some receiver ∧
       (∀ k', k' ≠ slot → rot_col_R rkg' !! k' = rot_col_R rkg !! k') ∧
       rot_col_L rkg' = rot_col_L rkg ∧ rot_row rkg' = rot_row rkg) ∧
  (usable (heap w) samples crp (Z.to_nat (Beta bc)) →
   ∃ receiver w' rkgL rkgR,
     aggregate rkg samples crp w = Ok (receiver, w') ∧
     AggregateRotColL rkg samples k crp w = Ok (rkgL, w') ∧
     rot_col_L rkgL !! slot = Some receiver ∧
     AggregateRotColR rkg samples k crp w = Ok (rkgR, w') ∧
     rot_col_R rkgR !! slot = Some receiver).
Proof.
  intros Hj HNk HN n slot bc. subst n slot bc.
  pose proof (mask_add_half _ j k Hj HN) as Hadd.
  pose proof (mask_is_mod _ j k Hj HN) as Hmod.
  assert (Hk : Z.land (add64 k (bfv_N (bfvContext rkg) / 2))
                 (sub64 (shr64 (Ring.N (ContextKeys (bfvContext rkg))) 1) 1)
               = Z.land k (sub64 (shr64 (Ring.N (ContextKeys (bfvContext rkg))) 1) 1)).
  { rewrite HN. rewrite <- HNk at 1. apply (mask_add_half _ j); done. }
  assert (Hkeys : Z.land k (sub64 (shr64 (Ring.N (ContextKeys (bfvContext rkg))) 1) 1)
                  = k mod (bfv_N (bfvContext rkg) / 2)).
  { rewrite HNk, <- HN. exact Hmod. }
  assert (HL : GenShareRotLeft PermuteNTT rkg sk k crp w
               = match galElRotColLeft rkg
                         !! Z.to_nat (k mod (bfv_N (bfvContext rkg) / 2)) with
                 | Some g => gen_share PermuteNTT rkg sk g crp w
                 | None => Panic (IndexOutOfRange
                                    (Z.to_nat (k mod (bfv_N (bfvContext rkg) / 2)))
                                    (length (galElRotColLeft rkg)))
                 end).
  { rewrite <- Hkeys. apply column_generator_reads. }
  assert (HR : GenShareRotRight PermuteNTT rkg sk k crp w
               = match galElRotColRight rkg
                         !! Z.to_nat (k mod (bfv_N (bfvContext rkg) / 2)) with
                 | Some g => gen_share PermuteNTT rkg sk g crp w
                 | None => Panic (IndexOutOfRange
                                    (Z.to_nat (k mod (bfv_N (bfvContext rkg) / 2)))
                                    (length (galElRotColRight rkg)))
                 end).
  { rewrite <- Hkeys. apply column_generator_reads. }
  assert (Hready : ∀ sel table,
            (selector_element rkg sel
               = idx table (Z.to_nat (k mod (bfv_N (bfvContext rkg) / 2)))) →
            gen_ready PermuteNTT rkg sel sk crp w →
            ∃ g skv evakey w',
              table !! Z.to_nat (k mod (bfv_N (bfvContext rkg) / 2)) = Some g ∧
              heap w !! sk = Some skv ∧
              generateShare PermuteNTT rkg sel sk crp w = Ok (evakey, w') ∧
              heap w' !! polypool rkg
                = Some (prepare PermuteNTT (bfvContext rkg) skv g)).
  { intros sel table Hsel Hr. destruct w as [h nz d].
    pose proof Hr as (_ & _ & _ & _ & Hlt & _).
    destruct (generateShare_run _ _ _ _ _ _ _ _ Hr)
      as (g & skv & news & Hg & Hsk & Hrun & _).
    exists g, skv. eexists _, _. split.
    { rewrite Hsel in Hg. unfold idx in Hg.
      destruct (table !! _) as [g'|]; [by injection Hg as ->|discriminate]. }
    split; [done|]. split; [exact Hrun|]. cbn [heap] in *.
    rewrite lookup_app_l by (by rewrite length_insert).
    by apply list_lookup_insert_eq. }
  assert (HaggL : ∀ rkg' w',
            AggregateRotColL rkg samples k crp w = Ok (rkg', w') →
            ∃ receiver,
              aggregate rkg samples crp w = Ok (receiver, w') ∧
              rkg' = set_rot_col_L
                       (<[k mod (bfv_N (bfvContext rkg) / 2) := receiver]>
                          (rot_col_L rkg)) rkg).
  { intros rkg' w' Hrun. unfold AggregateRotColL in Hrun. cbv zeta in Hrun.
    rewrite Hmod in Hrun.
    apply bind_Ok in Hrun as (r & w1 & Hagg & Hret). injection Hret as <- <-.
    by exists r. }
  assert (HaggR : ∀ rkg' w',
            AggregateRotColR rkg samples k crp w = Ok (rkg', w') →
            ∃ receiver,
              aggregate rkg samples crp w = Ok (receiver, w') ∧
              rkg' = set_rot_col_R
                       (<[k mod (bfv_N (bfvContext rkg) / 2) := receiver]>
                          (rot_col_R rkg)) rkg).
  { intros rkg' w' Hrun. unfold AggregateRotColR in Hrun. cbv zeta in Hrun.
    rewrite Hmod in Hrun.
    apply bind_Ok in Hrun as (r & w1 & Hagg & Hret). injection Hret as <- <-.
    by exists r. }
  split; [exact Hmod|]. split; [exact Hadd|].
  split.
  { unfold GenShareRotLeft. by rewrite Hk. }
  split.
  { unfold GenShareRotRight. by rewrite Hk. }
  split.
  { unfold AggregateRotColL. by rewrite Hadd. }
  split.
  { unfold AggregateRotColR. by rewrite Hadd. }
  split; [exact HL|]. split; [exact HR|].
  split.
  { intros Hr. apply (Hready (ColumnLeft k) (galElRotColLeft rkg)); [|done].
    cbn [selector_element]. by rewrite Hkeys. }
  split.
  { intros Hr. apply (Hready (ColumnRight k) (galElRotColRight rkg)); [|done].
    cbn [selector_element]. by rewrite Hkeys. }
  split.
  { intros rkg' w' Hrun. destruct (HaggL rkg' w' Hrun) as (r & Hagg & ->).
    exists r. split; [done|]. cbn [rot_col_L rot_col_R rot_row set_rot_col_L].
    split; [by apply lookup_insert_eq|]. split; [|done].
    intros k' Hne. by apply lookup_insert_ne. }
  split.
  { intros rkg' w' Hrun. destruct (HaggR rkg' w' Hrun) as (r & Hagg & ->).
    exists r. split; [done|]. cbn [rot_col_L rot_col_R rot_row set_rot_col_R].
    split; [by apply lookup_insert_eq|]. split; [|done].
    intros k' Hne. by apply lookup_insert_ne. }
  intros Hu. destruct w as [h nz d]. cbn [heap] in Hu.
  pose proof (aggregate_run rkg samples crp h nz d Hu) as Hrun.
  eexists _, _, _, _. split; [exact Hrun|].
  split.
  { unfold AggregateRotColL. rewrite (bind_run _ _ _ _ _ Hrun). reflexivity. }
  split.
  { cbn [rot_col_L set_rot_col_L]. rewrite Hmod.
    by apply lookup_insert_eq. }
  split.
  { unfold AggregateRotColR. rewrite (bind_run _ _ _ _ _ Hrun). reflexivity. }
  cbn [rot_col_R set_rot_col_R]. rewrite Hmod.
  by apply lookup_insert_eq.
Qed.

(** ** The toy instance *)

Lemma toy_wf : wf_ctx toy_ctx.
Proof.
  unfold wf_ctx. simpl. repeat split; try done; try lia.
Qed.

Lemma toy_bounded : bounded_moduli (ContextKeys toy_ctx).
Proof. unfold bounded_moduli. simpl. repeat constructor; lia. Qed.

Lemma toy_odd : odd_moduli (ContextKeys toy_ctx).
Proof. unfold odd_moduli. simpl. repeat constructor; lia. Qed.

Lemma toy_poly_shaped (a : Z) : shaped (ContextKeys toy_ctx) (toy_poly a).
Proof.
  unfold shaped, shape, toy_poly. simpl. split; [done|]. repeat constructor.
Qed.

Lemma toy_poly_reduced (a : Z) : reduced (ContextKeys toy_ctx) (toy_poly a).
Proof.
  intros r q col Hq Hcol. simpl in Hcol.
  pose proof (lookup_lt_Some _ _ _ Hq) as Hr. simpl in Hr.
  assert (Hc : 0 ≤ coeff (toy_poly a) r col < 13).
  { do 5 (destruct r as [|r]; [do 4 (destruct col as [|col];
        [unfold coeff; simpl; apply Z.mod_pos_bound; lia|]); lia|]).
    lia. }
  do 5 (destruct r as [|r]; [simpl in Hq; injection Hq as <-; lia|]).
  lia.
Qed.

Lemma toy_PermuteNTT_shaped (c : Ring.Context) (p : Ring.Poly) (g : Z) :
  shaped c p → shaped c (toy_PermuteNTT p g).
Proof.
  intros [Hlen Hall]. unfold toy_PermuteNTT. split.
  - by rewrite length_fmap.
  - apply Forall_fmap. eapply Forall_impl; [exact Hall|].
    simpl. intros row Hrow. by rewrite length_rotate.
Qed.

Lemma toy_usable (n : nat) (crp : list loc) :
  (n ≤ 2)%nat → (n ≤ length crp)%nat → allocated toy_heap crp →
  usable toy_heap toy_samples crp n.
Proof.
  intros Hn Hlen Hall. split; [done|]. split.
  - intros st t Hst Ht.
    assert (st = [4; 5]%nat) as ->.
    { unfold toy_samples in Hst. by apply elem_of_replicate in Hst as [-> _]. }
    destruct t as [|[|t]]; [exists 4%nat|exists 5%nat|lia]; simpl; split; (done || lia).
  - intros t Ht.
    destruct (allocated_lookup toy_heap crp t Hall ltac:(lia)) as (l & Hl & Hlt & _).
    eauto.
Qed.

Lemma toy_gen_ready (sel : selector) (a : Z) (d : nat) :
  (∃ g, selector_element toy_rkg sel = Ok g) →
  gen_ready toy_PermuteNTT toy_rkg sel 1%nat [2; 3]%nat (mkWorld toy_heap (toy_noise a) d).
Proof.
  intros Hsel. split; [exact toy_wf|].
  split; [intros p g; apply toy_PermuteNTT_shaped|].
  split; [exact Hsel|]. split; [done|]. split; [simpl; lia|].
  split; [exists (toy_poly 2); split; [done|apply toy_poly_shaped]|].
  split.
  - intros t Ht. simpl in Ht.
    destruct t as [|[|t]]; [exists 2%nat, (toy_poly 3)|exists 3%nat, (toy_poly 4)|lia];
      (split; [done|]; split; [done|]; split; [done|apply toy_poly_shaped]).
  - intros t Ht. apply toy_poly_shaped.
Qed.

(** [genswitchkey] taken alone, on a scratch buffer that no caller
    prepares (its row 3 is not zero): on the toy instance, whose modulus
    chain has three primes cut into digits of two, the loop of the last
    digit also adds the scratch polynomial on row 3, at index
    [len(ContextQ.Modulus)]. *)
Lemma genswitchkey_injects_past_chain :
  ∃ l0 l1 w',
    genswitchkey toy_rkg 0%nat 1%nat [2; 3]%nat toy_world = Ok ([l0; l1], w') ∧
    length (Ring.Modulus (ContextQ toy_ctx)) = 3%nat ∧
    Ring.Modulus (ContextKeys toy_ctx) !! 3%nat = Some 37 ∧
    injected toy_ctx 1 3 = true ∧
    ∀ col, (col < 4)%nat →
      let e := coeff (toy_noise 7 1) 3 col in
      let p := coeff (val toy_heap (polypool toy_rkg)) 3 col in
      let a := coeff (val toy_heap 3%nat) 3 col in
      let s := coeff (val toy_heap 1%nat) 3 col in
      coeff (val (heap w') l1) 3 col
        = Ring.MForm 37 ((Ring.CRed (add64 e p) 37 - Ring.MRed 37 a s) mod 37) ∧
      coeff (val (heap w') l1) 3 col
        ≠ Ring.MForm 37 ((e - Ring.MRed 37 a s) mod 37).
Proof.
  eexists _, _, _. split; [vm_compute; reflexivity|].
  split; [reflexivity|]. split; [reflexivity|]. split; [reflexivity|].
  intros col Hcol.
  do 4 (destruct col as [|col]; [vm_compute; split; [reflexivity|discriminate]|]).
  lia.
Qed.

(** What [genswitchkey] injects is the content of the scratch buffer: with
    the same polynomial passed as [sk_in] (location 1) and another content
    in the scratch buffer (location 0), the result changes. *)
Lemma genswitchkey_reads_scratch :
  genswitchkey toy_rkg 1%nat 1%nat [2; 3]%nat toy_world
    ≠ genswitchkey toy_rkg 1%nat 1%nat [2; 3]%nat
        (mkWorld (<[0%nat := toy_poly 2]> toy_heap) (toy_noise 7) 0).
Proof. intros H. vm_compute in H. discriminate. Qed.

(** Counterexample to C7 as stated: a CRP with three entries, for
    [Beta = 2], is accepted, and aggregation returns a key. *)
Lemma longer_crp_accepted :
  length [2; 3; 1]%nat ≠ Z.to_nat (Beta (bfvContext toy_rkg)) ∧
  ∃ receiver w' rkg',
    aggregate toy_rkg toy_samples [2; 3; 1]%nat toy_world = Ok (receiver, w') ∧
    AggregateRotColL toy_rkg toy_samples 1 [2; 3; 1]%nat toy_world = Ok (rkg', w') ∧
    rot_col_L rkg' !! 1 = Some receiver.
Proof.
  split; [simpl; lia|].
  eexists _, _, _. split; [vm_compute; reflexivity|].
  split; [vm_compute; reflexivity|]. vm_compute. reflexivity.
Qed.

(** ** The theorems at the toy instance *)

Lemma toy_selector : ∃ g, selector_element toy_rkg (ColumnLeft 1) = Ok g.
Proof. eexists. reflexivity. Qed.

Lemma toy_allocated_crp : allocated toy_heap [2; 3]%nat.
Proof. unfold allocated. repeat constructor; simpl; lia. Qed.

Lemma generateShare_digits_witness :
  bounded_moduli (ContextKeys toy_ctx) ∧
  gen_ready toy_PermuteNTT toy_rkg (ColumnLeft 1) 1%nat [2; 3]%nat toy_world ∧
  (∀ t, (t < 2)%nat → reduced (ContextKeys toy_ctx) (toy_noise 7 (0 + t))) ∧
  ∃ evakey w',
    generateShare toy_PermuteNTT toy_rkg (ColumnLeft 1) 1%nat [2; 3]%nat toy_world
      = Ok (evakey, w') ∧
    length evakey = 2%nat.
Proof.
  pose proof toy_bounded as H1.
  pose proof (toy_gen_ready (ColumnLeft 1) 7 0 toy_selector) as H2.
  assert (H3 : ∀ t, (t < 2)%nat → reduced (ContextKeys toy_ctx) (toy_noise 7 (0 + t)))
    by (intros t _; apply toy_poly_reduced).
  split; [exact H1|]. split; [exact H2|]. split; [exact H3|].
  destruct (generateShare_digits toy_PermuteNTT toy_rkg (ColumnLeft 1) 1%nat [2; 3]%nat
              toy_world H1 H2 H3)
    as (g & skv & evakey & w' & _ & _ & Hrun & Hlen & _).
  exists evakey, w'. split; [exact Hrun|exact Hlen].
Defined.

Lemma aggregate_is_reduced_sum_witness :
  bounded_moduli (ContextKeys toy_ctx) ∧
  usable toy_heap toy_samples [2; 3]%nat 2 ∧
  ∃ receiver w',
    aggregate toy_rkg toy_samples [2; 3]%nat toy_world = Ok (receiver, w') ∧
    length receiver = 2%nat.
Proof.
  pose proof toy_bounded as H1.
  pose proof (toy_usable 2 [2; 3]%nat ltac:(lia) ltac:(simpl; lia) toy_allocated_crp) as H2.
  split; [exact H1|]. split; [exact H2|].
  destruct (aggregate_is_reduced_sum toy_rkg toy_samples [2; 3]%nat toy_world H1 H2)
    as (receiver & w' & Hrun & Hlen & _).
  { intros st t l Hst Ht Hl.
    assert (st = [4; 5]%nat) as ->.
    { unfold toy_samples in Hst. by apply elem_of_replicate in Hst as [-> _]. }
    simpl in Ht.
    destruct t as [|[|t]]; [| |lia]; simpl in Hl; injection Hl as <-;
      (split; [apply toy_poly_shaped|apply toy_poly_reduced]). }
  exists receiver, w'. split; [exact Hrun|exact Hlen].
Defined.

Lemma NewRKG_galois_tables_witness :
  1 ≤ 2 ≤ 62 ∧ bfv_N toy_ctx = 2 ^ 2 ∧
  ∃ rkg w',
    NewRKG toy_ctx (mkWorld [] (toy_noise 7) 0) = Ok (rkg, w') ∧
    (gen rkg * genInv rkg) mod (2 * bfv_N toy_ctx) = 1.
Proof.
  assert (H1 : 1 ≤ 2 ≤ 62) by lia.
  assert (H2 : bfv_N toy_ctx = 2 ^ 2) by reflexivity.
  split; [exact H1|]. split; [exact H2|].
  destruct (NewRKG_galois_tables toy_ctx (mkWorld [] (toy_noise 7) 0) 2 H1 H2)
    as (rkg & w' & Hrun & _ & _ & Hinv & _).
  exists rkg, w'. split; [exact Hrun|exact Hinv].
Defined.

Lemma rotation_amount_mod_half_witness :
  1 ≤ 2 ≤ 63 ∧
  Ring.N (ContextKeys (bfvContext toy_rkg)) = 2 ^ 2 ∧
  bfv_N (bfvContext toy_rkg) = 2 ^ 2 ∧
  gen_ready toy_PermuteNTT toy_rkg (ColumnLeft 3) 1%nat [2; 3]%nat toy_world ∧
  usable toy_heap toy_samples [2; 3]%nat 2 ∧
  GenShareRotLeft toy_PermuteNTT toy_rkg 1%nat (add64 3 (4 / 2)) [2; 3]%nat toy_world
    = GenShareRotLeft toy_PermuteNTT toy_rkg 1%nat 3 [2; 3]%nat toy_world ∧
  (∃ g skv evakey w',
     galElRotColLeft toy_rkg !! Z.to_nat (3 mod (4 / 2)) = Some g ∧
     heap toy_world !! 1%nat = Some skv ∧
     GenShareRotLeft toy_PermuteNTT toy_rkg 1%nat 3 [2; 3]%nat toy_world
       = Ok (evakey, w') ∧
     heap w' !! polypool toy_rkg = Some (prepare toy_PermuteNTT toy_ctx skv g)) ∧
  ∃ receiver w' rkgL,
    aggregate toy_rkg toy_samples [2; 3]%nat toy_world = Ok (receiver, w') ∧
    AggregateRotColL toy_rkg toy_samples 3 [2; 3]%nat toy_world = Ok (rkgL, w') ∧
    rot_col_L rkgL !! (3 mod (4 / 2)) = Some receiver.
Proof.
  assert (H1 : 1 ≤ 2 ≤ 63) by lia.
  assert (H2 : Ring.N (ContextKeys (bfvContext toy_rkg)) = 2 ^ 2) by reflexivity.
  assert (H3 : bfv_N (bfvContext toy_rkg) = 2 ^ 2) by reflexivity.
  assert (H4 : gen_ready toy_PermuteNTT toy_rkg (ColumnLeft 3) 1%nat [2; 3]%nat
                 toy_world).
  { apply (toy_gen_ready (ColumnLeft 3) 7 0). eexists. reflexivity. }
  pose proof (toy_usable 2 [2; 3]%nat ltac:(lia) ltac:(simpl; lia) toy_allocated_crp)
    as H5.
  split; [exact H1|]. split; [exact H2|]. split; [exact H3|].
  split; [exact H4|]. split; [exact H5|].
  pose proof (rotation_amount_mod_half toy_PermuteNTT toy_rkg 2 3 1%nat toy_samples
                [2; 3]%nat toy_world H1 H2 H3) as H.
  cbv zeta in H.
  destruct H as (_ & _ & Heq & _ & _ & _ & _ & _ & HgenL & _ & _ & _ & Hagg).
  split; [exact Heq|]. split; [exact (HgenL H4)|].
  destruct (Hagg H5) as (receiver & w' & rkgL & rkgR & Ha & HL & Hslot & _).
  exists receiver, w', rkgL. split; [exact Ha|]. split; [exact HL|exact Hslot].
Defined.

Lemma Finalize_returns_accumulated_witness :
  drained toy_rkg ∧
  ∃ rkg1 w1,
    run_calls toy_calls toy_rkg toy_world = Ok (rkg1, w1) ∧
    ∃ keys rkg2,
      Finalize rkg1 = (keys, rkg2) ∧
      is_Some (evakey_rot_col_L keys !! 1) ∧
      is_Some (evakey_rot_row keys) ∧
      drained rkg2.
Proof.
  assert (H1 : drained toy_rkg) by done.
  split; [exact H1|].
  destruct (run_calls toy_calls toy_rkg toy_world) as [[rkg1 w1]|e] eqn:Hrun;
    [|vm_compute in Hrun; discriminate].
  exists rkg1, w1. split; [reflexivity|].
  destruct (Finalize_returns_accumulated toy_rkg toy_calls toy_world rkg1 w1 H1 Hrun)
    as (keys & rkg2 & Hfin & _ & _ & _ & HL & _ & Hrow & Hdr & _).
  exists keys, rkg2. split; [exact Hfin|]. split; [|split; [|exact Hdr]].
  - apply HL. exists toy_samples, 1, [2; 3]%nat. split; [left|reflexivity].
  - apply Hrow. exists toy_samples, [2; 3]%nat. right. right. left.
Defined.

Lemma short_inputs_panic_witness :
  [[4; 5]; [4]]%nat ≠ [] ∧
  (min_len [[4; 5]; [4]]%nat [2; 3]%nat < Z.to_nat (Beta (bfvContext toy_rkg)))%nat ∧
  (length [2%nat] < Z.to_nat (Beta (bfvContext toy_rkg)))%nat ∧
  aggregate toy_rkg [[4; 5]; [4]]%nat [2; 3]%nat toy_world
    = Panic (IndexOutOfRange 1 1) ∧
  genswitchkey toy_rkg 0%nat 1%nat [2%nat] toy_world = Panic (IndexOutOfRange 1 1).
Proof.
  assert (H1 : [[4; 5]; [4]]%nat ≠ []) by done.
  assert (H2 : Forall (allocated (heap toy_world)) [[4; 5]; [4]]%nat)
    by (repeat constructor; simpl; lia).
  assert (H3 : allocated (heap toy_world) [2; 3]%nat) by exact toy_allocated_crp.
  assert (H4 : (min_len [[4; 5]; [4]]%nat [2; 3]%nat
                < Z.to_nat (Beta (bfvContext toy_rkg)))%nat) by (vm_compute; lia).
  assert (H5 : (length [2%nat] < Z.to_nat (Beta (bfvContext toy_rkg)))%nat)
    by (vm_compute; lia).
  assert (H6 : share_inputs toy_rkg 1%nat [2%nat] (heap toy_world) (noise toy_world)
                 (drawn toy_world) (length [2%nat])).
  { split; [exists (toy_poly 1); split; [done|apply toy_poly_shaped]|].
    split; [exists (toy_poly 2); split; [done|apply toy_poly_shaped]|].
    split.
    - intros t Ht. simpl in Ht. destruct t as [|t]; [|lia].
      exists 2%nat, (toy_poly 3). split; [done|]. split; [done|apply toy_poly_shaped].
    - intros t _. apply toy_poly_shaped. }
  assert (H7 : shaped (ContextKeys (bfvContext toy_rkg))
                 (noise toy_world (drawn toy_world + length [2%nat])%nat))
    by apply toy_poly_shaped.
  split; [exact H1|]. split; [exact H4|]. split; [exact H5|].
  destruct (short_inputs_panic toy_rkg [[4; 5]; [4]]%nat [2; 3]%nat 0%nat 1%nat [2%nat]
              toy_world H1 H2 H3 H4 toy_wf H5 H6 H7)
    as (_ & Hagg & _ & _ & _ & Hgen).
  split; [exact Hagg|exact Hgen].
Defined.

Lemma generateShare_fresh_noise_witness :
  bounded_moduli (ContextKeys toy_ctx) ∧ odd_moduli (ContextKeys toy_ctx) ∧
  (∃ t, (t < 2)%nat ∧ toy_noise 7 (0 + t) ≠ toy_noise 8 (0 + t)) ∧
  ∃ evakey w1 w2,
    generateShare toy_PermuteNTT toy_rkg (ColumnLeft 1) 1%nat [2; 3]%nat
      (mkWorld toy_heap (toy_noise 7) 0) = Ok (evakey, w1) ∧
    generateShare toy_PermuteNTT toy_rkg (ColumnLeft 1) 1%nat [2; 3]%nat
      (mkWorld toy_heap (toy_noise 8) 0) = Ok (evakey, w2) ∧
    ∃ l, l ∈ evakey ∧ heap w1 !! l ≠ heap w2 !! l.
Proof.
  assert (H1 : ∃ t, (t < 2)%nat ∧ toy_noise 7 (0 + t) ≠ toy_noise 8 (0 + t)).
  { exists 0%nat. split; [lia|]. intros H. vm_compute in H. discriminate. }
  split; [exact toy_bounded|]. split; [exact toy_odd|]. split; [exact H1|].
  destruct (generateShare_fresh_noise toy_PermuteNTT toy_rkg (ColumnLeft 1) 1%nat
              [2; 3]%nat toy_heap (toy_noise 7) (toy_noise 8) 0
              toy_bounded toy_odd
              (toy_gen_ready (ColumnLeft 1) 7 0 toy_selector)
              (toy_gen_ready (ColumnLeft 1) 8 0 toy_selector))
    as (evakey & w1 & w2 & Hr1 & Hr2 & _ & _ & _ & Hdiff).
  { intros t _. split; apply toy_poly_reduced. }
  { exact H1. }
  exists evakey, w1, w2. split; [exact Hr1|]. split; [exact Hr2|exact Hdiff].
Defined.

Lemma inputs_unmodified_results_fresh_witness :
  usable (heap toy_world) toy_samples [2; 3]%nat (Z.to_nat (Beta (bfvContext toy_rkg))) ∧
  gen_ready toy_PermuteNTT toy_rkg (ColumnLeft 1) 1%nat [2; 3]%nat toy_world ∧
  (∃ receiver w',
     aggregate toy_rkg toy_samples [2; 3]%nat toy_world = Ok (receiver, w') ∧
     ∀ l, (l < length (heap toy_world))%nat → heap w' !! l = heap toy_world !! l) ∧
  (∃ evakey w',
     generateShare toy_PermuteNTT toy_rkg (ColumnLeft 1) 1%nat [2; 3]%nat toy_world
       = Ok (evakey, w') ∧
     heap w' !! 1%nat = heap toy_world !! 1%nat).
Proof.
  pose proof (toy_usable 2 [2; 3]%nat ltac:(lia) ltac:(simpl; lia) toy_allocated_crp) as H1.
  pose proof (toy_gen_ready (ColumnLeft 1) 7 0 toy_selector) as H2.
  split; [exact H1|]. split; [exact H2|].
  destruct (inputs_unmodified_results_fresh toy_PermuteNTT toy_rkg toy_samples
              [2; 3]%nat (ColumnLeft 1) 1%nat [2; 3]%nat toy_world H1 H2)
    as ((receiver & w' & Hagg & Hframe & _) & (evakey & w'' & Hgen & _ & Hsk & _)).
  split.
  - exists receiver, w'. split; [exact Hagg|exact Hframe].
  - exists evakey, w''. split; [exact Hgen|exact Hsk].
Defined.

Lemma genswitchkey_ignores_sk_in_witness :
  wf_ctx (bfvContext toy_rkg) ∧
  share_inputs toy_rkg 1%nat [2; 3]%nat (heap toy_world) (noise toy_world)
    (drawn toy_world) (Z.to_nat (Beta (bfvContext toy_rkg))) ∧
  ∃ evakey w',
    genswitchkey toy_rkg 0%nat 1%nat [2; 3]%nat toy_world = Ok (evakey, w') ∧
    genswitchkey toy_rkg 4%nat 1%nat [2; 3]%nat toy_world = Ok (evakey, w').
Proof.
  assert (H1 : share_inputs toy_rkg 1%nat [2; 3]%nat (heap toy_world) (noise toy_world)
                 (drawn toy_world) (Z.to_nat (Beta (bfvContext toy_rkg)))).
  { split; [exists (toy_poly 1); split; [done|apply toy_poly_shaped]|].
    split; [exists (toy_poly 2); split; [done|apply toy_poly_shaped]|].
    split.
    - intros t Ht. simpl in Ht.
      destruct t as [|[|t]]; [exists 2%nat, (toy_poly 3)|exists 3%nat, (toy_poly 4)|lia];
        (split; [done|]; split; [done|apply toy_poly_shaped]).
    - intros t _. apply toy_poly_shaped. }
  split; [exact toy_wf|]. split; [exact H1|].
  destruct (proj2 (genswitchkey_ignores_sk_in toy_rkg 0%nat 4%nat 1%nat [2; 3]%nat
                     toy_world) toy_wf H1)
    as (evakey & w' & Hp & Hq & _).
  exists evakey, w'. split; [exact Hp|exact Hq].
Defined.

(** * Further properties of the protocol object *)

(** ** Construction *)

(** The instance and the machine state [NewRKG] returns, for a ring degree
    [2^k]: one polynomial is allocated, the scratch buffer. *)
Lemma NewRKG_run (ctx : BfvContext) (w : World) (k : Z) :
  1 ≤ k ≤ 62 →
  bfv_N ctx = 2 ^ k →
  ∃ left right,
    NewRKG ctx w
      = Ok (mkRKG ctx 5 (5 ^ (2 * 2 ^ k - 1) mod (2 * 2 ^ k)) (2 * 2 ^ k - 1)
                  left right ∅ ∅ None (length (heap w)),
            mkWorld (heap w ++ [Ring.zero_poly (ContextKeys ctx)]) (noise w) (drawn w)) ∧
    length left = Z.to_nat (2 ^ (k - 1)) ∧
    length right = Z.to_nat (2 ^ (k - 1)) ∧
    ∀ t, (t < Z.to_nat (2 ^ (k - 1)))%nat →
      left !! t = Some (5 ^ Z.of_nat t mod (2 * 2 ^ k)) ∧
      right !! t
        = Some ((5 ^ (2 * 2 ^ k - 1) mod (2 * 2 ^ k)) ^ Z.of_nat t mod (2 * 2 ^ k)).
Proof.
  intros Hk HN.
  assert (Hpos : 0 < 2 ^ k) by (apply pow2_pos; lia).
  assert (Hhpos : 0 < 2 ^ (k - 1)) by (apply pow2_pos; lia).
  assert (Hm : 2 * 2 ^ k = 2 ^ (k + 1)) by (rewrite Z.pow_add_r by lia; lia).
  assert (Hmask : ∀ x y, Z.land (mul64 x y) (sub64 (shl64 (2 ^ k) 1) 1)
                         = (x * y) mod (2 * 2 ^ k)).
  { intros x y. rewrite shl64_pow2, mask_2N by lia. rewrite Hm.
    apply masked_mul. lia. }
  set (gInv := 5 ^ (2 * 2 ^ k - 1) mod (2 * 2 ^ k)).
  set (n := Z.to_nat (2 ^ (k - 1))).
  assert (Hn : (1 ≤ n)%nat) by (unfold n; lia).
  destruct (fill_tables_spec (2 * 2 ^ k) 5 gInv (sub64 (shl64 (2 ^ k) 1) 1) n
              ltac:(lia) Hmask (n - 1) 1
              (<[0%nat := 1]> (replicate n 0)) (<[0%nat := 1]> (replicate n 0)))
    as (left' & right' & Hfill & Hl & Hr & HL & HR).
  { lia. }
  { lia. }
  { by rewrite length_insert, length_replicate. }
  { by rewrite length_insert, length_replicate. }
  { intros t Ht. replace t with 0%nat by lia.
    rewrite list_lookup_insert_eq by (rewrite length_replicate; lia).
    simpl. rewrite Z.mod_1_l by lia. done. }
  { intros t Ht. replace t with 0%nat by lia.
    rewrite list_lookup_insert_eq by (rewrite length_replicate; lia).
    simpl. rewrite Z.mod_1_l by lia. done. }
  exists left', right'. split; [|split; [done|split; [done|]]].
  - unfold NewRKG, NewPoly, alloc, bind, lift, ret, bfv_N. simpl.
    fold (bfv_N ctx). rewrite HN, shr64_pow2 by lia. fold n.
    rewrite !set_idx_lt by (rewrite length_replicate; lia).
    unfold Ring.ModExp. rewrite shl64_pow2, mask_2N by lia.
    rewrite <- Hm. fold gInv.
    rewrite shl64_pow2, mask_2N, <- Hm in Hfill by lia.
    rewrite Hfill. reflexivity.
  - intros t Ht. split; [by apply HL|by apply HR].
Qed.

(** X1. With ring degree 1 the tables have no entry ([N >> 1 = 0]), and
    the constructor stops on the first write to them, the index 0 being
    out of range for length 0; the inverse generator has been computed
    before, modulo [N << 1 = 2]. *)
Theorem NewRKG_degenerate (ctx : BfvContext) (w : World) :
  bfv_N ctx = 1 →
  shl64 (bfv_N ctx) 1 = 2 ∧
  Ring.ModExp 5 (sub64 (shl64 (bfv_N ctx) 1) 1) (shl64 (bfv_N ctx) 1) = 1 ∧
  Z.to_nat (shr64 (bfv_N ctx) 1) = 0%nat ∧
  NewRKG ctx w = Panic (IndexOutOfRange 0 0).
Proof.
  intros HN. rewrite HN.
  split; [reflexivity|]. split; [reflexivity|]. split; [reflexivity|].
  unfold NewRKG, NewPoly, alloc, bind. rewrite HN. reflexivity.
Qed.

(** X2. For a ring degree [2^k] the constructor succeeds; it allocates the
    scratch buffer, an all-zero polynomial of the shape of [ContextKeys],
    in fresh storage, changes no existing polynomial and draws no noise;
    the accumulator of the new instance is drained, so that [Finalize]
    called at once returns the empty key set and the same instance. *)
Theorem NewRKG_fresh_instance (ctx : BfvContext) (w : World) (k : Z) :
  1 ≤ k ≤ 62 →
  bfv_N ctx = 2 ^ k →
  0 ≤ Ring.N (ContextKeys ctx) →
  ∃ rkg w',
    NewRKG ctx w = Ok (rkg, w') ∧
    bfvContext rkg = ctx ∧
    polypool rkg = length (heap w) ∧
    heap w' = heap w ++ [Ring.zero_poly (ContextKeys ctx)] ∧
    shaped (ContextKeys ctx) (Ring.zero_poly (ContextKeys ctx)) ∧
    (∀ r col, coeff (val (heap w') (polypool rkg)) r col = 0) ∧
    noise w' = noise w ∧ drawn w' = drawn w ∧
    drained rkg ∧
    Finalize rkg = (NewRotationKeysEmpty, rkg).
Proof.
  intros Hk HN HNk.
  destruct (NewRKG_run ctx w k Hk HN) as (left & right & Hrun & _).
  eexists _, _. split; [exact Hrun|]. cbn [bfvContext polypool heap noise drawn].
  split; [done|]. split; [done|]. split; [done|]. split.
  { unfold shaped, shape, Ring.zero_poly. rewrite length_replicate.
    split; [done|]. apply Forall_replicate. by rewrite length_replicate. }
  split.
  { intros r col. unfold val. rewrite lookup_snoc1. cbn [default].
    unfold coeff, Ring.zero_poly.
    match goal with |- context [?l !! r] => destruct (l !! r) as [row|] eqn:Hrow end;
      [|done].
    apply lookup_replicate in Hrow as [-> _]. cbn [default].
    match goal with |- context [?l !! col] => destruct (l !! col) as [x|] eqn:Hx end;
      [|done].
    by apply lookup_replicate in Hx as [-> _]. }
  split; [done|]. split; [done|]. split; [done|].
  apply Finalize_twice. done.
Qed.

(** ** The Galois-element tables *)

(** [5^(2^j) = 1 + 2^(j+2) u] with [u] odd: the power of two dividing
    [5^(2^j) - 1] is exactly [2^(j+2)]. *)
Lemma five_pow_pow2_odd (j : nat) :
  ∃ t, 5 ^ (2 ^ Z.of_nat j) = 1 + 2 ^ (Z.of_nat j + 2) * (2 * t + 1).
Proof.
  induction j as [|j [t IH]].
  - exists 0. reflexivity.
  - exists (t + 2 ^ Z.of_nat j * (2 * t + 1) * (2 * t + 1)).
    rewrite Nat2Z.inj_succ.
    replace (2 ^ Z.succ (Z.of_nat j)) with (2 ^ Z.of_nat j * 2)
      by (rewrite Z.pow_succ_r by lia; lia).
    rewrite Z.pow_mul_r by (try apply Z.pow_nonneg; lia).
    rewrite IH.
    replace (Z.succ (Z.of_nat j) + 2) with (Z.succ (Z.of_nat j + 2)) by lia.
    rewrite (Z.pow_succ_r 2 (Z.of_nat j + 2)) by lia.
    rewrite (Z.pow_add_r 2 (Z.of_nat j) 2) by lia.
    change (2 ^ 2) with 4. ring.
Qed.

(** The generator has order dividing [N/2] modulo [2N]. *)
Lemma five_pow_half (k : Z) :
  1 ≤ k → 5 ^ (2 ^ (k - 1)) mod (2 * 2 ^ k) = 1.
Proof.
  intros Hk.
  destruct (five_pow_pow2_odd (Z.to_nat (k - 1))) as [t Ht].
  rewrite Z2Nat.id in Ht by lia.
  replace (k - 1 + 2) with (k + 1) in Ht by lia.
  replace (2 * 2 ^ k) with (2 ^ (k + 1)) by (rewrite Z.pow_add_r by lia; lia).
  rewrite Ht.
  replace (2 ^ (k + 1) * (2 * t + 1)) with ((2 * t + 1) * 2 ^ (k + 1)) by ring.
  rewrite Z.mod_add by (pose proof (pow2_pos (k + 1)); lia).
  apply Z.mod_small.
  assert (2 ^ 1 ≤ 2 ^ (k + 1)) by (apply Z.pow_le_mono_r; lia).
  change (2 ^ 1) with 2 in *. lia.
Qed.

(** ... and no smaller order: no positive exponent below [2^j] brings the
    generator back to 1 modulo [2^(j+2)]. *)
Lemma five_order (j : nat) (d : Z) :
  0 < d < 2 ^ Z.of_nat j → 5 ^ d mod 2 ^ (Z.of_nat j + 2) ≠ 1.
Proof.
  revert d. induction j as [|j IH]; intros d Hd.
  - change (2 ^ Z.of_nat 0) with 1 in Hd. lia.
  - rewrite Nat2Z.inj_succ in *.
    assert (Hpj : 0 < 2 ^ Z.of_nat j) by (apply pow2_pos; lia).
    assert (Hpj2 : 4 ≤ 2 ^ (Z.of_nat j + 2)).
    { change 4 with (2 ^ 2). apply Z.pow_le_mono_r; lia. }
    assert (Hs : 2 ^ Z.succ (Z.of_nat j) = 2 * 2 ^ Z.of_nat j)
      by (rewrite Z.pow_succ_r by lia; lia).
    assert (Hs2 : 2 ^ (Z.succ (Z.of_nat j) + 2) = 2 * 2 ^ (Z.of_nat j + 2)).
    { replace (Z.succ (Z.of_nat j) + 2) with (Z.succ (Z.of_nat j + 2)) by lia.
      rewrite Z.pow_succ_r by lia. lia. }
    assert (Hdown : ∀ x, x mod 2 ^ (Z.succ (Z.of_nat j) + 2) = 1 →
                         x mod 2 ^ (Z.of_nat j + 2) = 1).
    { intros x Hx.
      rewrite <- (Z.mod_mod_divide x (2 ^ (Z.succ (Z.of_nat j) + 2)))
        by (rewrite Hs2; exists 2; lia).
      rewrite Hx. apply Z.mod_small.
      assert (2 ^ 1 ≤ 2 ^ (Z.of_nat j + 2)) by (apply Z.pow_le_mono_r; lia).
      change (2 ^ 1) with 2 in *. lia. }
    rewrite Hs in Hd.
    destruct (five_pow_pow2_odd j) as [t Ht].
    destruct (Z.lt_trichotomy d (2 ^ Z.of_nat j)) as [Hlt|[Heq|Hgt]].
    + intros Hx. apply (IH d); [lia|]. by apply Hdown.
    + subst d. rewrite Ht, Hs2.
      replace (1 + 2 ^ (Z.of_nat j + 2) * (2 * t + 1))
        with (1 + 2 ^ (Z.of_nat j + 2) + t * (2 * 2 ^ (Z.of_nat j + 2))) by ring.
      rewrite Z.mod_add by lia. rewrite Z.mod_small by lia. lia.
    + intros Hx. apply Hdown in Hx.
      apply (IH (d - 2 ^ Z.of_nat j)); [lia|].
      rewrite <- Hx.
      replace d with (2 ^ Z.of_nat j + (d - 2 ^ Z.of_nat j)) at 2 by lia.
      rewrite (Z.pow_add_r 5 (2 ^ Z.of_nat j)) by lia.
      rewrite <- Z.mul_mod_idemp_l by lia.
      rewrite Ht.
      replace (1 + 2 ^ (Z.of_nat j + 2) * (2 * t + 1))
        with (1 + (2 * t + 1) * 2 ^ (Z.of_nat j + 2)) by ring.
      rewrite Z.mod_add by lia. rewrite (Z.mod_small 1) by lia.
      by rewrite Z.mul_1_l.
Qed.

Lemma five_coprime_pow2 (a m : Z) : 0 ≤ a → 0 ≤ m → Z.coprime (5 ^ a) (2 ^ m).
Proof.
  intros Ha Hm. apply Z.coprime_pow_l; [done|]. apply Z.coprime_pow_r; [done|].
  reflexivity.
Qed.

(** Distinct exponents below [N/2] give distinct powers of the generator
    modulo [2N]. *)
Lemma five_pow_inj (k a b : Z) :
  1 ≤ k → 0 ≤ a < 2 ^ (k - 1) → 0 ≤ b < 2 ^ (k - 1) →
  5 ^ a mod (2 * 2 ^ k) = 5 ^ b mod (2 * 2 ^ k) → a = b.
Proof.
  intros Hk.
  assert (Hm : 2 * 2 ^ k = 2 ^ (k + 1)) by (rewrite Z.pow_add_r by lia; lia).
  assert (Hpos : 0 < 2 ^ (k + 1)) by (apply pow2_pos; lia).
  assert (Hlt : ∀ a b, 0 ≤ a → a < b → b < 2 ^ (k - 1) →
                5 ^ a mod (2 * 2 ^ k) = 5 ^ b mod (2 * 2 ^ k) → False).
  { clear a b. intros a b Ha Hab Hb Heq. rewrite Hm in Heq.
    apply (five_order (Z.to_nat (k - 1)) (b - a)).
    { rewrite Z2Nat.id by lia. lia. }
    rewrite Z2Nat.id by lia. replace (k - 1 + 2) with (k + 1) by lia.
    assert (H0 : ((5 ^ (b - a) - 1) * 5 ^ a) mod 2 ^ (k + 1) = 0).
    { rewrite Z.mul_sub_distr_r, <- Z.pow_add_r by lia.
      replace (b - a + a) with b by lia.
      rewrite Z.mul_1_l, Zminus_mod, Heq, Z.sub_diag. apply Z.mod_0_l. lia. }
    apply Z.cong_mul_cancel_r_coprime in H0; [|lia|apply five_coprime_pow2; lia].
    replace (5 ^ (b - a)) with (5 ^ (b - a) - 1 + 1) by lia.
    rewrite <- Z.add_mod_idemp_l, H0 by lia. apply Z.mod_small.
    assert (2 ^ 1 ≤ 2 ^ (k + 1)) by (apply Z.pow_le_mono_r; lia).
    change (2 ^ 1) with 2 in *. lia. }
  intros Ha Hb Heq.
  destruct (Z.lt_trichotomy a b) as [Hab|[Hab|Hab]]; [|done|].
  - exfalso. apply (Hlt a b); (done || lia).
  - exfalso. apply (Hlt b a); (done || lia).
Qed.

(** Modulo 4 every power of the generator, and of its inverse, is 1. *)
Lemma pow_mod4 (g k t : Z) :
  1 ≤ k → 0 ≤ t → g mod 4 = 1 → (g ^ t mod (2 * 2 ^ k)) mod 4 = 1.
Proof.
  intros Hk Ht Hg.
  rewrite Z.mod_mod_divide.
  - rewrite Zpower_mod by lia. rewrite Hg, Z.pow_1_l by lia. reflexivity.
  - exists (2 ^ (k - 1)). replace k with (1 + (k - 1)) at 1 by lia.
    rewrite Z.pow_add_r by lia. change (2 ^ 1) with 2. lia.
Qed.

(** The inverse generator undoes the generator, power by power. *)
Lemma gen_genInv_pow (k : Z) (t : Z) :
  1 ≤ k → 0 ≤ t →
  (5 ^ t mod (2 * 2 ^ k)
     * ((5 ^ (2 * 2 ^ k - 1) mod (2 * 2 ^ k)) ^ t mod (2 * 2 ^ k))) mod (2 * 2 ^ k) = 1.
Proof.
  intros Hk Ht.
  assert (Hpos : 0 < 2 ^ k) by (apply pow2_pos; lia).
  rewrite <- Z.mul_mod by lia.
  rewrite <- Z.pow_mul_l.
  rewrite Zpower_mod by lia.
  rewrite Z.mul_mod_idemp_r by lia.
  replace (5 * 5 ^ (2 * 2 ^ k - 1)) with (5 ^ (2 * 2 ^ k)).
  - rewrite five_pow_2N by lia. rewrite Z.pow_1_l by lia. apply Z.mod_1_l. lia.
  - replace (2 * 2 ^ k) with (Z.succ (2 * 2 ^ k - 1)) at 1 by lia.
    rewrite Z.pow_succ_r by lia. done.
Qed.

(** Two residues with a common inverse are equal. *)
Lemma mod_inverse_unique (m a b x : Z) :
  0 < m → 0 ≤ a < m → 0 ≤ b < m →
  (a * x) mod m = 1 → (b * x) mod m = 1 → a = b.
Proof.
  intros Hm Ha Hb Hax Hbx.
  rewrite <- (Z.mod_small a m), <- (Z.mod_small b m) by lia.
  rewrite <- (Z.mul_1_r a) at 1. rewrite <- Hbx.
  rewrite <- (Z.mul_1_r b) at 2. rewrite <- Hax.
  rewrite !Z.mul_mod_idemp_r by lia. f_equal. ring.
Qed.

(** The power [i] of the inverse generator is the power [N/2 - i] of the
    generator. *)
Lemma genInv_pow_mirror (k i : Z) :
  1 ≤ k → 0 ≤ i < 2 ^ (k - 1) →
  (5 ^ (2 * 2 ^ k - 1) mod (2 * 2 ^ k)) ^ i mod (2 * 2 ^ k)
    = 5 ^ ((2 ^ (k - 1) - i) mod 2 ^ (k - 1)) mod (2 * 2 ^ k).
Proof.
  intros Hk Hi.
  assert (Hpos : 0 < 2 ^ k) by (apply pow2_pos; lia).
  assert (He : 0 ≤ (2 ^ (k - 1) - i) mod 2 ^ (k - 1) < 2 ^ (k - 1))
    by (apply Z.mod_pos_bound; lia).
  apply (mod_inverse_unique (2 * 2 ^ k) _ _ (5 ^ i mod (2 * 2 ^ k))).
  - lia.
  - apply Z.mod_pos_bound. lia.
  - apply Z.mod_pos_bound. lia.
  - rewrite Z.mul_comm. apply gen_genInv_pow; lia.
  - rewrite <- Z.mul_mod by lia. rewrite <- Z.pow_add_r by lia.
    destruct (decide (i = 0)) as [->|Hne].
    + rewrite Z.sub_0_r, Z.mod_same by lia. simpl. apply Z.mod_1_l. lia.
    + rewrite (Z.mod_small (2 ^ (k - 1) - i)) by lia.
      replace (2 ^ (k - 1) - i + i) with (2 ^ (k - 1)) by lia.
      by apply five_pow_half.
Qed.

(** The elements a constructed instance selects: the power
    [k mod N/2] of the generator for a left rotation, of its inverse for a
    right rotation. *)
Lemma NewRKG_selector (ctx : BfvContext) (w : World) (k : Z) (rkg : RKG) (w' : World)
    (amount : Z) :
  1 ≤ k ≤ 62 →
  bfv_N ctx = 2 ^ k →
  Ring.N (ContextKeys ctx) = bfv_N ctx →
  NewRKG ctx w = Ok (rkg, w') →
  0 ≤ amount →
  selector_element rkg (ColumnLeft amount)
    = Ok (5 ^ (amount mod 2 ^ (k - 1)) mod (2 * 2 ^ k)) ∧
  selector_element rkg (ColumnRight amount)
    = Ok ((5 ^ (2 * 2 ^ k - 1) mod (2 * 2 ^ k)) ^ (amount mod 2 ^ (k - 1))
            mod (2 * 2 ^ k)).
Proof.
  intros Hk HN HNk Hnew Ha.
  destruct (NewRKG_run ctx w k Hk HN) as (left & right & Hrun & _ & _ & Htab).
  rewrite Hrun in Hnew. injection Hnew as <- <-.
  assert (Hhpos : 0 < 2 ^ (k - 1)) by (apply pow2_pos; lia).
  assert (Hmask : Z.land amount (sub64 (shr64 (Ring.N (ContextKeys ctx)) 1) 1)
                  = amount mod 2 ^ (k - 1)).
  { rewrite HNk. rewrite (mask_is_mod (bfv_N ctx) k) by (done || lia).
    destruct (half_mask (bfv_N ctx) k ltac:(lia) HN) as (_ & _ & ->). done. }
  pose proof (Z.mod_pos_bound amount (2 ^ (k - 1)) Hhpos) as Hb.
  destruct (Htab (Z.to_nat (amount mod 2 ^ (k - 1))) ltac:(lia)) as [HL HR].
  rewrite Z2Nat.id in HL, HR by lia.
  unfold selector_element. cbn [bfvContext galElRotColLeft galElRotColRight].
  rewrite Hmask. split; by apply idx_Some.
Qed.

(** X3. Every entry of both tables of a constructed instance is a unit
    below [2N] that is 1 modulo 4, while the row element [2N - 1] is 3
    modulo 4: a column rotation never uses the element of the row
    rotation. *)
Theorem NewRKG_column_elements (ctx : BfvContext) (w : World) (k : Z)
    (rkg : RKG) (w' : World) :
  1 ≤ k ≤ 62 →
  bfv_N ctx = 2 ^ k →
  NewRKG ctx w = Ok (rkg, w') →
  galElRotRow rkg = 2 * bfv_N ctx - 1 ∧
  galElRotRow rkg mod 4 = 3 ∧
  ∀ x, x ∈ galElRotColLeft rkg ++ galElRotColRight rkg →
    0 < x < 2 * bfv_N ctx ∧ x mod 4 = 1 ∧ x ≠ galElRotRow rkg.
Proof.
  intros Hk HN Hnew.
  destruct (NewRKG_run ctx w k Hk HN) as (left & right & Hrun & Hl & Hr & Htab).
  rewrite Hrun in Hnew. injection Hnew as <- <-.
  cbn [galElRotRow galElRotColLeft galElRotColRight]. rewrite HN.
  assert (Hpos : 0 < 2 ^ k) by (apply pow2_pos; lia).
  assert (Hrow : (2 * 2 ^ k - 1) mod 4 = 3).
  { replace k with (1 + (k - 1)) by lia. rewrite Z.pow_add_r by lia.
    change (2 ^ 1) with 2.
    replace (2 * (2 * 2 ^ (k - 1)) - 1) with (3 + (2 ^ (k - 1) - 1) * 4) by ring.
    by rewrite Z.mod_add. }
  split; [done|]. split; [done|].
  assert (Hin : ∀ x, x ∈ left ++ right →
            ∃ g t, g mod 4 = 1 ∧ 0 ≤ t ∧ x = g ^ t mod (2 * 2 ^ k)).
  { intros x [Hx|Hx]%elem_of_app.
    - apply list_elem_of_lookup in Hx as [t Ht].
      pose proof (lookup_lt_Some _ _ _ Ht) as Hlt. rewrite Hl in Hlt.
      destruct (Htab t Hlt) as [HL _]. rewrite HL in Ht. injection Ht as <-.
      exists 5, (Z.of_nat t). split; [done|]. split; [lia|done].
    - apply list_elem_of_lookup in Hx as [t Ht].
      pose proof (lookup_lt_Some _ _ _ Ht) as Hlt. rewrite Hr in Hlt.
      destruct (Htab t Hlt) as [_ HR]. rewrite HR in Ht. injection Ht as <-.
      eexists _, (Z.of_nat t). split; [|split; [lia|done]].
      apply (pow_mod4 5 k); [lia|lia|done]. }
  intros x Hx. destruct (Hin x Hx) as (g & t & Hg & Ht & ->).
  pose proof (pow_mod4 g k t ltac:(lia) Ht Hg) as H4.
  pose proof (Z.mod_pos_bound (g ^ t) (2 * 2 ^ k) ltac:(lia)) as Hb.
  split; [|split; [done|]].
  - split; [|lia]. destruct (decide (g ^ t mod (2 * 2 ^ k) = 0)) as [H0|]; [|lia].
    rewrite H0 in H4. discriminate.
  - intros Heq. rewrite Heq, Hrow in H4. discriminate.
Qed.

(** X4. Neither table of a constructed instance holds an element twice:
    rotation amounts that differ modulo [N/2] are served by different
    Galois elements. *)
Theorem NewRKG_tables_NoDup (ctx : BfvContext) (w : World) (k : Z)
    (rkg : RKG) (w' : World) :
  1 ≤ k ≤ 62 →
  bfv_N ctx = 2 ^ k →
  NewRKG ctx w = Ok (rkg, w') →
  NoDup (galElRotColLeft rkg) ∧ NoDup (galElRotColRight rkg).
Proof.
  intros Hk HN Hnew.
  destruct (NewRKG_run ctx w k Hk HN) as (left & right & Hrun & Hl & Hr & Htab).
  rewrite Hrun in Hnew. injection Hnew as <- <-.
  cbn [galElRotColLeft galElRotColRight].
  assert (Hhpos : 0 < 2 ^ (k - 1)) by (apply pow2_pos; lia).
  assert (Hpos : 0 < 2 ^ k) by (apply pow2_pos; lia).
  split; apply NoDup_alt; intros i j x Hi Hj.
  - pose proof (lookup_lt_Some _ _ _ Hi) as Hli. rewrite Hl in Hli.
    pose proof (lookup_lt_Some _ _ _ Hj) as Hlj. rewrite Hl in Hlj.
    destruct (Htab i Hli) as [HL _]. rewrite HL in Hi. injection Hi as <-.
    destruct (Htab j Hlj) as [HL' _]. rewrite HL' in Hj. injection Hj as Hj.
    apply Nat2Z.inj. apply (five_pow_inj k); (done || lia).
  - pose proof (lookup_lt_Some _ _ _ Hi) as Hli. rewrite Hr in Hli.
    pose proof (lookup_lt_Some _ _ _ Hj) as Hlj. rewrite Hr in Hlj.
    destruct (Htab i Hli) as [_ HR]. rewrite HR in Hi. injection Hi as <-.
    destruct (Htab j Hlj) as [_ HR']. rewrite HR' in Hj. injection Hj as Hj.
    apply Nat2Z.inj. apply (five_pow_inj k); [lia|lia|lia|].
    apply (mod_inverse_unique (2 * 2 ^ k) _ _
             ((5 ^ (2 * 2 ^ k - 1) mod (2 * 2 ^ k)) ^ Z.of_nat i mod (2 * 2 ^ k))).
    + lia.
    + apply Z.mod_pos_bound. lia.
    + apply Z.mod_pos_bound. lia.
    + apply gen_genInv_pow; lia.
    + rewrite <- Hj. apply gen_genInv_pow; lia.
Qed.

(** X5. On a constructed instance no rotation amount makes a column
    generator fail on its table: a left rotation by [amount] uses the
    element [5^(amount mod N/2) mod 2N], a right rotation the same power of
    the inverse generator, and the row rotation the element [2N - 1]. *)
Theorem NewRKG_then_generate (PermuteNTT : Ring.Poly → Z → Ring.Poly)
    (ctx : BfvContext) (w : World) (k : Z) (rkg : RKG) (w' : World)
    (sk : loc) (amount : Z) (crp : list loc) (w0 : World) :
  1 ≤ k ≤ 62 →
  bfv_N ctx = 2 ^ k →
  Ring.N (ContextKeys ctx) = bfv_N ctx →
  NewRKG ctx w = Ok (rkg, w') →
  0 ≤ amount →
  GenShareRotLeft PermuteNTT rkg sk amount crp w0
    = gen_share PermuteNTT rkg sk
        (5 ^ (amount mod (bfv_N ctx / 2)) mod (2 * bfv_N ctx)) crp w0 ∧
  GenShareRotRight PermuteNTT rkg sk amount crp w0
    = gen_share PermuteNTT rkg sk
        (genInv rkg ^ (amount mod (bfv_N ctx / 2)) mod (2 * bfv_N ctx)) crp w0 ∧
  GenShareRotRow PermuteNTT rkg sk crp w0
    = gen_share PermuteNTT rkg sk (2 * bfv_N ctx - 1) crp w0.
Proof.
  intros Hk HN HNk Hnew Ha.
  destruct (NewRKG_selector ctx w k rkg w' amount Hk HN HNk Hnew Ha) as [HL HR].
  destruct (NewRKG_run ctx w k Hk HN) as (left & right & Hrun & _).
  destruct (half_mask (bfv_N ctx) k ltac:(lia) HN) as (_ & _ & Hhalf).
  rewrite Hhalf, HN.
  assert (Hg : genInv rkg = 5 ^ (2 * 2 ^ k - 1) mod (2 * 2 ^ k)
               ∧ galElRotRow rkg = 2 * 2 ^ k - 1).
  { rewrite Hrun in Hnew. by injection Hnew as <- <-. }
  destruct Hg as (Hgi & Hrow).
  split; [|split].
  - by apply (generateShare_gen_share PermuteNTT rkg (ColumnLeft amount)).
  - rewrite Hgi. by apply (generateShare_gen_share PermuteNTT rkg (ColumnRight amount)).
  - apply (generateShare_gen_share PermuteNTT rkg Row). simpl. by rewrite Hrow.
Qed.

(** X6. On a constructed instance a right rotation by [amount] produces
    the share of the left rotation by [N/2 - amount mod N/2], in every
    machine state. *)
Theorem GenShareRotRight_as_left (PermuteNTT : Ring.Poly → Z → Ring.Poly)
    (ctx : BfvContext) (w : World) (k : Z) (rkg : RKG) (w' : World)
    (sk : loc) (amount : Z) (crp : list loc) (w0 : World) :
  1 ≤ k ≤ 62 →
  bfv_N ctx = 2 ^ k →
  Ring.N (ContextKeys ctx) = bfv_N ctx →
  NewRKG ctx w = Ok (rkg, w') →
  0 ≤ amount →
  GenShareRotRight PermuteNTT rkg sk amount crp w0
    = GenShareRotLeft PermuteNTT rkg sk
        (bfv_N ctx / 2 - amount mod (bfv_N ctx / 2)) crp w0.
Proof.
  intros Hk HN HNk Hnew Ha.
  destruct (half_mask (bfv_N ctx) k ltac:(lia) HN) as (_ & _ & Hhalf).
  rewrite Hhalf.
  assert (Hhpos : 0 < 2 ^ (k - 1)) by (apply pow2_pos; lia).
  pose proof (Z.mod_pos_bound amount (2 ^ (k - 1)) Hhpos) as Hb.
  destruct (NewRKG_selector ctx w k rkg w' amount Hk HN HNk Hnew Ha) as [_ HR].
  destruct (NewRKG_selector ctx w k rkg w' (2 ^ (k - 1) - amount mod 2 ^ (k - 1))
              Hk HN HNk Hnew ltac:(lia)) as [HL _].
  rewrite (generateShare_gen_share PermuteNTT rkg (ColumnRight amount) _ _ _ _ HR
           : GenShareRotRight PermuteNTT rkg sk amount crp w0 = _).
  rewrite (generateShare_gen_share PermuteNTT rkg (ColumnLeft _) _ _ _ _ HL
           : GenShareRotLeft PermuteNTT rkg sk _ crp w0 = _).
  f_equal. apply genInv_pow_mirror; lia.
Qed.

(** ** What the heap operations leave alone *)

Lemma frame_refl (keep : nat → Prop) (w : World) : frame keep 0 0 w w.
Proof. unfold frame. repeat split; lia. Qed.

Lemma frame_trans (keep : nat → Prop) (g1 d1 g2 d2 : nat) (w w1 w2 : World) :
  frame keep g1 d1 w w1 → frame keep g2 d2 w1 w2 →
  frame keep (g1 + g2) (d1 + d2) w w2.
Proof.
  intros (Hk1 & Hl1 & Hn1 & Hd1) (Hk2 & Hl2 & Hn2 & Hd2). unfold frame.
  split; [|split; [lia|split; [congruence|lia]]].
  intros l Hl. rewrite Hk2, Hk1; done.
Qed.

Lemma lift_inv {A : Type} (r : result A) (w : World) (a : A) (w' : World) :
  lift r w = Ok (a, w') → r = Ok a ∧ w' = w.
Proof. unfold lift. destruct r; [|done]. by intros [= -> ->]. Qed.

Lemma load_inv (l : loc) (w : World) (p : Ring.Poly) (w' : World) :
  load l w = Ok (p, w') → heap w !! l = Some p ∧ w' = w.
Proof. unfold load. destruct (heap w !! l); [|done]. by intros [= -> ->]. Qed.

Lemma store_frame (keep : nat → Prop) (l : loc) (p : Ring.Poly) (w : World)
    (u : unit) (w' : World) :
  store l p w = Ok (u, w') → ¬ keep l → frame keep 0 0 w w'.
Proof.
  unfold store. destruct (decide _); [|done]. intros [= _ <-] Hl. unfold frame.
  cbn [heap noise drawn]. rewrite length_insert.
  split; [|split; [lia|split; [done|lia]]].
  intros l' Hl'. apply list_lookup_insert_ne. by intros ->.
Qed.

Lemma alloc_frame (keep : nat → Prop) (p : Ring.Poly) (w : World)
    (l : loc) (w' : World) :
  alloc p w = Ok (l, w') →
  (∀ l, keep l → (l < length (heap w))%nat) →
  l = length (heap w) ∧ frame keep 1 0 w w'.
Proof.
  unfold alloc. intros [= <- <-] Hk. split; [done|]. unfold frame.
  cbn [heap noise drawn]. rewrite length_app. cbn [length].
  split; [|split; [lia|split; [done|lia]]].
  intros l' Hl'. apply lookup_app_l. by apply Hk.
Qed.

Lemma CopyNew_frame (keep : nat → Prop) (p : loc) (w : World) (l : loc) (w' : World) :
  CopyNew p w = Ok (l, w') →
  (∀ l, keep l → (l < length (heap w))%nat) →
  l = length (heap w) ∧ frame keep 1 0 w w'.
Proof.
  unfold CopyNew. intros (v & w1 & Hv & Ha)%bind_Ok Hk.
  apply load_inv in Hv as [_ ->]. by apply (alloc_frame keep v).
Qed.

Lemma SampleNTTNew_frame (keep : nat → Prop) (w : World) (l : loc) (w' : World) :
  SampleNTTNew w = Ok (l, w') →
  (∀ l, keep l → (l < length (heap w))%nat) →
  l = length (heap w) ∧ frame keep 1 1 w w'.
Proof.
  unfold SampleNTTNew. intros [= <- <-] Hk. split; [done|]. unfold frame.
  cbn [heap noise drawn]. rewrite length_app. cbn [length].
  split; [|split; [lia|split; [done|lia]]].
  intros l' Hl'. apply lookup_app_l. by apply Hk.
Qed.

(** The backend calls write to their last argument only. *)
Lemma unary_frame (keep : nat → Prop) (f : Ring.Poly → Ring.Poly) (p1 p2 : loc)
    (w : World) (u : unit) (w' : World) :
  (do x <- load p1 ;; store p2 (f x)) w = Ok (u, w') →
  ¬ keep p2 → frame keep 0 0 w w'.
Proof.
  intros (v & w1 & Hv & Hs)%bind_Ok Hk.
  apply load_inv in Hv as [_ ->]. by apply (store_frame keep) in Hs.
Qed.

Lemma binary_frame (keep : nat → Prop) (f : Ring.Poly → Ring.Poly → Ring.Poly)
    (p1 p2 p3 : loc) (w : World) (u : unit) (w' : World) :
  (do x <- load p1 ;; do y <- load p2 ;; store p3 (f x y)) w = Ok (u, w') →
  ¬ keep p3 → frame keep 0 0 w w'.
Proof.
  intros (v1 & w1 & Hv1 & (v2 & w2 & Hv2 & Hs)%bind_Ok)%bind_Ok Hk.
  apply load_inv in Hv1 as [_ ->]. apply load_inv in Hv2 as [_ ->].
  by apply (store_frame keep) in Hs.
Qed.

Lemma ternary_frame (keep : nat → Prop)
    (f : Ring.Poly → Ring.Poly → Ring.Poly → Ring.Poly)
    (p1 p2 p3 : loc) (w : World) (u : unit) (w' : World) :
  (do x <- load p1 ;; do y <- load p2 ;; do z <- load p3 ;; store p3 (f x y z)) w
    = Ok (u, w') →
  ¬ keep p3 → frame keep 0 0 w w'.
Proof.
  intros (v1 & w1 & Hv1 & (v2 & w2 & Hv2 & (v3 & w3 & Hv3 & Hs)%bind_Ok)%bind_Ok)%bind_Ok Hk.
  apply load_inv in Hv1 as [_ ->]. apply load_inv in Hv2 as [_ ->].
  apply load_inv in Hv3 as [_ ->].
  by apply (store_frame keep) in Hs.
Qed.

Lemma frame_below (keep : nat → Prop) (g d : nat) (w w' : World) :
  frame keep g d w w' →
  (∀ l, keep l → (l < length (heap w))%nat) →
  ∀ l, keep l → (l < length (heap w'))%nat.
Proof. intros (_ & Hl & _) Hk l Hkl. specialize (Hk l Hkl). lia. Qed.

(** *** Aggregation *)

Lemma aggregate_sum_frame (keep : nat → Prop) (context : Ring.Context)
    (samples : list (list loc)) (i : nat) (r0 : loc) :
  ¬ keep r0 →
  ∀ (fuel j : nat) (w : World) (u : unit) (w' : World),
    aggregate_sum fuel j context samples i r0 w = Ok (u, w') →
    frame keep 0 0 w w'.
Proof.
  intros Hk. induction fuel as [|fuel IH]; intros j w u w' Hrun.
  - injection Hrun as _ <-. apply frame_refl.
  - cbn [aggregate_sum] in Hrun.
    apply bind_Ok in Hrun as (sj & w1 & [_ ->]%lift_inv & Hrun).
    apply bind_Ok in Hrun as (s & w1 & [_ ->]%lift_inv & Hrun).
    apply bind_Ok in Hrun as (u1 & w1 & Hadd & Hrun).
    apply (binary_frame keep) in Hadd; [|done].
    apply bind_Ok in Hrun as (u2 & w2 & Hred & Hrun).
    assert (Hf2 : frame keep 0 0 w1 w2).
    { destruct (_ =? _).
      - by apply (unary_frame keep) in Hred.
      - injection Hred as _ <-. apply frame_refl. }
    apply IH in Hrun.
    exact (frame_trans keep 0 0 0 0 _ _ _ Hadd (frame_trans keep 0 0 0 0 _ _ _ Hf2 Hrun)).
Qed.

Lemma aggregate_loop_frame (keep : nat → Prop) (rkg : RKG)
    (samples : list (list loc)) (crp : list loc) :
  ∀ (fuel i : nat) (receiver : SwitchingKey) (w : World)
    (r : SwitchingKey) (w' : World),
    aggregate_loop fuel i rkg samples crp receiver w = Ok (r, w') →
    (∀ l, keep l → (l < length (heap w))%nat) →
    frame keep (2 * fuel) 0 w w' ∧
    r = receiver
          ++ ((λ k, (length (heap w) + 2 * k, length (heap w) + 2 * k + 1)%nat)
                <$> seq 0 fuel).
Proof.
  induction fuel as [|fuel IH]; intros i receiver w r w' Hrun Hk.
  - injection Hrun as <- <-. split; [apply frame_refl|]. simpl. by rewrite app_nil_r.
  - cbn [aggregate_loop] in Hrun.
    apply bind_Ok in Hrun as (s0 & w1 & [_ ->]%lift_inv & Hrun).
    apply bind_Ok in Hrun as (s & w1 & [_ ->]%lift_inv & Hrun).
    apply bind_Ok in Hrun as (r0 & w1 & Hr0 & Hrun).
    apply (CopyNew_frame keep) in Hr0 as [-> F1]; [|done].
    pose proof (frame_below _ _ _ _ _ F1 Hk) as Hk1.
    apply bind_Ok in Hrun as (c & w1' & [_ ->]%lift_inv & Hrun).
    apply bind_Ok in Hrun as (r1 & w2 & Hr1 & Hrun).
    apply (CopyNew_frame keep) in Hr1 as [-> F2]; [|done].
    pose proof (frame_below _ _ _ _ _ F2 Hk1) as Hk2.
    assert (Hn0 : ¬ keep (length (heap w))).
    { intros H. specialize (Hk _ H). lia. }
    assert (Hn1 : ¬ keep (length (heap w1))).
    { intros H. specialize (Hk1 _ H). lia. }
    apply bind_Ok in Hrun as (u3 & w3 & Hm & Hrun).
    apply (unary_frame keep) in Hm; [|done].
    apply bind_Ok in Hrun as (u4 & w4 & Hsum & Hrun).
    apply (aggregate_sum_frame keep) in Hsum; [|done].
    apply bind_Ok in Hrun as (u5 & w5 & Hred & Hrun).
    assert (F5 : frame keep 0 0 w4 w5).
    { destruct (negb _).
      - by apply (unary_frame keep) in Hred.
      - injection Hred as _ <-. apply frame_refl. }
    pose proof (frame_trans _ _ _ _ _ _ _ _
                  (frame_trans _ _ _ _ _ _ _ _
                     (frame_trans _ _ _ _ _ _ _ _
                        (frame_trans _ _ _ _ _ _ _ _ F1 F2) Hm) Hsum) F5) as F.
    cbn [Nat.add] in F.
    pose proof (frame_below _ _ _ _ _ F Hk) as Hk5.
    destruct (IH _ _ _ _ _ Hrun Hk5) as [F' ->].
    pose proof (frame_trans _ _ _ _ _ _ _ _ F F') as Fall.
    split.
    + replace (2 * S fuel)%nat with (2 + 2 * fuel)%nat by lia. exact Fall.
    + rewrite <- app_assoc. f_equal. cbn [seq fmap list_fmap app].
      destruct F1 as (_ & Hl1 & _). destruct F as (_ & Hl5 & _).
      f_equal; [f_equal; lia|].
      rewrite <- fmap_S_seq, <- list_fmap_compose.
      apply list_fmap_ext. intros k x _. simpl. f_equal; lia.
Qed.

(** *** Share generation *)

Lemma inject_coeffs_frame (keep : nat → Prop) (context : Ring.Context)
    (ev pool : loc) (index : nat) :
  ¬ keep ev →
  ∀ (fuel col : nat) (w : World) (u : unit) (w' : World),
    inject_coeffs fuel col context ev pool index w = Ok (u, w') →
    frame keep 0 0 w w'.
Proof.
  intros Hk. induction fuel as [|fuel IH]; intros col w u w' Hrun.
  - injection Hrun as _ <-. apply frame_refl.
  - cbn [inject_coeffs] in Hrun.
    apply bind_Ok in Hrun as (e & w1 & [_ ->]%load_inv & Hrun).
    apply bind_Ok in Hrun as (erow & w1 & [_ ->]%lift_inv & Hrun).
    apply bind_Ok in Hrun as (x & w1 & [_ ->]%lift_inv & Hrun).
    apply bind_Ok in Hrun as (p & w1 & [_ ->]%load_inv & Hrun).
    apply bind_Ok in Hrun as (prow & w1 & [_ ->]%lift_inv & Hrun).
    apply bind_Ok in Hrun as (y & w1 & [_ ->]%lift_inv & Hrun).
    apply bind_Ok in Hrun as (q & w1 & [_ ->]%lift_inv & Hrun).
    apply bind_Ok in Hrun as (u1 & w1 & Hs & Hrun).
    apply (store_frame keep) in Hs; [|done].
    apply IH in Hrun.
    exact (frame_trans keep 0 0 0 0 _ _ _ Hs Hrun).
Qed.

Lemma inject_digit_frame (keep : nat → Prop) (rkg : RKG) (i : nat) (ev : loc) :
  ¬ keep ev →
  ∀ (fuel j : nat) (w : World) (u : unit) (w' : World),
    inject_digit fuel j rkg i ev w = Ok (u, w') →
    frame keep 0 0 w w'.
Proof.
  intros Hk. induction fuel as [|fuel IH]; intros j w u w' Hrun.
  - injection Hrun as _ <-. apply frame_refl.
  - cbn [inject_digit] in Hrun.
    apply bind_Ok in Hrun as (u1 & w1 & Hc & Hrun).
    apply (inject_coeffs_frame keep) in Hc; [|done].
    destruct (_ =? _).
    + injection Hrun as _ <-. exact Hc.
    + apply IH in Hrun. exact (frame_trans keep 0 0 0 0 _ _ _ Hc Hrun).
Qed.

Lemma genswitchkey_loop_frame (keep : nat → Prop) (rkg : RKG) (sk : loc)
    (crp : list loc) :
  ∀ (fuel i : nat) (evakey : list loc) (w : World) (ev : list loc) (w' : World),
    genswitchkey_loop fuel i rkg sk crp evakey w = Ok (ev, w') →
    (∀ l, keep l → (l < length (heap w))%nat) →
    frame keep fuel fuel w w' ∧
    ev = evakey ++ seq (length (heap w)) fuel.
Proof.
  induction fuel as [|fuel IH]; intros i evakey w ev w' Hrun Hk.
  - injection Hrun as <- <-. split; [apply frame_refl|]. simpl. by rewrite app_nil_r.
  - cbn [genswitchkey_loop] in Hrun.
    apply bind_Ok in Hrun as (e & w1 & He & Hrun).
    apply (SampleNTTNew_frame keep) in He as [-> F1]; [|done].
    assert (Hn : ¬ keep (length (heap w))).
    { intros H. specialize (Hk _ H). lia. }
    apply bind_Ok in Hrun as (u2 & w2 & Hinj & Hrun).
    apply (inject_digit_frame keep) in Hinj; [|done].
    apply bind_Ok in Hrun as (c & w2' & [_ ->]%lift_inv & Hrun).
    apply bind_Ok in Hrun as (u3 & w3 & Hmul & Hrun).
    apply (ternary_frame keep) in Hmul; [|done].
    apply bind_Ok in Hrun as (u4 & w4 & Hm & Hrun).
    apply (unary_frame keep) in Hm; [|done].
    pose proof (frame_trans _ _ _ _ _ _ _ _
                  (frame_trans _ _ _ _ _ _ _ _
                     (frame_trans _ _ _ _ _ _ _ _ F1 Hinj) Hmul) Hm) as F.
    cbn [Nat.add] in F.
    pose proof (frame_below _ _ _ _ _ F Hk) as Hk4.
    destruct (IH _ _ _ _ _ Hrun Hk4) as [F' ->].
    split.
    + exact (frame_trans _ _ _ _ _ _ _ _ F F').
    + rewrite <- app_assoc. f_equal. cbn [seq app].
      destruct F as (_ & Hl & _). f_equal. f_equal. lia.
Qed.

Lemma scale_by_primes_frame (keep : nat → Prop) (context : Ring.Context)
    (pool : loc) :
  ¬ keep pool →
  ∀ (primes : list Z) (w : World) (u : unit) (w' : World),
    scale_by_primes context pool primes w = Ok (u, w') →
    frame keep 0 0 w w'.
Proof.
  intros Hk. induction primes as [|pj primes IH]; intros w u w' Hrun.
  - injection Hrun as _ <-. apply frame_refl.
  - cbn [scale_by_primes] in Hrun.
    apply bind_Ok in Hrun as (u1 & w1 & Hs & Hrun).
    apply (unary_frame keep (λ v, Ring.MulScalar_poly context v pj)) in Hs; [|done].
    apply IH in Hrun. exact (frame_trans keep 0 0 0 0 _ _ _ Hs Hrun).
Qed.

Lemma gen_share_frame (PermuteNTT : Ring.Poly → Z → Ring.Poly) (rkg : RKG)
    (sk : loc) (g : Z) (crp : list loc) (w : World) (ev : list loc) (w' : World) :
  gen_share PermuteNTT rkg sk g crp w = Ok (ev, w') →
  frame (λ l, (l < length (heap w))%nat ∧ l ≠ polypool rkg)
        (Z.to_nat (Beta (bfvContext rkg))) (Z.to_nat (Beta (bfvContext rkg))) w w' ∧
  ev = seq (length (heap w)) (Z.to_nat (Beta (bfvContext rkg))).
Proof.
  intros Hrun. unfold gen_share in Hrun.
  set (keep := λ l, (l < length (heap w))%nat ∧ l ≠ polypool rkg).
  assert (Hn : ¬ keep (polypool rkg)) by (by intros [_ H]).
  assert (Hk : ∀ l, keep l → (l < length (heap w))%nat) by (by intros l [H _]).
  apply bind_Ok in Hrun as (u1 & w1 & H1 & Hrun).
  apply (unary_frame keep (λ v, PermuteNTT v g)) in H1; [|done].
  apply bind_Ok in Hrun as (u2 & w2 & H2 & Hrun).
  apply (binary_frame keep) in H2; [|done].
  apply bind_Ok in Hrun as (u3 & w3 & H3 & Hrun).
  apply (scale_by_primes_frame keep) in H3; [|done].
  apply bind_Ok in Hrun as (u4 & w4 & H4 & Hrun).
  apply (unary_frame keep) in H4; [|done].
  pose proof (frame_trans _ _ _ _ _ _ _ _
                (frame_trans _ _ _ _ _ _ _ _
                   (frame_trans _ _ _ _ _ _ _ _ H1 H2) H3) H4) as F.
  cbn [Nat.add] in F.
  pose proof (frame_below _ _ _ _ _ F Hk) as Hk4.
  unfold genswitchkey in Hrun.
  destruct (genswitchkey_loop_frame keep _ _ _ _ _ _ _ _ _ Hrun Hk4) as [F' ->].
  split.
  - exact (frame_trans _ _ _ _ _ _ _ _ F F').
  - destruct F as (_ & Hl & _). cbn [app]. f_equal. lia.
Qed.

Lemma frame_prefix (g d : nat) (w w' : World) :
  frame (λ l, (l < length (heap w))%nat) g d w w' →
  ∃ news, heap w' = heap w ++ news ∧ length news = g.
Proof.
  intros (Hk & Hl & _). exists (drop (length (heap w)) (heap w')). split.
  - rewrite <- (take_drop (length (heap w)) (heap w')) at 1. f_equal.
    apply list_eq. intros l.
    destruct (decide (l < length (heap w))%nat) as [Hlt|Hge].
    + rewrite lookup_take_lt by done. by apply Hk.
    + rewrite lookup_take_ge by lia. symmetry. apply lookup_ge_None. lia.
  - rewrite length_drop. lia.
Qed.

(** X7. Whenever [aggregate] returns, whatever the share vectors and the
    CRP hold, it returns exactly [Beta] pairs, the polynomials it has
    allocated two by two at the end of the heap; no polynomial present at
    the call is changed and the sampler is not used. *)
Theorem aggregate_effect (rkg : RKG) (samples : list (list loc)) (crp : list loc)
    (w : World) (receiver : SwitchingKey) (w' : World) :
  aggregate rkg samples crp w = Ok (receiver, w') →
  let n := Z.to_nat (Beta (bfvContext rkg)) in
  receiver = (λ k, (length (heap w) + 2 * k, length (heap w) + 2 * k + 1)%nat) <$> seq 0 n ∧
  length receiver = n ∧
  (∃ news, heap w' = heap w ++ news ∧ length news = (2 * n)%nat) ∧
  noise w' = noise w ∧ drawn w' = drawn w.
Proof.
  intros Hrun n. unfold aggregate in Hrun.
  destruct (aggregate_loop_frame (λ l, (l < length (heap w))%nat) _ _ _ _ _ _ _ _ _
              Hrun ltac:(done)) as [F ->].
  cbn [app]. split; [done|]. split; [by rewrite length_fmap, length_seq|].
  split; [by apply (frame_prefix _ 0)|].
  destruct F as (_ & _ & Hn & Hd). split; [done|lia].
Qed.

(** X8. Whenever [genswitchkey] returns, whatever its arguments hold, it
    has consumed exactly [Beta] draws and returns the [Beta] polynomials it
    has allocated at the end of the heap; it changes no polynomial present
    at the call, the scratch buffer included. *)
Theorem genswitchkey_effect (rkg : RKG) (sk_in sk_out : loc) (crp : list loc)
    (w : World) (evakey : list loc) (w' : World) :
  genswitchkey rkg sk_in sk_out crp w = Ok (evakey, w') →
  let n := Z.to_nat (Beta (bfvContext rkg)) in
  evakey = seq (length (heap w)) n ∧
  (∃ news, heap w' = heap w ++ news ∧ length news = n) ∧
  noise w' = noise w ∧ drawn w' = (drawn w + n)%nat.
Proof.
  intros Hrun n. unfold genswitchkey in Hrun.
  destruct (genswitchkey_loop_frame (λ l, (l < length (heap w))%nat) _ _ _ _ _ _ _ _ _
              Hrun ltac:(done)) as [F ->].
  cbn [app]. split; [done|]. split; [by apply (frame_prefix _ n)|].
  destruct F as (_ & _ & Hn & Hd). done.
Qed.

(** X9. Whenever one of the three generators returns, whatever its
    arguments hold, it has consumed exactly [Beta] draws and returns the
    [Beta] polynomials it has allocated at the end of the heap; among the
    polynomials present at the call only the scratch buffer of the
    instance may have changed. *)
Theorem generateShare_effect (PermuteNTT : Ring.Poly → Z → Ring.Poly) (rkg : RKG)
    (sel : selector) (sk : loc) (crp : list loc)
    (w : World) (evakey : list loc) (w' : World) :
  generateShare PermuteNTT rkg sel sk crp w = Ok (evakey, w') →
  let n := Z.to_nat (Beta (bfvContext rkg)) in
  evakey = seq (length (heap w)) n ∧
  length (heap w') = (length (heap w) + n)%nat ∧
  (∀ l, (l < length (heap w))%nat → l ≠ polypool rkg → heap w' !! l = heap w !! l) ∧
  noise w' = noise w ∧ drawn w' = (drawn w + n)%nat.
Proof.
  intros Hrun n.
  assert (Hg : ∃ g, gen_share PermuteNTT rkg sk g crp w = Ok (evakey, w')).
  { destruct sel as [k|k|]; cbn [generateShare] in Hrun.
    - unfold GenShareRotLeft in Hrun.
      apply bind_Ok in Hrun as (g & w1 & [_ ->]%lift_inv & Hrun). by exists g.
    - unfold GenShareRotRight in Hrun.
      apply bind_Ok in Hrun as (g & w1 & [_ ->]%lift_inv & Hrun). by exists g.
    - by exists (galElRotRow rkg). }
  destruct Hg as [g Hg].
  destruct (gen_share_frame _ _ _ _ _ _ _ _ Hg) as [(Hk & Hl & Hn & Hd) ->].
  split; [done|]. split; [done|]. split; [|done].
  intros l Hlt Hne. by apply Hk.
Qed.

(** *** The accumulator *)

Lemma key_in_mono (n lo lo' : nat) (h h' : list Ring.Poly) (key : SwitchingKey) :
  (lo ≤ lo')%nat → (length h ≤ length h')%nat →
  key_in n lo' h key → key_in n lo h' key.
Proof.
  intros Hlo Hle [Hlen Hall]. split; [done|].
  eapply Forall_impl; [exact Hall|]. intros [b a] [Hb Ha]. simpl in *. lia.
Qed.

Lemma aggregate_key_in (rkg : RKG) (samples : list (list loc)) (crp : list loc)
    (w : World) (receiver : SwitchingKey) (w' : World) :
  aggregate rkg samples crp w = Ok (receiver, w') →
  (length (heap w) ≤ length (heap w'))%nat ∧
  key_in (Z.to_nat (Beta (bfvContext rkg))) (length (heap w)) (heap w') receiver.
Proof.
  intros Hrun. unfold aggregate in Hrun.
  destruct (aggregate_loop_frame (λ l, (l < length (heap w))%nat) _ _ _ _ _ _ _ _ _
              Hrun ltac:(done)) as [(_ & Hl & _) ->].
  split; [lia|]. cbn [app]. split; [by rewrite length_fmap, length_seq|].
  apply Forall_fmap, Forall_forall. intros k [_ Hk]%elem_of_seq. simpl. lia.
Qed.

Lemma run_call_accumulator_in (lo : nat) (rkg : RKG) (c : agg_call) (w : World)
    (rkg' : RKG) (w' : World) :
  run_call rkg c w = Ok (rkg', w') →
  (lo ≤ length (heap w))%nat →
  accumulator_in (Z.to_nat (Beta (bfvContext rkg))) lo (heap w) rkg →
  bfvContext rkg' = bfvContext rkg ∧
  (length (heap w) ≤ length (heap w'))%nat ∧
  accumulator_in (Z.to_nat (Beta (bfvContext rkg))) lo (heap w') rkg'.
Proof.
  intros Hrun Hlo (HL & HR & Hrow).
  assert (Hagg : ∃ r, aggregate_key r rkg c rkg' ∧
            (length (heap w) ≤ length (heap w'))%nat ∧
            key_in (Z.to_nat (Beta (bfvContext rkg))) lo (heap w') r).
  { destruct c as [s k cr|s k cr|s cr]; cbn [run_call] in Hrun;
      unfold AggregateRotColL, AggregateRotColR, AggregateRotRow in Hrun;
      apply bind_Ok in Hrun as (r & w1 & Hagg & Hret);
      injection Hret as <- <-;
      destruct (aggregate_key_in _ _ _ _ _ _ Hagg) as [Hle Hkey];
      exists r; (split; [reflexivity|]); (split; [done|]);
      exact (key_in_mono _ lo _ _ _ _ Hlo (Nat.le_refl _) Hkey). }
  destruct Hagg as (r & Hfile & Hle & Hkey).
  assert (Hold : ∀ key, key_in (Z.to_nat (Beta (bfvContext rkg))) lo (heap w) key →
                        key_in (Z.to_nat (Beta (bfvContext rkg))) lo (heap w') key).
  { intros key. apply key_in_mono; [lia|exact Hle]. }
  destruct c as [s k cr|s k cr|s cr]; cbn [aggregate_key] in Hfile; subst rkg';
    (split; [done|]); (split; [done|]); unfold accumulator_in; simpl.
  - split; [|split].
    + intros k0 key [[_ <-]|[_ Hk]]%lookup_insert_Some; [done|]. by eapply Hold, HL.
    + intros k0 key Hk. by eapply Hold, HR.
    + intros key Hk. by eapply Hold, Hrow.
  - split; [|split].
    + intros k0 key Hk. by eapply Hold, HL.
    + intros k0 key [[_ <-]|[_ Hk]]%lookup_insert_Some; [done|]. by eapply Hold, HR.
    + intros key Hk. by eapply Hold, Hrow.
  - split; [|split].
    + intros k0 key Hk. by eapply Hold, HL.
    + intros k0 key Hk. by eapply Hold, HR.
    + by intros key [= <-].
Qed.

Lemma run_calls_accumulator_in (lo : nat) (calls : list agg_call) :
  ∀ (rkg : RKG) (w : World) (rkg' : RKG) (w' : World),
    run_calls calls rkg w = Ok (rkg', w') →
    (lo ≤ length (heap w))%nat →
    accumulator_in (Z.to_nat (Beta (bfvContext rkg))) lo (heap w) rkg →
    bfvContext rkg' = bfvContext rkg ∧
    (length (heap w) ≤ length (heap w'))%nat ∧
    accumulator_in (Z.to_nat (Beta (bfvContext rkg))) lo (heap w') rkg'.
Proof.
  induction calls as [|c calls IH]; intros rkg w rkg' w' Hrun Hlo Hacc.
  - injection Hrun as <- <-. done.
  - cbn [run_calls] in Hrun. apply bind_Ok in Hrun as (rkg1 & w1 & Hc & Hrun).
    destruct (run_call_accumulator_in _ _ _ _ _ _ Hc Hlo Hacc) as (Hctx & Hle & Hacc1).
    rewrite <- Hctx in Hacc1.
    destruct (IH _ _ _ _ Hrun ltac:(lia) Hacc1) as (Hctx' & Hle' & Hacc').
    split; [congruence|]. split; [lia|]. by rewrite <- Hctx.
Qed.

(** X10. After any successful sequence of aggregation calls on a drained
    instance, every key [Finalize] hands out, of any kind, consists of
    exactly [Beta] pairs of polynomials, all of them allocated by these
    calls. *)
Theorem finalized_keys_complete (calls : list agg_call) (rkg : RKG) (w : World)
    (rkg' : RKG) (w' : World) :
  drained rkg →
  run_calls calls rkg w = Ok (rkg', w') →
  let keys := (Finalize rkg').1 in
  ∀ key,
    (∃ k, evakey_rot_col_L keys !! k = Some key) ∨
    (∃ k, evakey_rot_col_R keys !! k = Some key) ∨
    evakey_rot_row keys = Some key →
    length key = Z.to_nat (Beta (bfvContext rkg)) ∧
    ∀ b a, (b, a) ∈ key →
      (length (heap w) ≤ b < length (heap w'))%nat ∧
      (length (heap w) ≤ a < length (heap w'))%nat.
Proof.
  intros (HL & HR & Hrow) Hrun keys key Hkey. subst keys.
  assert (Hacc : accumulator_in (Z.to_nat (Beta (bfvContext rkg))) (length (heap w))
                   (heap w) rkg).
  { unfold accumulator_in. rewrite HL, HR, Hrow. split; [|split]; intros; done. }
  destruct (run_calls_accumulator_in _ _ _ _ _ _ Hrun (Nat.le_refl _) Hacc)
    as (_ & _ & (HL' & HR' & Hrow')).
  rewrite Finalize_spec in Hkey. cbn [fst evakey_rot_col_L evakey_rot_col_R
    evakey_rot_row] in Hkey.
  assert (Hin : key_in (Z.to_nat (Beta (bfvContext rkg))) (length (heap w))
                  (heap w') key).
  { destruct Hkey as [[k Hk]|[[k Hk]|Hk]]; eauto. }
  destruct Hin as [Hlen Hall]. split; [done|].
  intros b a Hba. by apply (proj1 (Forall_forall _ _) Hall (b, a)).
Qed.

(** ** Aggregation as a sum *)

Lemma sumZ_perm (xs ys : list Z) : xs ≡ₚ ys → sumZ xs = sumZ ys.
Proof.
  induction 1 as [|x xs ys _ IH|x y xs|xs ys zs _ IH1 _ IH2]; simpl.
  - done.
  - unfold sumZ in *. simpl. by rewrite IH.
  - unfold sumZ. simpl. lia.
  - congruence.
Qed.

Lemma usable_perm (h : list Ring.Poly) (samples samples' : list (list loc))
    (crp : list loc) (n : nat) :
  samples' ≡ₚ samples → usable h samples crp n → usable h samples' crp n.
Proof.
  intros Hp (Hne & Hs & Hc). split; [|split; [|done]].
  - intros ->. apply Permutation_nil_l in Hp. done.
  - intros st t Hst. apply Hs. by rewrite <- Hp.
Qed.

(** X11. The aggregate does not depend on the order in which the parties'
    shares are listed: for well-formed shares, [aggregate] on a permutation
    of the share vectors returns the same key and leaves the same heap. *)
Theorem aggregate_order_independent (rkg : RKG) (samples samples' : list (list loc))
    (crp : list loc) (w : World) :
  let c := ContextKeys (bfvContext rkg) in
  let n := Z.to_nat (Beta (bfvContext rkg)) in
  bounded_moduli c →
  usable (heap w) samples crp n →
  (∀ st t l, st ∈ samples → (t < n)%nat → st !! t = Some l →
             shaped c (val (heap w) l) ∧ reduced c (val (heap w) l)) →
  samples' ≡ₚ samples →
  aggregate rkg samples' crp w = aggregate rkg samples crp w.
Proof.
  intros c n Hb Hu Hwf Hp. subst c n. destruct w as [h nz d]. cbn [heap] in *.
  pose proof (usable_perm _ _ _ _ _ Hp Hu) as Hu'.
  assert (Hwf' : ∀ st t l, st ∈ samples' →
            (t < Z.to_nat (Beta (bfvContext rkg)))%nat → st !! t = Some l →
            shaped (ContextKeys (bfvContext rkg)) (val h l) ∧
            reduced (ContextKeys (bfvContext rkg)) (val h l)).
  { intros st t l Hst. apply Hwf. by rewrite <- Hp. }
  rewrite (aggregate_run rkg samples crp h nz d Hu).
  rewrite (aggregate_run rkg samples' crp h nz d Hu').
  assert (Heq : aggregate_digit (ContextKeys (bfvContext rkg)) h samples' crp
                  <$> seq 0 (Z.to_nat (Beta (bfvContext rkg)))
                = aggregate_digit (ContextKeys (bfvContext rkg)) h samples crp
                  <$> seq 0 (Z.to_nat (Beta (bfvContext rkg))));
    [|by rewrite Heq].
  apply list_fmap_ext. intros k t Ht.
  apply lookup_seq in Ht as [-> Ht]. change (0 + k)%nat with k.
  unfold aggregate_digit. f_equal.
  destruct (column_wf _ _ _ _ _ k Hu Hwf Ht) as (Hne & Hsh & Hre).
  destruct (column_wf _ _ _ _ _ k Hu' Hwf' Ht) as (Hne' & Hsh' & Hre').
  destruct (deferred_sum_coeff _ _ Hb Hne Hsh Hre) as [Hs Hc].
  destruct (deferred_sum_coeff _ _ Hb Hne' Hsh' Hre') as [Hs' Hc'].
  apply (poly_ext _ _ _ _ Hs' Hs). intros r col Hr Hcol.
  destruct (lookup_lt_is_Some_2 _ r Hr) as [q Hq].
  rewrite (Hc r col q Hq Hcol), (Hc' r col q Hq Hcol). f_equal.
  apply sumZ_perm. apply fmap_Permutation. unfold column.
  by apply fmap_Permutation.
Qed.


(** ** The operations do not read the accumulator *)

Lemma bind_ext {A B : Type} (m m' : M A) (f f' : A → M B) (w : World) :
  m w = m' w → (∀ a w1, f a w1 = f' a w1) → bind m f w = bind m' f' w.
Proof.
  intros Hm Hf. unfold bind. rewrite Hm.
  destruct (m' w) as [[a w1]|e]; [apply Hf|done].
Qed.

Lemma inject_digit_static (rkg rkg' : RKG) :
  bfvContext rkg' = bfvContext rkg → polypool rkg' = polypool rkg →
  ∀ (fuel j i : nat) (ev : loc) (w : World),
    inject_digit fuel j rkg' i ev w = inject_digit fuel j rkg i ev w.
Proof.
  intros Hc Hp. induction fuel as [|fuel IH]; intros j i ev w; [done|].
  cbn [inject_digit]. rewrite Hc, Hp. apply bind_ext; [done|].
  intros _ w1. destruct (_ =? _); [done|apply IH].
Qed.

Lemma genswitchkey_loop_static (rkg rkg' : RKG) (sk : loc) (crp : list loc) :
  bfvContext rkg' = bfvContext rkg → polypool rkg' = polypool rkg →
  ∀ (fuel i : nat) (evakey : list loc) (w : World),
    genswitchkey_loop fuel i rkg' sk crp evakey w
      = genswitchkey_loop fuel i rkg sk crp evakey w.
Proof.
  intros Hc Hp. induction fuel as [|fuel IH]; intros i evakey w; [done|].
  cbn [genswitchkey_loop]. rewrite Hc. apply bind_ext; [done|].
  intros e w1. apply bind_ext; [by apply inject_digit_static|].
  intros _ w2. apply bind_ext; [done|]. intros c w3.
  apply bind_ext; [done|]. intros _ w4. apply bind_ext; [done|]. intros _ w5.
  apply IH.
Qed.

Lemma gen_share_static (PermuteNTT : Ring.Poly → Z → Ring.Poly) (rkg rkg' : RKG)
    (sk : loc) (g : Z) (crp : list loc) (w : World) :
  bfvContext rkg' = bfvContext rkg → polypool rkg' = polypool rkg →
  gen_share PermuteNTT rkg' sk g crp w = gen_share PermuteNTT rkg sk g crp w.
Proof.
  intros Hc Hp. unfold gen_share, genswitchkey. rewrite Hc, Hp.
  apply bind_ext; [done|]. intros _ w1. apply bind_ext; [done|]. intros _ w2.
  apply bind_ext; [done|]. intros _ w3. apply bind_ext; [done|]. intros _ w4.
  by apply genswitchkey_loop_static.
Qed.

Lemma generateShare_static (PermuteNTT : Ring.Poly → Z → Ring.Poly) (rkg rkg' : RKG)
    (sel : selector) (sk : loc) (crp : list loc) (w : World) :
  bfvContext rkg' = bfvContext rkg → polypool rkg' = polypool rkg →
  galElRotColLeft rkg' = galElRotColLeft rkg →
  galElRotColRight rkg' = galElRotColRight rkg →
  galElRotRow rkg' = galElRotRow rkg →
  generateShare PermuteNTT rkg' sel sk crp w = generateShare PermuteNTT rkg sel sk crp w.
Proof.
  intros Hc Hp HL HR Hrow. destruct sel as [k|k|]; cbn [generateShare].
  - change (GenShareRotLeft PermuteNTT rkg' sk k crp w)
      with (bind (lift (idx (galElRotColLeft rkg')
                          (Z.to_nat (Z.land k (sub64 (shr64 (Ring.N (ContextKeys
                             (bfvContext rkg'))) 1) 1)))))
                 (λ g, gen_share PermuteNTT rkg' sk g crp) w).
    rewrite Hc, HL. apply bind_ext; [done|]. intros g w1.
    by apply gen_share_static.
  - change (GenShareRotRight PermuteNTT rkg' sk k crp w)
      with (bind (lift (idx (galElRotColRight rkg')
                          (Z.to_nat (Z.land k (sub64 (shr64 (Ring.N (ContextKeys
                             (bfvContext rkg'))) 1) 1)))))
                 (λ g, gen_share PermuteNTT rkg' sk g crp) w).
    rewrite Hc, HR. apply bind_ext; [done|]. intros g w1.
    by apply gen_share_static.
  - change (GenShareRotRow PermuteNTT rkg' sk crp w)
      with (gen_share PermuteNTT rkg' sk (galElRotRow rkg') crp w).
    rewrite Hrow. by apply gen_share_static.
Qed.

Lemma aggregate_loop_static (rkg rkg' : RKG) (samples : list (list loc))
    (crp : list loc) :
  bfvContext rkg' = bfvContext rkg →
  ∀ (fuel i : nat) (receiver : SwitchingKey) (w : World),
    aggregate_loop fuel i rkg' samples crp receiver w
      = aggregate_loop fuel i rkg samples crp receiver w.
Proof.
  intros Hc. induction fuel as [|fuel IH]; intros i receiver w; [done|].
  cbn [aggregate_loop]. rewrite Hc.
  repeat (apply bind_ext; [done|]; intros ? ?). apply IH.
Qed.

Lemma aggregate_static (rkg rkg' : RKG) (samples : list (list loc))
    (crp : list loc) (w : World) :
  bfvContext rkg' = bfvContext rkg →
  aggregate rkg' samples crp w = aggregate rkg samples crp w.
Proof.
  intros Hc. unfold aggregate. rewrite Hc. by apply aggregate_loop_static.
Qed.

(** The fields the aggregators and [Finalize] never assign. *)
Lemma run_calls_static (calls : list agg_call) :
  ∀ (rkg : RKG) (w : World) (rkg' : RKG) (w' : World),
    run_calls calls rkg w = Ok (rkg', w') →
    bfvContext rkg' = bfvContext rkg ∧ polypool rkg' = polypool rkg ∧
    galElRotColLeft rkg' = galElRotColLeft rkg ∧
    galElRotColRight rkg' = galElRotColRight rkg ∧
    galElRotRow rkg' = galElRotRow rkg ∧
    gen rkg' = gen rkg ∧ genInv rkg' = genInv rkg.
Proof.
  induction calls as [|c calls IH]; intros rkg w rkg' w' Hrun.
  - by injection Hrun as <- <-.
  - cbn [run_calls] in Hrun. apply bind_Ok in Hrun as (rkg1 & w1 & Hc & Hrun).
    destruct (IH _ _ _ _ Hrun) as (H1 & H2 & H3 & H4 & H5 & H6 & H7).
    rewrite H1, H2, H3, H4, H5, H6, H7.
    destruct c as [s k cr|s k cr|s cr]; cbn [run_call] in Hc;
      unfold AggregateRotColL, AggregateRotColR, AggregateRotRow in Hc;
      apply bind_Ok in Hc as (r & w2 & _ & Hret); by injection Hret as <- <-.
Qed.

(** X13. Share generation and aggregation never read the accumulator:
    after any successful sequence of aggregator calls, and after the
    [Finalize] that follows, the instance generates and aggregates exactly
    as it did before, in every machine state. *)
Theorem operations_ignore_accumulator (PermuteNTT : Ring.Poly → Z → Ring.Poly)
    (calls : list agg_call) (rkg : RKG) (w0 : World) (rkg1 : RKG) (w1 : World) :
  run_calls calls rkg w0 = Ok (rkg1, w1) →
  ∀ (sel : selector) (sk : loc) (samples : list (list loc)) (crp : list loc)
    (w : World),
    generateShare PermuteNTT rkg1 sel sk crp w
      = generateShare PermuteNTT rkg sel sk crp w ∧
    generateShare PermuteNTT (Finalize rkg1).2 sel sk crp w
      = generateShare PermuteNTT rkg sel sk crp w ∧
    aggregate rkg1 samples crp w = aggregate rkg samples crp w ∧
    aggregate (Finalize rkg1).2 samples crp w = aggregate rkg samples crp w.
Proof.
  intros Hrun sel sk samples crp w.
  destruct (run_calls_static _ _ _ _ _ Hrun) as (Hc & Hp & HL & HR & Hrow & _).
  rewrite Finalize_spec. cbn [snd].
  split; [by apply generateShare_static|].
  split; [by apply generateShare_static|].
  split; by apply aggregate_static.
Qed.

(** ** Filed keys stay as they are *)

Lemma generateShare_frame (PermuteNTT : Ring.Poly → Z → Ring.Poly) (rkg : RKG)
    (sel : selector) (sk : loc) (crp : list loc)
    (w : World) (evakey : list loc) (w' : World) :
  generateShare PermuteNTT rkg sel sk crp w = Ok (evakey, w') →
  frame (λ l, (l < length (heap w))%nat ∧ l ≠ polypool rkg)
        (Z.to_nat (Beta (bfvContext rkg))) (Z.to_nat (Beta (bfvContext rkg))) w w'.
Proof.
  intros Hrun.
  assert (Hg : ∃ g, gen_share PermuteNTT rkg sk g crp w = Ok (evakey, w')).
  { destruct sel as [k|k|]; cbn [generateShare] in Hrun.
    - unfold GenShareRotLeft in Hrun.
      apply bind_Ok in Hrun as (g & w1 & [_ ->]%lift_inv & Hrun). by exists g.
    - unfold GenShareRotRight in Hrun.
      apply bind_Ok in Hrun as (g & w1 & [_ ->]%lift_inv & Hrun). by exists g.
    - by exists (galElRotRow rkg). }
  destruct Hg as [g Hg]. by destruct (gen_share_frame _ _ _ _ _ _ _ _ Hg).
Qed.

Lemma run_calls_frame (keep : nat → Prop) (calls : list agg_call) :
  ∀ (rkg : RKG) (w : World) (rkg' : RKG) (w' : World),
    run_calls calls rkg w = Ok (rkg', w') →
    (∀ l, keep l → (l < length (heap w))%nat) →
    frame keep (2 * Z.to_nat (Beta (bfvContext rkg)) * length calls) 0 w w'.
Proof.
  induction calls as [|c calls IH]; intros rkg w rkg' w' Hrun Hk.
  - injection Hrun as <- <-. rewrite Nat.mul_0_r. apply frame_refl.
  - cbn [run_calls] in Hrun. apply bind_Ok in Hrun as (rkg1 & w1 & Hc & Hrun).
    assert (H1 : bfvContext rkg1 = bfvContext rkg ∧
                 frame keep (2 * Z.to_nat (Beta (bfvContext rkg))) 0 w w1).
    { destruct c as [s k cr|s k cr|s cr]; cbn [run_call] in Hc;
        unfold AggregateRotColL, AggregateRotColR, AggregateRotRow in Hc;
        apply bind_Ok in Hc as (r & w2 & Hagg & Hret); injection Hret as <- <-;
        (split; [done|]); unfold aggregate in Hagg;
        by destruct (aggregate_loop_frame keep _ _ _ _ _ _ _ _ _ Hagg Hk). }
    destruct H1 as [Hctx F1].
    pose proof (IH _ _ _ _ Hrun (frame_below _ _ _ _ _ F1 Hk)) as F2.
    rewrite Hctx in F2.
    pose proof (frame_trans _ _ _ _ _ _ _ _ F1 F2) as F.
    cbn [length Nat.add] in *.
    replace (2 * Z.to_nat (Beta (bfvContext rkg)) * S (length calls))%nat
      with (2 * Z.to_nat (Beta (bfvContext rkg))
            + 2 * Z.to_nat (Beta (bfvContext rkg)) * length calls)%nat by lia.
    exact F.
Qed.

(** X18. Keys filed in the accumulator are not touched by what the
    instance does next: the polynomials of every key present after a
    sequence of aggregator calls on a drained instance are the same after
    a share generation and any further sequence of aggregator calls. *)
Theorem filed_keys_are_stable (PermuteNTT : Ring.Poly → Z → Ring.Poly)
    (calls calls' : list agg_call) (rkg : RKG) (w : World)
    (rkg1 : RKG) (w1 : World) (sel : selector) (sk : loc) (crp : list loc)
    (evakey : list loc) (w2 : World) (rkg2 : RKG) (w3 : World) :
  drained rkg →
  (polypool rkg < length (heap w))%nat →
  run_calls calls rkg w = Ok (rkg1, w1) →
  generateShare PermuteNTT rkg1 sel sk crp w1 = Ok (evakey, w2) →
  run_calls calls' rkg1 w2 = Ok (rkg2, w3) →
  ∀ key,
    (∃ k, rot_col_L rkg1 !! k = Some key) ∨
    (∃ k, rot_col_R rkg1 !! k = Some key) ∨
    rot_row rkg1 = Some key →
    ∀ b a, (b, a) ∈ key →
      heap w3 !! b = heap w1 !! b ∧ heap w3 !! a = heap w1 !! a.
Proof.
  intros (HL & HR & Hrow) Hpool Hrun1 Hgen Hrun2 key Hkey b a Hba.
  assert (Hacc : accumulator_in (Z.to_nat (Beta (bfvContext rkg))) (length (heap w))
                   (heap w) rkg).
  { unfold accumulator_in. rewrite HL, HR, Hrow. split; [|split]; intros; done. }
  destruct (run_calls_accumulator_in _ _ _ _ _ _ Hrun1 (Nat.le_refl _) Hacc)
    as (_ & _ & (HL' & HR' & Hrow')).
  assert (Hin : key_in (Z.to_nat (Beta (bfvContext rkg))) (length (heap w))
                  (heap w1) key).
  { destruct Hkey as [[k Hk]|[[k Hk]|Hk]]; eauto. }
  destruct Hin as [_ Hall].
  pose proof (proj1 (Forall_forall _ _) Hall (b, a) Hba) as [Hb Ha]. simpl in Hb, Ha.
  destruct (run_calls_static _ _ _ _ _ Hrun1) as (_ & Hp & _).
  destruct (generateShare_frame _ _ _ _ _ _ _ _ Hgen) as (Hk2 & Hl2 & _).
  destruct (run_calls_frame (λ l, (l < length (heap w2))%nat) _ _ _ _ _ Hrun2
              ltac:(done)) as (Hk3 & _).
  split.
  - rewrite Hk3 by lia. apply Hk2. split; [lia|]. rewrite Hp. lia.
  - rewrite Hk3 by lia. apply Hk2. split; [lia|]. rewrite Hp. lia.
Qed.

(** ** The rows that receive the scratch polynomial *)

Lemma injected_rows (bc : BfvContext) (i r : nat) :
  wf_ctx bc → Z.of_nat i < Beta bc →
  injected bc i r = covers bc i r || past_chain bc i r.
Proof.
  intros (_ & _ & _ & _ & Ha & Hb & Hlo & Hhi) Hi.
  rewrite injected_covers. destruct (covers bc i r); [done|]. cbn [orb].
  unfold past_chain. split_comparisons; try done; exfalso; nia.
Qed.

(** X14. The digits of [genswitchkey] for any content of the scratch
    buffer: coefficient by coefficient and in Montgomery form, digit [i] is
    [noise_i + scratch * factor - crp[i] * sk_out], where the factor is one
    on the modulus-chain primes covered by the digit and, when [Alpha] does
    not divide the length of the chain, also on the first auxiliary prime
    in the last digit, and zero on every other row. *)
Theorem genswitchkey_digits (rkg : RKG) (sk_in sk : loc) (crp : list loc)
    (w : World) :
  let bc := bfvContext rkg in
  let c := ContextKeys bc in
  let n := Z.to_nat (Beta bc) in
  wf_ctx bc →
  bounded_moduli c →
  share_inputs rkg sk crp (heap w) (noise w) (drawn w) n →
  reduced c (val (heap w) (polypool rkg)) →
  (∀ t, (t < n)%nat → reduced c (noise w (drawn w + t)%nat)) →
  ∃ evakey w',
    genswitchkey rkg sk_in sk crp w = Ok (evakey, w') ∧
    length evakey = n ∧
    ∀ i, (i < n)%nat →
      ∃ l lc,
        evakey !! i = Some l ∧ crp !! i = Some lc ∧
        shaped c (val (heap w') l) ∧
        ∀ r col q,
          Ring.Modulus c !! r = Some q → (col < Z.to_nat (Ring.N c))%nat →
          coeff (val (heap w') l) r col =
            Ring.MForm q
              ((coeff (noise w (drawn w + i)%nat) r col
                + (if covers bc i r || past_chain bc i r
                   then coeff (val (heap w) (polypool rkg)) r col else 0)
                - Ring.MRed q (coeff (val (heap w) lc) r col)
                              (coeff (val (heap w) sk) r col)) mod q).
Proof.
  intros bc c n Hwf Hb Hin Hpool Hred. subst bc c n. destruct w as [h nz d].
  cbn [heap noise drawn] in *.
  destruct (genswitchkey_run rkg sk_in sk crp h nz d Hwf Hin)
    as (news & Hrun & Hlen & Hc).
  eexists _, _. split; [exact Hrun|]. split; [by rewrite length_seq|].
  intros i Hi. destruct (Hc i Hi) as (o & Ho & Hos & Hoc).
  destruct Hin as (_ & _ & Hcrp & _). destruct (Hcrp i Hi) as (lc & cv & Hlc & _).
  exists (length h + i)%nat, lc.
  split; [by apply lookup_seq_lt|]. split; [done|]. cbn [heap].
  assert (Hval : val (h ++ news) (length h + i) = o).
  { unfold val. rewrite lookup_app_r by lia.
    replace (length h + i - length h)%nat with i by lia. by rewrite Ho. }
  rewrite Hval. split; [done|].
  intros r col q Hq Hcol. rewrite (Hoc r col q Hq Hcol).
  pose proof (modulus_bound _ _ _ Hb Hq) as Hqb.
  rewrite digit_coeff_formula; [|done|by apply (Hred i Hi)|by apply Hpool].
  rewrite injected_rows by (done || lia). rewrite Hlc. done.
Qed.

(** ** From the parties' shares to the collective key *)

(** A call of a generator on well-formed inputs with reduced noise: the
    state it leaves and the coefficients of the digits. *)
Lemma generateShare_formula (PermuteNTT : Ring.Poly → Z → Ring.Poly) (rkg : RKG)
    (sel : selector) (sk : loc) (crp : list loc)
    (h : list Ring.Poly) (nz : nat → Ring.Poly) (d : nat) :
  let bc := bfvContext rkg in
  let c := ContextKeys bc in
  let n := Z.to_nat (Beta bc) in
  bounded_moduli c →
  gen_ready PermuteNTT rkg sel sk crp (mkWorld h nz d) →
  (∀ t, (t < n)%nat → reduced c (nz (d + t)%nat)) →
  ∃ g skv news,
    selector_element rkg sel = Ok g ∧
    h !! sk = Some skv ∧
    generateShare PermuteNTT rkg sel sk crp (mkWorld h nz d)
      = Ok (seq (length h) n,
            mkWorld (<[polypool rkg := prepare PermuteNTT bc skv g]> h ++ news)
                    nz (d + n)) ∧
    length news = n ∧
    ∀ t, (t < n)%nat →
      ∃ o lc cv,
        news !! t = Some o ∧ crp !! t = Some lc ∧ h !! lc = Some cv ∧
        shaped c o ∧ reduced c o ∧
        ∀ r col q,
          Ring.Modulus c !! r = Some q → (col < Z.to_nat (Ring.N c))%nat →
          coeff o r col =
            Ring.MForm q
              ((coeff (nz (d + t)%nat) r col
                + (if covers bc t r
                   then coeff (prepare PermuteNTT bc skv g) r col else 0)
                - Ring.MRed q (coeff cv r col) (coeff skv r col)) mod q).
Proof.
  intros bc c n Hb Hr Hred. subst bc c n.
  pose proof Hr as (Hwf & HP & _ & _ & _ & (sv & Hsv & Hss) & _ & _).
  cbn [heap noise drawn] in *.
  destruct (generateShare_run _ _ _ _ _ _ _ _ Hr)
    as (g & skv & news & Hg & Hsk & Hrun & Hlen & Hc).
  assert (skv = sv) as -> by congruence.
  exists g, sv, news. split; [done|]. split; [done|].
  split; [exact Hrun|]. split; [done|].
  intros i Hi. destruct (Hc i Hi) as (o & lc & cv & Ho & Hlc & Hcv & Hos & Hoc).
  assert (Hpos : Forall (λ q, 0 < q) (Ring.Modulus (ContextKeys (bfvContext rkg)))).
  { eapply Forall_impl; [exact Hb|]. simpl. intros; lia. }
  assert (Hform : ∀ r col q,
            Ring.Modulus (ContextKeys (bfvContext rkg)) !! r = Some q →
            (col < Z.to_nat (Ring.N (ContextKeys (bfvContext rkg))))%nat →
            coeff o r col =
              Ring.MForm q
                ((coeff (nz (d + i)%nat) r col
                  + (if covers (bfvContext rkg) i r
                     then coeff (prepare PermuteNTT (bfvContext rkg) sv g) r col else 0)
                  - Ring.MRed q (coeff cv r col) (coeff sv r col)) mod q)).
  { intros r col q Hq Hcol. rewrite (Hoc r col q Hq Hcol).
    pose proof (modulus_bound _ _ _ Hb Hq) as Hqb.
    rewrite digit_coeff_formula;
      [|done|by apply (Hred i Hi)
       |by apply (reduced_prepare PermuteNTT (bfvContext rkg) sv g HP Hss Hpos)].
    rewrite injected_covers.
    destruct (covers (bfvContext rkg) i r); [done|]. cbn [orb].
    destruct (Z.eqb_spec (Z.of_nat r)
                (Z.of_nat (length (Ring.Modulus (ContextQ (bfvContext rkg))))))
      as [Heq|Hne]; cbn [andb]; [|done].
    destruct (_ && _); [|done].
    rewrite (prepare_zero_aux PermuteNTT (bfvContext rkg) sv g r col q Hwf Hb HP Hss
               Hq Hcol ltac:(lia)).
    done. }
  exists o, lc, cv.
  split; [done|]. split; [done|]. split; [done|]. split; [done|].
  split; [|exact Hform].
  intros r q col Hq Hcol. rewrite (Hform r col q Hq Hcol).
  unfold Ring.MForm. apply Z.mod_pos_bound.
  pose proof (modulus_bound _ _ _ Hb Hq). lia.
Qed.

(** Shares add up: the sum of two digits in Montgomery form is the digit
    of the summed noise, summed scratch and summed secret. *)
Lemma share_sum (q e1 e2 p1 p2 a s1 s2 : Z) (b : bool) :
  0 < q →
  (Ring.MForm q ((e1 + (if b then p1 else 0) - Ring.MRed q a s1) mod q)
   + Ring.MForm q ((e2 + (if b then p2 else 0) - Ring.MRed q a s2) mod q)) mod q
  = Ring.MForm q
      ((e1 + e2 + (if b then p1 + p2 else 0) - Ring.MRed q a (s1 + s2)) mod q).
Proof.
  intros Hq. unfold Ring.MForm, Ring.MRed.
  set (pb1 := if b then p1 else 0). set (pb2 := if b then p2 else 0).
  assert (Hpb : (if b then p1 + p2 else 0) = pb1 + pb2) by (subst pb1 pb2; by destruct b).
  rewrite Hpb.
  rewrite <- Z.add_mod by lia. rewrite <- Z.mul_add_distr_r.
  rewrite <- (Z.mul_mod_idemp_l (_ + _)) by lia.
  rewrite <- Z.add_mod by lia.
  f_equal. f_equal.
  set (m1 := a * s1 * Ring.Rinv q). set (m2 := a * s2 * Ring.Rinv q).
  replace (a * (s1 + s2) * Ring.Rinv q) with (m1 + m2) by (subst m1 m2; ring).
  rewrite (Zminus_mod_idemp_r (e1 + e2 + (pb1 + pb2))).
  replace (e1 + pb1 - m1 mod q + (e2 + pb2 - m2 mod q))
    with (e1 + pb1 + e2 + pb2 - m1 mod q - m2 mod q) by ring.
  rewrite Zminus_mod_idemp_r.
  replace (e1 + pb1 + e2 + pb2 - m1 mod q - m2)
    with (e1 + pb1 + e2 + pb2 - m2 - m1 mod q) by ring.
  rewrite Zminus_mod_idemp_r. f_equal. ring.
Qed.

(** X15. Two parties and the aggregator, end to end: the shares generated
    for two secret shares with the same selector and CRP are aggregated
    into a key whose first component is, coefficient by coefficient and in
    Montgomery form, the digit built from the sum of the two noises, the
    sum of the two prepared polynomials and the sum of the two secrets,
    and whose second component is the CRP in Montgomery form. *)
Theorem two_party_key (PermuteNTT : Ring.Poly → Z → Ring.Poly) (rkg : RKG)
    (sel : selector) (sk1 sk2 : loc) (crp : list loc) (w : World) :
  let bc := bfvContext rkg in
  let c := ContextKeys bc in
  let n := Z.to_nat (Beta bc) in
  bounded_moduli c →
  gen_ready PermuteNTT rkg sel sk1 crp w →
  sk2 ≠ polypool rkg →
  (sk2 < length (heap w))%nat →
  shaped c (val (heap w) sk2) →
  (∀ t, (t < 2 * n)%nat →
     shaped c (noise w (drawn w + t)%nat) ∧ reduced c (noise w (drawn w + t)%nat)) →
  ∃ g ev1 w1 ev2 w2 key w3,
    selector_element rkg sel = Ok g ∧
    generateShare PermuteNTT rkg sel sk1 crp w = Ok (ev1, w1) ∧
    generateShare PermuteNTT rkg sel sk2 crp w1 = Ok (ev2, w2) ∧
    aggregate rkg [ev1; ev2] crp w2 = Ok (key, w3) ∧
    length key = n ∧
    ∀ i, (i < n)%nat →
      ∃ b a lc,
        key !! i = Some (b, a) ∧ crp !! i = Some lc ∧
        ∀ r col q,
          Ring.Modulus c !! r = Some q → (col < Z.to_nat (Ring.N c))%nat →
          coeff (val (heap w3) b) r col =
            Ring.MForm q
              ((coeff (noise w (drawn w + i)%nat) r col
                + coeff (noise w (drawn w + n + i)%nat) r col
                + (if covers bc i r
                   then coeff (prepare PermuteNTT bc (val (heap w) sk1) g) r col
                        + coeff (prepare PermuteNTT bc (val (heap w) sk2) g) r col
                   else 0)
                - Ring.MRed q (coeff (val (heap w) lc) r col)
                    (coeff (val (heap w) sk1) r col + coeff (val (heap w) sk2) r col))
               mod q) ∧
          coeff (val (heap w3) a) r col
            = Ring.MForm q (coeff (val (heap w) lc) r col).
Proof.
  intros bc c n Hb Hr1 Hne2 Hlt2 Hss2 Hnz. subst bc c n. destruct w as [h nz d].
  pose proof Hr1 as (Hwf & HP & Hsel & Hne1 & Hlt & (sv1 & Hsv1 & Hss1) & Hcrp & _).
  cbn [heap noise drawn] in *.
  destruct (lookup_lt_is_Some_2 h sk2 Hlt2) as [sv2 Hsv2].
  assert (Hv1 : val h sk1 = sv1) by (unfold val; by rewrite Hsv1).
  assert (Hv2 : val h sk2 = sv2) by (unfold val; by rewrite Hsv2).
  rewrite Hv1, Hv2 in *.
  set (n := Z.to_nat (Beta (bfvContext rkg))) in *.
  destruct (generateShare_formula PermuteNTT rkg sel sk1 crp h nz d Hb Hr1)
    as (g & skv & news1 & Hg & Hsk & Hrun1 & Hlen1 & Hc1).
  { intros t Ht. apply Hnz. fold n in Ht. lia. }
  assert (skv = sv1) as -> by congruence.
  fold n in Hrun1, Hlen1, Hc1.
  set (pv1 := prepare PermuteNTT (bfvContext rkg) sv1 g) in *.
  set (h1 := <[polypool rkg := pv1]> h ++ news1) in *.
  assert (Hh1 : length h1 = (length h + n)%nat).
  { unfold h1. by rewrite length_app, length_insert, Hlen1. }
  assert (Hold : ∀ l v, l ≠ polypool rkg → h !! l = Some v → h1 !! l = Some v).
  { intros l v Hl Hv. unfold h1.
    rewrite lookup_app_l by (rewrite length_insert; by eapply lookup_lt_Some).
    by rewrite list_lookup_insert_ne. }
  assert (Hr2 : gen_ready PermuteNTT rkg sel sk2 crp (mkWorld h1 nz (d + n))).
  { split; [done|]. split; [done|]. split; [done|]. split; [done|].
    cbn [heap noise drawn]. split; [lia|].
    split; [exists sv2; split; [by apply Hold|done]|]. split.
    - intros k Hk. destruct (Hcrp k Hk) as (lc & cv & Hlc & Hlne & Hcv & Hcs).
      exists lc, cv. split; [done|]. split; [done|]. split; [by apply Hold|done].
    - intros k Hk. fold n in Hk. replace (d + n + k)%nat with (d + (n + k))%nat by lia.
      apply Hnz. lia. }
  destruct (generateShare_formula PermuteNTT rkg sel sk2 crp h1 nz (d + n) Hb Hr2)
    as (g' & skv' & news2 & Hg' & Hsk' & Hrun2 & Hlen2 & Hc2).
  { intros t Ht. fold n in Ht. replace (d + n + t)%nat with (d + (n + t))%nat by lia.
    apply Hnz. lia. }
  assert (g' = g) as -> by congruence.
  assert (skv' = sv2) as -> by (rewrite (Hold sk2 sv2 Hne2 Hsv2) in Hsk'; congruence).
  fold n in Hrun2, Hlen2, Hc2.
  set (pv2 := prepare PermuteNTT (bfvContext rkg) sv2 g) in *.
  set (h2 := <[polypool rkg := pv2]> h1 ++ news2) in *.
  assert (Hh2 : length h2 = (length h + n + n)%nat).
  { unfold h2. rewrite length_app, length_insert, Hlen2. lia. }
  assert (Hold2 : ∀ l v, l ≠ polypool rkg → h1 !! l = Some v → h2 !! l = Some v).
  { intros l v Hl Hv. unfold h2.
    rewrite lookup_app_l by (rewrite length_insert; by eapply lookup_lt_Some).
    by rewrite list_lookup_insert_ne. }
  assert (Ho1 : ∀ t o, news1 !! t = Some o → h2 !! (length h + t)%nat = Some o).
  { intros t o Ho. pose proof (lookup_lt_Some _ _ _ Ho) as Ht.
    apply Hold2; [lia|]. unfold h1.
    rewrite lookup_app_r by (rewrite length_insert; lia).
    rewrite length_insert. by replace (length h + t - length h)%nat with t by lia. }
  assert (Ho2 : ∀ t o, news2 !! t = Some o → h2 !! (length h1 + t)%nat = Some o).
  { intros t o Ho. unfold h2.
    rewrite lookup_app_r by (rewrite length_insert; lia).
    rewrite length_insert. by replace (length h1 + t - length h1)%nat with t by lia. }
  assert (Hu : usable h2 [seq (length h) n; seq (length h1) n] crp n).
  { split; [done|]. split.
    - intros st t Hst Ht.
      apply elem_of_cons in Hst as [->|Hst];
        [|apply elem_of_cons in Hst as [->|Hst]; [|by apply elem_of_nil in Hst]].
      + exists (length h + t)%nat. split; [by apply lookup_seq_lt|lia].
      + exists (length h1 + t)%nat. split; [by apply lookup_seq_lt|lia].
    - intros t Ht. destruct (Hcrp t Ht) as (lc & cv & Hlc & _ & Hcv & _).
      exists lc. split; [done|]. apply lookup_lt_Some in Hcv. lia. }
  pose proof (aggregate_run rkg _ crp h2 nz (d + n + n) Hu) as Hrun3. fold n in Hrun3.
  exists g. eexists _, _, _, _, _, _.
  split; [done|]. split; [exact Hrun1|]. split; [exact Hrun2|].
  split; [exact Hrun3|]. split; [by rewrite length_fmap, length_seq|].
  intros i Hi. cbn [heap].
  destruct (Hc1 i Hi) as (o1 & lc & cv & Hn1 & Hlc & Hcv & Hos1 & Hor1 & Hoc1).
  destruct (Hc2 i Hi) as (o2 & lc' & cv' & Hn2 & Hlc' & Hcv' & Hos2 & Hor2 & Hoc2).
  assert (lc' = lc) as -> by congruence.
  destruct (Hcrp i Hi) as (lc0 & cv0 & Hlc0 & Hlne & Hcv0 & Hcs).
  assert (lc0 = lc) as -> by congruence. assert (cv0 = cv) as -> by congruence.
  assert (cv' = cv) as -> by (rewrite (Hold lc cv Hlne Hcv) in Hcv'; congruence).
  exists (length h2 + 2 * i)%nat, (length h2 + 2 * i + 1)%nat, lc.
  split.
  { apply list_lookup_fmap_Some. exists i. split; [done|]. by apply lookup_seq_lt. }
  split; [done|].
  destruct (lookup_join_pairs
              (λ t, deferred_sum (ContextKeys (bfvContext rkg))
                      (column h2 [seq (length h) n; seq (length h1) n] t))
              (λ t, Ring.MForm_poly (ContextKeys (bfvContext rkg))
                      (val h2 (default 0%nat (crp !! t))))
              n i Hi) as [Hb0 Ha0].
  assert (Hcol : column h2 [seq (length h) n; seq (length h1) n] i = [o1; o2]).
  { unfold column. cbn [fmap list_fmap].
    rewrite !lookup_seq_lt by done.
    change (default 0%nat (Some (length h + i)%nat)) with (length h + i)%nat.
    change (default 0%nat (Some (length h1 + i)%nat)) with (length h1 + i)%nat.
    unfold val. by rewrite (Ho1 i o1 Hn1), (Ho2 i o2 Hn2). }
  assert (Hvb : val (h2 ++ mjoin (aggregate_digit (ContextKeys (bfvContext rkg)) h2
                                    [seq (length h) n; seq (length h1) n] crp
                                    <$> seq 0 n)) (length h2 + 2 * i)
                = deferred_sum (ContextKeys (bfvContext rkg)) [o1; o2]).
  { unfold val. rewrite lookup_app_r by lia.
    replace (length h2 + 2 * i - length h2)%nat with (2 * i)%nat by lia.
    unfold aggregate_digit. rewrite Hb0, Hcol. done. }
  assert (Hva : val (h2 ++ mjoin (aggregate_digit (ContextKeys (bfvContext rkg)) h2
                                    [seq (length h) n; seq (length h1) n] crp
                                    <$> seq 0 n)) (length h2 + 2 * i + 1)
                = Ring.MForm_poly (ContextKeys (bfvContext rkg)) cv).
  { unfold val. rewrite lookup_app_r by lia.
    replace (length h2 + 2 * i + 1 - length h2)%nat with (2 * i + 1)%nat by lia.
    unfold aggregate_digit. rewrite Ha0, Hlc.
    change (default 0%nat (Some lc)) with lc. unfold val.
    by rewrite (Hold2 lc cv Hlne (Hold lc cv Hlne Hcv)). }
  rewrite Hvb, Hva.
  assert (Hvc : val h lc = cv) by (unfold val; by rewrite Hcv).
  rewrite Hvc.
  intros r col q Hq Hcl.
  pose proof (modulus_bound _ _ _ Hb Hq) as Hqb.
  split.
  - assert (Hsh : Forall (shaped (ContextKeys (bfvContext rkg))) [o1; o2]).
    { apply Forall_cons. split; [done|]. apply Forall_cons. split; [done|]. constructor. }
    assert (Hre : Forall (reduced (ContextKeys (bfvContext rkg))) [o1; o2]).
    { apply Forall_cons. split; [done|]. apply Forall_cons. split; [done|]. constructor. }
    destruct (deferred_sum_coeff (ContextKeys (bfvContext rkg)) [o1; o2] Hb ltac:(done)
                Hsh Hre) as [_ Hsum].
    rewrite (Hsum r col q Hq Hcl). cbn [fmap list_fmap sumZ foldr].
    rewrite Z.add_0_r, (Hoc1 r col q Hq Hcl), (Hoc2 r col q Hq Hcl).
    rewrite share_sum by lia. done.
  - unfold Ring.MForm_poly. by rewrite (coeff_map_rows _ _ _ _ _ _ _ Hcs Hq Hcl).
Qed.

(** X16. A later aggregation into a slot replaces the earlier one
    entirely: after two calls for the same kind and the same masked
    rotation amount the instance is the one the second call alone
    produces; the first key is no longer in the accumulator. *)
Theorem later_aggregation_replaces (rkg : RKG) (c1 c2 : agg_call)
    (w : World) (rkg1 : RKG) (w1 : World) (rkg2 : RKG) (w2 : World) :
  same_slot rkg c1 c2 →
  run_call rkg c1 w = Ok (rkg1, w1) →
  run_call rkg1 c2 w1 = Ok (rkg2, w2) →
  run_call rkg c2 w1 = Ok (rkg2, w2).
Proof.
  intros Hslot H1 H2.
  destruct c1 as [s1 k1 cr1|s1 k1 cr1|s1 cr1], c2 as [s2 k2 cr2|s2 k2 cr2|s2 cr2];
    try done; cbn [run_call same_slot] in *;
    unfold AggregateRotColL, AggregateRotColR, AggregateRotRow in *;
    apply bind_Ok in H1 as (r1 & w1' & _ & Hret1); injection Hret1 as <- <-;
    apply bind_Ok in H2 as (r2 & w2' & Hagg & Hret2); injection Hret2 as <- <-;
    rewrite (aggregate_static rkg) in Hagg by reflexivity;
    rewrite (bind_run _ _ _ _ _ Hagg); unfold ret; do 2 f_equal;
    unfold set_rot_col_L, set_rot_col_R, set_rot_row; cbn; f_equal.
  - fold (col_mask rkg k1). fold (col_mask rkg k2). rewrite Hslot.
    symmetry. apply insert_insert_eq.
  - fold (col_mask rkg k1). fold (col_mask rkg k2). rewrite Hslot.
    symmetry. apply insert_insert_eq.
Qed.

(** X17. The scratch buffer is scratch: what it holds when a generator is
    called has no influence on the call, which overwrites it before
    reading it. *)
Theorem scratch_content_irrelevant (PermuteNTT : Ring.Poly → Z → Ring.Poly)
    (rkg : RKG) (sel : selector) (sk : loc) (crp : list loc)
    (h : list Ring.Poly) (nz : nat → Ring.Poly) (d : nat) (x : Ring.Poly) :
  sk ≠ polypool rkg →
  (polypool rkg < length h)%nat →
  (sk < length h)%nat →
  generateShare PermuteNTT rkg sel sk crp (mkWorld (<[polypool rkg := x]> h) nz d)
    = generateShare PermuteNTT rkg sel sk crp (mkWorld h nz d).
Proof.
  intros Hne Hlt Hsk. destruct (lookup_lt_is_Some_2 h sk Hsk) as [skv Hskv].
  assert (Hgen : ∀ g,
            gen_share PermuteNTT rkg sk g crp (mkWorld (<[polypool rkg := x]> h) nz d)
              = gen_share PermuteNTT rkg sk g crp (mkWorld h nz d)).
  { intros g.
    rewrite (gen_share_run PermuteNTT rkg sk g crp h nz d skv Hne Hlt Hskv).
    rewrite (gen_share_run PermuteNTT rkg sk g crp (<[polypool rkg := x]> h) nz d skv
               Hne); [|by rewrite length_insert|by rewrite list_lookup_insert_ne].
    by rewrite list_insert_insert_eq. }
  destruct (selector_element rkg sel) as [g|e] eqn:Hsel.
  - rewrite !(generateShare_gen_share PermuteNTT rkg sel sk crp g _ Hsel). apply Hgen.
  - destruct sel as [k|k|]; cbn [generateShare selector_element] in *.
    + unfold GenShareRotLeft, bind, lift. by rewrite Hsel.
    + unfold GenShareRotRight, bind, lift. by rewrite Hsel.
    + discriminate.
Qed.

(** ** Shares in Montgomery form *)

Lemma sumZ_MForm (q : Z) (xs : list Z) :
  0 < q → sumZ (Ring.MForm q <$> xs) mod q = Ring.MForm q (sumZ xs).
Proof.
  intros Hq. induction xs as [|x xs IH].
  - unfold Ring.MForm. simpl. apply Z.mod_0_l. lia.
  - cbn [fmap list_fmap sumZ foldr].
    fold (sumZ (Ring.MForm q <$> xs)). fold (sumZ xs).
    rewrite <- Z.add_mod_idemp_r, IH by lia. unfold Ring.MForm.
    rewrite <- Z.add_mod by lia. f_equal. ring.
Qed.

(** X19. Aggregation stays in Montgomery form, for any number of
    parties: when every share digit holds the Montgomery form of some
    values, the aggregated digit holds the Montgomery form of the sum of
    these values over the parties. *)
Theorem aggregate_keeps_montgomery (rkg : RKG) (samples : list (list loc))
    (crp : list loc) (w : World) (x : list loc → nat → nat → nat → Z) :
  let c := ContextKeys (bfvContext rkg) in
  let n := Z.to_nat (Beta (bfvContext rkg)) in
  bounded_moduli c →
  usable (heap w) samples crp n →
  (∀ st t l, st ∈ samples → (t < n)%nat → st !! t = Some l →
     shaped c (val (heap w) l) ∧
     ∀ r col q, Ring.Modulus c !! r = Some q → (col < Z.to_nat (Ring.N c))%nat →
       coeff (val (heap w) l) r col = Ring.MForm q (x st t r col)) →
  ∃ receiver w',
    aggregate rkg samples crp w = Ok (receiver, w') ∧
    length receiver = n ∧
    ∀ i b a, receiver !! i = Some (b, a) →
      ∀ r col q, Ring.Modulus c !! r = Some q → (col < Z.to_nat (Ring.N c))%nat →
        coeff (val (heap w') b) r col
          = Ring.MForm q (sumZ ((λ st, x st i r col) <$> samples)).
Proof.
  intros c n Hb Hu Hwf. subst c n. destruct w as [h nz d]. cbn [heap] in *.
  rewrite (aggregate_run rkg samples crp h nz d Hu).
  eexists _, _. split; [done|]. split; [by rewrite length_fmap, length_seq|].
  intros i b a Hi r col q Hq Hcol. cbn [heap].
  apply list_lookup_fmap_Some in Hi as (k & Heq & Hk). injection Heq as -> ->.
  apply lookup_seq in Hk as [-> Hi]. change (0 + i)%nat with i.
  pose proof (modulus_bound _ _ _ Hb Hq) as Hqb.
  assert (Hwf' : ∀ st t l, st ∈ samples →
            (t < Z.to_nat (Beta (bfvContext rkg)))%nat → st !! t = Some l →
            shaped (ContextKeys (bfvContext rkg)) (val h l) ∧
            reduced (ContextKeys (bfvContext rkg)) (val h l)).
  { intros st t l Hst Ht Hl. destruct (Hwf st t l Hst Ht Hl) as [Hs Hc].
    split; [done|]. intros r' q' col' Hq' Hcol'. rewrite (Hc r' col' q' Hq' Hcol').
    unfold Ring.MForm. apply Z.mod_pos_bound.
    pose proof (modulus_bound _ _ _ Hb Hq'). lia. }
  destruct (column_wf _ _ _ _ _ i Hu Hwf' Hi) as (Hne & Hsh & Hre).
  destruct (deferred_sum_coeff _ _ Hb Hne Hsh Hre) as [_ Hsum].
  destruct (lookup_join_pairs
              (λ t, deferred_sum (ContextKeys (bfvContext rkg)) (column h samples t))
              (λ t, Ring.MForm_poly (ContextKeys (bfvContext rkg))
                      (val h (default 0%nat (crp !! t))))
              (Z.to_nat (Beta (bfvContext rkg))) i Hi) as [H0 _].
  unfold val at 1. rewrite lookup_app_r by lia.
  match goal with
  | |- context [mjoin _ !! ?y] => replace y with (2 * i)%nat by lia
  end.
  unfold aggregate_digit. rewrite H0. cbn [default from_option id].
  rewrite (Hsum r col q Hq Hcol).
  rewrite <- sumZ_MForm by lia. f_equal. f_equal.
  unfold column. rewrite <- !list_fmap_compose.
  apply list_fmap_ext. intros j st Hst. simpl.
  destruct Hu as (_ & Hs & _).
  destruct (Hs st i ltac:(by eapply list_elem_of_lookup_2) Hi) as (l & Hl & _).
  rewrite Hl. simpl.
  by apply (Hwf st i l ltac:(by eapply list_elem_of_lookup_2) Hi Hl).
Qed.

(** ** The rotation by nothing *)

Lemma prepare_identity (PermuteNTT : Ring.Poly → Z → Ring.Poly) (bc : BfvContext)
    (skv : Ring.Poly) (g : Z) (r col : nat) (q : Z) :
  bounded_moduli (ContextKeys bc) →
  shaped (ContextKeys bc) skv →
  PermuteNTT skv g = skv →
  Ring.Modulus (ContextKeys bc) !! r = Some q →
  (col < Z.to_nat (Ring.N (ContextKeys bc)))%nat →
  coeff (prepare PermuteNTT bc skv g) r col = 0.
Proof.
  intros Hb Hs Hid Hq Hcol.
  pose proof (modulus_bound _ _ _ Hb Hq) as Hqb.
  assert (Hsh : ∀ primes v, shaped (ContextKeys bc) v →
            shaped (ContextKeys bc)
              (fold_left (Ring.MulScalar_poly (ContextKeys bc)) primes v)).
  { induction primes as [|pj primes IH]; intros v Hv; [done|].
    simpl. apply IH. by apply shape_map_rows. }
  assert (Hsub : shaped (ContextKeys bc) (Ring.Sub_poly (ContextKeys bc) skv skv)).
  { by apply shape_map_rows2. }
  unfold prepare, Ring.InvMForm_poly. rewrite Hid.
  rewrite (coeff_map_rows _ _ _ _ _ _ _ (Hsh _ _ Hsub) Hq Hcol).
  rewrite (fold_MulScalar_zero _ r col q Hq Hcol ltac:(lia) _ _ Hsub).
  - unfold Ring.InvMForm. rewrite Z.mul_0_l. apply Z.mod_0_l. lia.
  - left. unfold Ring.Sub_poly.
    rewrite (coeff_map_rows2 _ _ _ _ _ _ _ _ Hs Hs Hq Hcol).
    rewrite Z.sub_diag. apply Z.mod_0_l. lia.
Qed.

(** X20. A share for the Galois element 1, which the tables hold at index
    0 and which a column rotation by a multiple of [N/2] selects, carries
    no term in the secret difference when the automorphism of that
    element is the identity on the secret: every digit is
    [noise_i - crp[i] * sk] in Montgomery form, on every row. *)
Theorem generateShare_identity_element (PermuteNTT : Ring.Poly → Z → Ring.Poly)
    (rkg : RKG) (sel : selector) (sk : loc) (crp : list loc) (w : World) :
  let bc := bfvContext rkg in
  let c := ContextKeys bc in
  let n := Z.to_nat (Beta bc) in
  bounded_moduli c →
  gen_ready PermuteNTT rkg sel sk crp w →
  (∀ t, (t < n)%nat → reduced c (noise w (drawn w + t)%nat)) →
  selector_element rkg sel = Ok 1 →
  PermuteNTT (val (heap w) sk) 1 = val (heap w) sk →
  ∃ evakey w',
    generateShare PermuteNTT rkg sel sk crp w = Ok (evakey, w') ∧
    length evakey = n ∧
    (∀ r col, coeff (val (heap w') (polypool rkg)) r col = 0) ∧
    ∀ i, (i < n)%nat →
      ∃ l lc,
        evakey !! i = Some l ∧ crp !! i = Some lc ∧
        ∀ r col q,
          Ring.Modulus c !! r = Some q → (col < Z.to_nat (Ring.N c))%nat →
          coeff (val (heap w') l) r col =
            Ring.MForm q
              ((coeff (noise w (drawn w + i)%nat) r col
                - Ring.MRed q (coeff (val (heap w) lc) r col)
                              (coeff (val (heap w) sk) r col)) mod q).
Proof.
  intros bc c n Hb Hr Hred Hsel Hid. subst bc c n. destruct w as [h nz d].
  pose proof Hr as (Hwf & HP & _ & _ & Hlt & (sv & Hsv & Hss) & _ & _).
  cbn [heap noise drawn] in *.
  destruct (generateShare_formula PermuteNTT rkg sel sk crp h nz d Hb Hr Hred)
    as (g & skv & news & Hg & Hsk & Hrun & Hlen & Hc).
  assert (g = 1) as -> by congruence. assert (skv = sv) as -> by congruence.
  assert (Hv : val h sk = sv) by (unfold val; by rewrite Hsv).
  rewrite Hv in *.
  assert (Hzero : ∀ r col q,
            Ring.Modulus (ContextKeys (bfvContext rkg)) !! r = Some q →
            (col < Z.to_nat (Ring.N (ContextKeys (bfvContext rkg))))%nat →
            coeff (prepare PermuteNTT (bfvContext rkg) sv 1) r col = 0).
  { intros r col q. by apply prepare_identity. }
  eexists _, _. split; [exact Hrun|]. split; [by rewrite length_seq|].
  cbn [heap]. split.
  - intros r col. unfold val.
    rewrite lookup_app_l by (by rewrite length_insert).
    rewrite list_lookup_insert_eq by done. cbn [default from_option id].
    pose proof (shaped_prepare PermuteNTT (bfvContext rkg) sv 1 HP Hss) as Hps.
    destruct (decide (r < length (Ring.Modulus (ContextKeys (bfvContext rkg))))%nat)
      as [Hr'|Hr'].
    + destruct (lookup_lt_is_Some_2 _ r Hr') as [q Hq].
      destruct (decide (col < Z.to_nat (Ring.N (ContextKeys (bfvContext rkg))))%nat)
        as [Hcol|Hcol]; [by apply (Hzero r col q)|].
      destruct (shape_lookup _ _ _ _ Hps Hr') as (row & Hrow & Hrl).
      unfold coeff. rewrite Hrow. by rewrite lookup_ge_None_2 by lia.
    + unfold coeff. destruct Hps as [Hpl _]. by rewrite lookup_ge_None_2 by lia.
  - intros i Hi. destruct (Hc i Hi) as (o & lc & cv & Ho & Hlc & Hcv & _ & _ & Hoc).
    exists (length h + i)%nat, lc. split; [by apply lookup_seq_lt|]. split; [done|].
    intros r col q Hq Hcol. unfold val at 1.
    rewrite lookup_app_r by (rewrite length_insert; lia). rewrite length_insert.
    replace (length h + i - length h)%nat with i by lia. rewrite Ho.
    cbn [default from_option id]. rewrite (Hoc r col q Hq Hcol).
    rewrite (Hzero r col q Hq Hcol).
    unfold val. rewrite Hcv. cbn [default from_option id].
    destruct (covers (bfvContext rkg) i r); by rewrite Z.add_0_r.
Qed.

(** ** The injection loop at the end of the chain *)


(** ** Moduli beyond the bound *)

Lemma wrap_share_wf :
  shaped (ContextKeys wrap_ctx) wrap_share ∧ reduced (ContextKeys wrap_ctx) wrap_share.
Proof.
  split.
  - unfold shaped, shape. simpl. split; [done|]. repeat constructor.
  - intros r q col Hq Hcol. simpl in Hcol.
    do 2 (destruct r as [|r];
      [vm_compute in Hq; injection Hq as <-;
       do 4 (destruct col as [|col]; [vm_compute; split; [discriminate|reflexivity]|]);
       lia|]).
    vm_compute in Hq. discriminate.
Qed.

(** Counterexample to C3 as stated: with a modulus of 61 bits and sixteen
    parties, each with one well-formed (context-shaped, reduced) share
    polynomial, the accumulation between two reductions leaves 64 bits:
    the polynomial [aggregate] returns is not the modular sum of the
    shares. *)
Lemma deferred_sum_wraps :
  wf_ctx wrap_ctx ∧
  usable wrap_heap wrap_samples [1%nat] (Z.to_nat (Beta wrap_ctx)) ∧
  wrap_samples ≠ [] ∧
  Forall (λ st, length st = Z.to_nat (Beta wrap_ctx)) wrap_samples ∧
  length [1%nat] = Z.to_nat (Beta wrap_ctx) ∧
  Forall (Forall (λ l, shaped (ContextKeys wrap_ctx) (val wrap_heap l) ∧
                       reduced (ContextKeys wrap_ctx) (val wrap_heap l)))
         wrap_samples ∧
  ∃ receiver w' b a,
    aggregate wrap_rkg wrap_samples [1%nat] wrap_world = Ok (receiver, w') ∧
    receiver !! 0%nat = Some (b, a) ∧
    coeff (val (heap w') b) 0 0
      ≠ sumZ ((λ v, coeff v 0 0) <$> column wrap_heap wrap_samples 0)
          mod 2305843009213693921 ∧
    val (heap w') b ≠ naive_sum (ContextKeys wrap_ctx) (column wrap_heap wrap_samples 0).
Proof.
  split; [unfold wf_ctx; simpl; repeat split; try done; lia|].
  split.
  { split; [done|]. split.
    - intros st t Hst Ht.
      apply list_elem_of_fmap in Hst as (l & -> & [Hl1 Hl2]%elem_of_seq).
      change (Z.to_nat (Beta wrap_ctx)) with 1%nat in Ht.
      assert (t = 0%nat) as -> by lia.
      exists l. split; [done|]. change (length wrap_heap) with 18%nat. lia.
    - intros t Ht. change (Z.to_nat (Beta wrap_ctx)) with 1%nat in Ht.
      assert (t = 0%nat) as -> by lia.
      exists 1%nat. split; [done|]. change (length wrap_heap) with 18%nat. lia. }
  split; [done|].
  split; [unfold wrap_samples; simpl; repeat constructor|].
  split; [reflexivity|].
  split.
  { unfold wrap_samples. simpl.
    repeat (constructor; [constructor; [exact wrap_share_wf|constructor]|]).
    constructor. }
  eexists _, _, _, _. split; [vm_compute; reflexivity|].
  split; [reflexivity|]. split.
  - vm_compute. discriminate.
  - intros H. vm_compute in H. discriminate.
Qed.

(** ** The further properties at the toy instance *)

Lemma toy_share_inputs :
  share_inputs toy_rkg 1%nat [2; 3]%nat toy_heap (toy_noise 7) 0
    (Z.to_nat (Beta (bfvContext toy_rkg))).
Proof.
  split; [exists (toy_poly 1); split; [done|apply toy_poly_shaped]|].
  split; [exists (toy_poly 2); split; [done|apply toy_poly_shaped]|].
  split.
  - intros t Ht. simpl in Ht.
    destruct t as [|[|t]]; [exists 2%nat, (toy_poly 3)|exists 3%nat, (toy_poly 4)|lia];
      (split; [done|]; split; [done|apply toy_poly_shaped]).
  - intros t _. apply toy_poly_shaped.
Qed.

Lemma toy_heap_wf (l : nat) :
  (l < 6)%nat →
  shaped (ContextKeys toy_ctx) (val toy_heap l) ∧
  reduced (ContextKeys toy_ctx) (val toy_heap l).
Proof.
  intros Hl.
  do 6 (destruct l as [|l]; [split; [apply toy_poly_shaped|apply toy_poly_reduced]|]).
  lia.
Qed.

Lemma toy_usable_of (samples : list (list loc)) (crp : list loc) :
  samples ≠ [] →
  Forall (λ st, (2 ≤ length st)%nat ∧ allocated toy_heap st) samples →
  (2 ≤ length crp)%nat → allocated toy_heap crp →
  usable toy_heap samples crp 2.
Proof.
  intros Hne Hs Hlen Hc. split; [done|]. split.
  - intros st t Hst Ht.
    destruct (proj1 (Forall_forall _ _) Hs st Hst) as [Hl Ha].
    destruct (lookup_lt_is_Some_2 st t ltac:(lia)) as [l Hl'].
    exists l. split; [done|]. exact (Forall_lookup_1 _ _ _ _ Ha Hl').
  - intros t Ht.
    destruct (lookup_lt_is_Some_2 crp t ltac:(lia)) as [l Hl'].
    exists l. split; [done|]. exact (Forall_lookup_1 _ _ _ _ Hc Hl').
Qed.

Lemma toy_two_parties : usable toy_heap [[4; 5]; [5; 4]]%nat [2; 3]%nat 2.
Proof.
  apply toy_usable_of; [done| |simpl; lia|exact toy_allocated_crp].
  unfold allocated. repeat constructor; simpl; lia.
Qed.


Lemma toy_parties_wf (samples : list (list loc)) (crp : list loc) (st : list loc)
    (t l : nat) :
  usable toy_heap samples crp 2 → st ∈ samples → (t < 2)%nat → st !! t = Some l →
  shaped (ContextKeys toy_ctx) (val toy_heap l) ∧
  reduced (ContextKeys toy_ctx) (val toy_heap l).
Proof.
  intros (_ & Hs & _) Hst Ht Hl. destruct (Hs st t Hst Ht) as (l' & Hl' & Hlt).
  assert (l' = l) as -> by congruence. by apply toy_heap_wf.
Qed.

Lemma NewRKG_degenerate_witness :
  bfv_N tiny_ctx = 1 ∧
  NewRKG tiny_ctx toy_world = Panic (IndexOutOfRange 0 0).
Proof.
  assert (H : bfv_N tiny_ctx = 1) by reflexivity.
  split; [exact H|].
  exact (proj2 (proj2 (proj2 (NewRKG_degenerate tiny_ctx toy_world H)))).
Defined.

Lemma NewRKG_fresh_instance_witness :
  1 ≤ 4 ≤ 62 ∧ bfv_N wide_ctx = 2 ^ 4 ∧ 0 ≤ Ring.N (ContextKeys wide_ctx) ∧
  ∃ rkg w',
    NewRKG wide_ctx toy_world = Ok (rkg, w') ∧
    polypool rkg = 6%nat ∧
    Finalize rkg = (NewRotationKeysEmpty, rkg).
Proof.
  assert (H1 : 1 ≤ 4 ≤ 62) by lia.
  assert (H2 : bfv_N wide_ctx = 2 ^ 4) by reflexivity.
  assert (H3 : 0 ≤ Ring.N (ContextKeys wide_ctx)) by (change (0 ≤ 16); lia).
  split; [exact H1|]. split; [exact H2|]. split; [exact H3|].
  destruct (NewRKG_fresh_instance wide_ctx toy_world 4 H1 H2 H3)
    as (rkg & w' & Hrun & _ & Hp & _ & _ & _ & _ & _ & _ & Hfin).
  exists rkg, w'. split; [exact Hrun|]. split; [exact Hp|exact Hfin].
Defined.

Lemma NewRKG_column_elements_witness :
  1 ≤ 4 ≤ 62 ∧ bfv_N wide_ctx = 2 ^ 4 ∧
  ∃ rkg w',
    NewRKG wide_ctx toy_world = Ok (rkg, w') ∧
    galElRotRow rkg mod 4 = 3 ∧
    ∀ x, x ∈ galElRotColLeft rkg ++ galElRotColRight rkg →
      x mod 4 = 1 ∧ x ≠ galElRotRow rkg.
Proof.
  assert (H1 : 1 ≤ 4 ≤ 62) by lia.
  assert (H2 : bfv_N wide_ctx = 2 ^ 4) by reflexivity.
  split; [exact H1|]. split; [exact H2|].
  destruct (NewRKG_run wide_ctx toy_world 4 H1 H2) as (left & right & Hrun & _).
  eexists _, _. split; [exact Hrun|].
  destruct (NewRKG_column_elements wide_ctx toy_world 4 _ _ H1 H2 Hrun)
    as (_ & Hrow & Hx).
  split; [exact Hrow|].
  intros x Hin. destruct (Hx x Hin) as (_ & H4 & Hne). split; [exact H4|exact Hne].
Defined.

Lemma NewRKG_tables_NoDup_witness :
  1 ≤ 4 ≤ 62 ∧ bfv_N wide_ctx = 2 ^ 4 ∧
  ∃ rkg w',
    NewRKG wide_ctx toy_world = Ok (rkg, w') ∧
    length (galElRotColLeft rkg) = 8%nat ∧
    NoDup (galElRotColLeft rkg) ∧ NoDup (galElRotColRight rkg).
Proof.
  assert (H1 : 1 ≤ 4 ≤ 62) by lia.
  assert (H2 : bfv_N wide_ctx = 2 ^ 4) by reflexivity.
  split; [exact H1|]. split; [exact H2|].
  destruct (NewRKG_run wide_ctx toy_world 4 H1 H2) as (left & right & Hrun & Hl & _).
  eexists _, _. split; [exact Hrun|]. split; [exact Hl|].
  exact (NewRKG_tables_NoDup wide_ctx toy_world 4 _ _ H1 H2 Hrun).
Defined.

Lemma NewRKG_then_generate_witness :
  1 ≤ 2 ≤ 62 ∧ bfv_N toy_ctx = 2 ^ 2 ∧
  Ring.N (ContextKeys toy_ctx) = bfv_N toy_ctx ∧ 0 ≤ 7 ∧
  ∃ rkg w',
    NewRKG toy_ctx (mkWorld [] (toy_noise 7) 0) = Ok (rkg, w') ∧
    GenShareRotLeft toy_PermuteNTT rkg 1%nat 7 [2; 3]%nat toy_world
      = gen_share toy_PermuteNTT rkg 1%nat
          (5 ^ (7 mod (bfv_N toy_ctx / 2)) mod (2 * bfv_N toy_ctx)) [2; 3]%nat toy_world.
Proof.
  assert (H1 : 1 ≤ 2 ≤ 62) by lia.
  assert (H2 : bfv_N toy_ctx = 2 ^ 2) by reflexivity.
  assert (H3 : Ring.N (ContextKeys toy_ctx) = bfv_N toy_ctx) by reflexivity.
  assert (H4 : 0 ≤ 7) by lia.
  split; [exact H1|]. split; [exact H2|]. split; [exact H3|]. split; [exact H4|].
  destruct (NewRKG_run toy_ctx (mkWorld [] (toy_noise 7) 0) 2 H1 H2)
    as (left & right & Hrun & _).
  eexists _, _. split; [exact Hrun|].
  exact (proj1 (NewRKG_then_generate toy_PermuteNTT toy_ctx _ 2 _ _ 1%nat 7 [2; 3]%nat
                  toy_world H1 H2 H3 Hrun H4)).
Defined.

Lemma GenShareRotRight_as_left_witness :
  1 ≤ 2 ≤ 62 ∧ bfv_N toy_ctx = 2 ^ 2 ∧
  Ring.N (ContextKeys toy_ctx) = bfv_N toy_ctx ∧ 0 ≤ 7 ∧
  ∃ rkg w',
    NewRKG toy_ctx (mkWorld [] (toy_noise 7) 0) = Ok (rkg, w') ∧
    GenShareRotRight toy_PermuteNTT rkg 1%nat 7 [2; 3]%nat toy_world
      = GenShareRotLeft toy_PermuteNTT rkg 1%nat
          (bfv_N toy_ctx / 2 - 7 mod (bfv_N toy_ctx / 2)) [2; 3]%nat toy_world.
Proof.
  assert (H1 : 1 ≤ 2 ≤ 62) by lia.
  assert (H2 : bfv_N toy_ctx = 2 ^ 2) by reflexivity.
  assert (H3 : Ring.N (ContextKeys toy_ctx) = bfv_N toy_ctx) by reflexivity.
  assert (H4 : 0 ≤ 7) by lia.
  split; [exact H1|]. split; [exact H2|]. split; [exact H3|]. split; [exact H4|].
  destruct (NewRKG_run toy_ctx (mkWorld [] (toy_noise 7) 0) 2 H1 H2)
    as (left & right & Hrun & _).
  eexists _, _. split; [exact Hrun|].
  exact (GenShareRotRight_as_left toy_PermuteNTT toy_ctx _ 2 _ _ 1%nat 7 [2; 3]%nat
           toy_world H1 H2 H3 Hrun H4).
Defined.

Lemma aggregate_effect_witness :
  ∃ receiver w',
    aggregate toy_rkg toy_samples [2; 3]%nat toy_world = Ok (receiver, w') ∧
    length receiver = 2%nat ∧ drawn w' = 0%nat.
Proof.
  pose proof (aggregate_run toy_rkg toy_samples [2; 3]%nat toy_heap (toy_noise 7) 0
                (toy_usable 2 [2; 3]%nat ltac:(lia) ltac:(simpl; lia)
                   toy_allocated_crp)) as Hrun.
  eexists _, _. split; [exact Hrun|].
  pose proof (aggregate_effect _ _ _ _ _ _ Hrun) as H. cbv zeta in H.
  destruct H as (_ & Hlen & _ & _ & Hd). split; [exact Hlen|exact Hd].
Defined.

Lemma genswitchkey_effect_witness :
  ∃ evakey w',
    genswitchkey toy_rkg 0%nat 1%nat [2; 3]%nat toy_world = Ok (evakey, w') ∧
    evakey = [6; 7]%nat ∧ drawn w' = 2%nat.
Proof.
  destruct (genswitchkey_run toy_rkg 0%nat 1%nat [2; 3]%nat toy_heap (toy_noise 7) 0
              toy_wf toy_share_inputs) as (news & Hrun & _).
  eexists _, _. split; [exact Hrun|].
  pose proof (genswitchkey_effect _ _ _ _ _ _ _ Hrun) as H. cbv zeta in H.
  destruct H as (Hev & _ & _ & Hd). split; [exact Hev|exact Hd].
Defined.

Lemma generateShare_effect_witness :
  ∃ evakey w',
    generateShare toy_PermuteNTT toy_rkg (ColumnLeft 1) 1%nat [2; 3]%nat toy_world
      = Ok (evakey, w') ∧
    evakey = [6; 7]%nat ∧
    heap w' !! 1%nat = heap toy_world !! 1%nat.
Proof.
  destruct (generateShare_run toy_PermuteNTT toy_rkg (ColumnLeft 1) 1%nat [2; 3]%nat
              toy_heap (toy_noise 7) 0 (toy_gen_ready (ColumnLeft 1) 7 0 toy_selector))
    as (g & skv & news & _ & _ & Hrun & _).
  eexists _, _. split; [exact Hrun|].
  pose proof (generateShare_effect _ _ _ _ _ _ _ _ Hrun) as H. cbv zeta in H.
  destruct H as (Hev & _ & Hk & _). split; [exact Hev|].
  apply Hk; [simpl; lia|discriminate].
Defined.

Lemma finalized_keys_complete_witness :
  drained toy_rkg ∧
  ∃ rkg' w',
    run_calls toy_calls toy_rkg const_world = Ok (rkg', w') ∧
    ∀ key, evakey_rot_row (Finalize rkg').1 = Some key → length key = 2%nat.
Proof.
  assert (H1 : drained toy_rkg) by done.
  split; [exact H1|].
  destruct (run_calls toy_calls toy_rkg const_world) as [[rkg1 w1]|e] eqn:Hrun;
    [|vm_compute in Hrun; discriminate].
  exists rkg1, w1. split; [reflexivity|]. intros key Hk.
  exact (proj1 (finalized_keys_complete toy_calls toy_rkg const_world rkg1 w1 H1 Hrun
                  key (or_intror (or_intror Hk)))).
Defined.

Lemma aggregate_order_independent_witness :
  bounded_moduli (ContextKeys toy_ctx) ∧
  usable toy_heap [[4; 5]; [5; 4]]%nat [2; 3]%nat 2 ∧
  [[5; 4]; [4; 5]]%nat ≡ₚ [[4; 5]; [5; 4]]%nat ∧
  aggregate toy_rkg [[5; 4]; [4; 5]]%nat [2; 3]%nat toy_world
    = aggregate toy_rkg [[4; 5]; [5; 4]]%nat [2; 3]%nat toy_world.
Proof.
  pose proof toy_bounded as H1. pose proof toy_two_parties as H2.
  assert (H3 : [[5; 4]; [4; 5]]%nat ≡ₚ [[4; 5]; [5; 4]]%nat) by apply perm_swap.
  split; [exact H1|]. split; [exact H2|]. split; [exact H3|].
  apply (aggregate_order_independent toy_rkg _ _ [2; 3]%nat toy_world H1 H2); [|exact H3].
  intros st t l. apply (toy_parties_wf _ _ _ _ _ H2).
Defined.


Lemma operations_ignore_accumulator_witness :
  ∃ rkg1 w1,
    run_calls toy_calls toy_rkg const_world = Ok (rkg1, w1) ∧
    generateShare toy_PermuteNTT (Finalize rkg1).2 (ColumnLeft 1) 1%nat [2; 3]%nat w1
      = generateShare toy_PermuteNTT toy_rkg (ColumnLeft 1) 1%nat [2; 3]%nat w1.
Proof.
  destruct (run_calls toy_calls toy_rkg const_world) as [[rkg1 w1]|e] eqn:Hrun;
    [|vm_compute in Hrun; discriminate].
  exists rkg1, w1. split; [reflexivity|].
  exact (proj1 (proj2 (operations_ignore_accumulator toy_PermuteNTT toy_calls toy_rkg
                         const_world rkg1 w1 Hrun (ColumnLeft 1) 1%nat [] [2; 3]%nat w1))).
Defined.

Lemma genswitchkey_digits_witness :
  wf_ctx (bfvContext toy_rkg) ∧
  bounded_moduli (ContextKeys (bfvContext toy_rkg)) ∧
  reduced (ContextKeys (bfvContext toy_rkg)) (val toy_heap (polypool toy_rkg)) ∧
  ∃ evakey w',
    genswitchkey toy_rkg 0%nat 1%nat [2; 3]%nat toy_world = Ok (evakey, w') ∧
    length evakey = 2%nat.
Proof.
  pose proof (proj2 (toy_heap_wf 0 ltac:(lia))) as H3.
  split; [exact toy_wf|]. split; [exact toy_bounded|]. split; [exact H3|].
  destruct (genswitchkey_digits toy_rkg 0%nat 1%nat [2; 3]%nat toy_world
              toy_wf toy_bounded toy_share_inputs H3)
    as (evakey & w' & Hrun & Hlen & _).
  { intros t _. apply toy_poly_reduced. }
  exists evakey, w'. split; [exact Hrun|exact Hlen].
Defined.

Lemma two_party_key_witness :
  bounded_moduli (ContextKeys (bfvContext toy_rkg)) ∧
  gen_ready toy_PermuteNTT toy_rkg (ColumnLeft 1) 1%nat [2; 3]%nat toy_world ∧
  4%nat ≠ polypool toy_rkg ∧
  ∃ ev1 w1 ev2 w2 key w3,
    generateShare toy_PermuteNTT toy_rkg (ColumnLeft 1) 1%nat [2; 3]%nat toy_world
      = Ok (ev1, w1) ∧
    generateShare toy_PermuteNTT toy_rkg (ColumnLeft 1) 4%nat [2; 3]%nat w1
      = Ok (ev2, w2) ∧
    aggregate toy_rkg [ev1; ev2] [2; 3]%nat w2 = Ok (key, w3) ∧
    length key = 2%nat.
Proof.
  pose proof toy_bounded as H1.
  pose proof (toy_gen_ready (ColumnLeft 1) 7 0 toy_selector) as H2.
  assert (H3 : 4%nat ≠ polypool toy_rkg) by discriminate.
  split; [exact H1|]. split; [exact H2|]. split; [exact H3|].
  destruct (two_party_key toy_PermuteNTT toy_rkg (ColumnLeft 1) 1%nat 4%nat [2; 3]%nat
              toy_world H1 H2 H3)
    as (g & ev1 & w1 & ev2 & w2 & key & w3 & _ & Hr1 & Hr2 & Hr3 & Hlen & _).
  { simpl. lia. }
  { apply toy_poly_shaped. }
  { intros t _. split; [apply toy_poly_shaped|apply toy_poly_reduced]. }
  exists ev1, w1, ev2, w2, key, w3.
  split; [exact Hr1|]. split; [exact Hr2|]. split; [exact Hr3|exact Hlen].
Defined.

Lemma later_aggregation_replaces_witness :
  same_slot toy_rkg (CallColL toy_samples 1 [2; 3]%nat)
                    (CallColL [[4; 5]]%nat 3 [2; 3]%nat) ∧
  ∃ rkg1 w1 rkg2 w2,
    run_call toy_rkg (CallColL toy_samples 1 [2; 3]%nat) const_world = Ok (rkg1, w1) ∧
    run_call rkg1 (CallColL [[4; 5]]%nat 3 [2; 3]%nat) w1 = Ok (rkg2, w2) ∧
    run_call toy_rkg (CallColL [[4; 5]]%nat 3 [2; 3]%nat) w1 = Ok (rkg2, w2).
Proof.
  assert (H0 : same_slot toy_rkg (CallColL toy_samples 1 [2; 3]%nat)
                 (CallColL [[4; 5]]%nat 3 [2; 3]%nat)) by reflexivity.
  split; [exact H0|].
  destruct (run_call toy_rkg (CallColL toy_samples 1 [2; 3]%nat) const_world)
    as [[rkg1 w1]|e] eqn:H1; [|vm_compute in H1; discriminate].
  destruct (run_call rkg1 (CallColL [[4; 5]]%nat 3 [2; 3]%nat) w1)
    as [[rkg2 w2]|e] eqn:H2.
  - exists rkg1, w1, rkg2, w2. split; [reflexivity|]. split; [exact H2|].
    exact (later_aggregation_replaces toy_rkg _ _ const_world rkg1 w1 rkg2 w2 H0 H1 H2).
  - exfalso. vm_compute in H1. injection H1 as <- <-. vm_compute in H2. discriminate.
Defined.

Lemma scratch_content_irrelevant_witness :
  1%nat ≠ polypool toy_rkg ∧
  (polypool toy_rkg < length toy_heap)%nat ∧ (1 < length toy_heap)%nat ∧
  generateShare toy_PermuteNTT toy_rkg (ColumnLeft 1) 1%nat [2; 3]%nat
      (mkWorld (<[polypool toy_rkg := toy_poly 9]> toy_heap) (toy_noise 7) 0)
    = generateShare toy_PermuteNTT toy_rkg (ColumnLeft 1) 1%nat [2; 3]%nat
        (mkWorld toy_heap (toy_noise 7) 0).
Proof.
  assert (H1 : 1%nat ≠ polypool toy_rkg) by discriminate.
  assert (H2 : (polypool toy_rkg < length toy_heap)%nat) by (simpl; lia).
  assert (H3 : (1 < length toy_heap)%nat) by (simpl; lia).
  split; [exact H1|]. split; [exact H2|]. split; [exact H3|].
  exact (scratch_content_irrelevant toy_PermuteNTT toy_rkg (ColumnLeft 1) 1%nat
           [2; 3]%nat toy_heap (toy_noise 7) 0 (toy_poly 9) H1 H2 H3).
Defined.

Lemma filed_keys_are_stable_witness :
  drained toy_rkg ∧ (polypool toy_rkg < length (heap const_world))%nat ∧
  ∃ rkg1 w1 evakey w2 rkg2 w3,
    run_calls [CallRow [[4; 5]]%nat [2; 3]%nat] toy_rkg const_world = Ok (rkg1, w1) ∧
    generateShare toy_PermuteNTT rkg1 (ColumnLeft 1) 1%nat [2; 3]%nat w1
      = Ok (evakey, w2) ∧
    run_calls [CallRow [[4; 5]]%nat [2; 3]%nat] rkg1 w2 = Ok (rkg2, w3) ∧
    ∀ key, rot_row rkg1 = Some key →
      ∀ b a, (b, a) ∈ key →
        heap w3 !! b = heap w1 !! b ∧ heap w3 !! a = heap w1 !! a.
Proof.
  assert (H1 : drained toy_rkg) by done.
  assert (H2 : (polypool toy_rkg < length (heap const_world))%nat) by (simpl; lia).
  split; [exact H1|]. split; [exact H2|].
  eassert (Hr1 : run_calls [CallRow [[4; 5]]%nat [2; 3]%nat] toy_rkg const_world
                 = Ok (_, _)) by (vm_compute; reflexivity).
  match type of Hr1 with
  | _ = Ok (?r1, ?w1) =>
      eassert (Hg : generateShare toy_PermuteNTT r1 (ColumnLeft 1) 1%nat [2; 3]%nat w1
                    = Ok (_, _)) by (vm_compute; reflexivity)
  end.
  match type of Hr1 with
  | _ = Ok (?r1, _) =>
      match type of Hg with
      | _ = Ok (_, ?w2) =>
          eassert (Hr2 : run_calls [CallRow [[4; 5]]%nat [2; 3]%nat] r1 w2 = Ok (_, _))
            by (vm_compute; reflexivity)
      end
  end.
  eexists _, _, _, _, _, _. split; [exact Hr1|]. split; [exact Hg|].
  split; [exact Hr2|]. intros key Hkey.
  exact (filed_keys_are_stable toy_PermuteNTT _ _ toy_rkg const_world _ _ _ _ _
           _ _ _ _ H1 H2 Hr1 Hg Hr2 key (or_intror (or_intror Hkey))).
Defined.

Lemma aggregate_keeps_montgomery_witness :
  bounded_moduli (ContextKeys (bfvContext toy_rkg)) ∧
  usable toy_heap [[4; 5]; [5; 4]]%nat [2; 3]%nat 2 ∧
  ∃ receiver w',
    aggregate toy_rkg [[4; 5]; [5; 4]]%nat [2; 3]%nat toy_world = Ok (receiver, w') ∧
    length receiver = 2%nat.
Proof.
  pose proof toy_bounded as H1. pose proof toy_two_parties as H2.
  split; [exact H1|]. split; [exact H2|].
  destruct (aggregate_keeps_montgomery toy_rkg [[4; 5]; [5; 4]]%nat [2; 3]%nat
              toy_world toy_plain H1 H2)
    as (receiver & w' & Hrun & Hlen & _).
  { intros st t l Hst Ht Hl.
    split; [by apply (toy_parties_wf _ _ st t l H2)|].
    intros r col q Hq Hcol. unfold toy_plain. rewrite Hl.
    assert (Hl6 : (l < 6)%nat).
    { destruct H2 as (_ & Hs & _). destruct (Hs st t Hst Ht) as (l' & Hl' & Hlt).
      assert (l' = l) as -> by congruence. exact Hlt. }
    simpl in Hcol.
    do 6 (destruct l as [|l];
      [do 5 (destruct r as [|r];
         [vm_compute in Hq; injection Hq as <-;
          do 4 (destruct col as [|col]; [vm_compute; reflexivity|]); lia|]);
       vm_compute in Hq; discriminate|]).
    lia. }
  exists receiver, w'. split; [exact Hrun|exact Hlen].
Defined.

Lemma generateShare_identity_element_witness :
  bounded_moduli (ContextKeys (bfvContext toy_rkg)) ∧
  gen_ready unit_PermuteNTT toy_rkg (ColumnLeft 0) 1%nat [2; 3]%nat toy_world ∧
  selector_element toy_rkg (ColumnLeft 0) = Ok 1 ∧
  unit_PermuteNTT (val (heap toy_world) 1%nat) 1 = val (heap toy_world) 1%nat ∧
  ∃ evakey w',
    generateShare unit_PermuteNTT toy_rkg (ColumnLeft 0) 1%nat [2; 3]%nat toy_world
      = Ok (evakey, w') ∧
    length evakey = 2%nat.
Proof.
  pose proof toy_bounded as H1.
  assert (H3 : selector_element toy_rkg (ColumnLeft 0) = Ok 1) by reflexivity.
  assert (H4 : unit_PermuteNTT (val (heap toy_world) 1%nat) 1
               = val (heap toy_world) 1%nat) by reflexivity.
  assert (H2 : gen_ready unit_PermuteNTT toy_rkg (ColumnLeft 0) 1%nat [2; 3]%nat
                 toy_world).
  { split; [exact toy_wf|]. split.
    { intros p g [Hlen Hall]. unfold unit_PermuteNTT. split.
      - by rewrite length_fmap.
      - apply Forall_fmap. eapply Forall_impl; [exact Hall|].
        simpl. intros row Hrow. by rewrite length_rotate. }
    split; [by exists 1|]. split; [done|]. split; [simpl; lia|].
    split; [exists (toy_poly 2); split; [done|apply toy_poly_shaped]|].
    split.
    - intros t Ht. simpl in Ht.
      destruct t as [|[|t]]; [exists 2%nat, (toy_poly 3)|exists 3%nat, (toy_poly 4)|lia];
        (split; [done|]; split; [done|]; split; [done|apply toy_poly_shaped]).
    - intros t Ht. apply toy_poly_shaped. }
  split; [exact H1|]. split; [exact H2|]. split; [exact H3|]. split; [exact H4|].
  destruct (generateShare_identity_element unit_PermuteNTT toy_rkg (ColumnLeft 0) 1%nat
              [2; 3]%nat toy_world H1 H2)
    as (evakey & w' & Hrun & Hlen & _).
  { intros t _. apply toy_poly_reduced. }
  { exact H3. }
  { exact H4. }
  exists evakey, w'. split; [exact Hrun|exact Hlen].
Defined.

